(** * crunch: the atlas packer (packer.cpp)

    A shallow embedding of the methods of [Packer] ([Pack], [SavePng],
    [SaveXml], [SaveBin], [SaveJson]) and of the free functions
    [alignStream], [sort_permutation] and [apply_permutation_in_place],
    followed by the properties of the packing loop, the canvas shrinking
    and the binary encoder. *)

From Stdlib Require Import ZArith List Bool String Ascii Lia DecimalString.
From Stdlib.Strings Require Import Byte.
From Stdlib Require Import Permutation Sorted OrderedTypeEx.
From stdpp Require Import base option list gmap strings.

Local Open Scope Z_scope.

(** ** Results of running code

    [Undefined] stands for behaviour the C++ standard leaves undefined (an
    [operator[]] past the end of a vector, a failed [assert]); [OutOfFuel]
    for a [while] loop that was still running when the fuel of the model
    was spent. *)

Inductive outcome (A : Type) : Type :=
| Done (a : A)
| Undefined
| OutOfFuel.

Arguments Done {A} a.
Arguments Undefined {A}.
Arguments OutOfFuel {A}.

#[export] Instance outcome_ret : MRet outcome := @Done.
#[export] Instance outcome_bind : MBind outcome := λ A B f m,
  match m with
  | Done a => f a
  | Undefined => Undefined
  | OutOfFuel => OutOfFuel
  end.

(** ** Integers of the source

    Arithmetic on [int] is done in [Z]: where an [int] would overflow the
    C++ standard leaves the behaviour undefined. Conversions that the
    standard defines modulo a power of two are written out. *)

(** [static_cast<int>] of a value that may not fit: reduction modulo 2^32
    into the signed range. *)
Definition static_cast_int (n : Z) : Z :=
  (n + 2147483648) mod 4294967296 - 2147483648.

(** [static_cast<int16_t>]. *)
Definition static_cast_int16_t (n : Z) : Z :=
  (n + 32768) mod 65536 - 32768.

(** Conversion of an [int] to [size_t], as in a comparison of mixed
    signedness or in an index. *)
Definition to_size_t (n : Z) : Z := n mod 18446744073709551616.

(** Text written to a stream: [endl], a tab, a double quote, and an [int]
    as [operator<<] prints it. *)
Definition endl : string := String "010"%char EmptyString.
Definition tab : string := String "009"%char EmptyString.
Definition quote : string := String "034"%char EmptyString.
Definition show_int (n : Z) : string := NilZero.string_of_int (Z.to_int n).

(** [vec[i]]: reading past the end is undefined. *)
Definition vector_at {A : Type} (vec : list A) (i : nat) : outcome A :=
  match vec !! i with
  | Some a => Done a
  | None => Undefined
  end.

(** [vec[i] = a]. *)
Definition vector_set {A : Type} (vec : list A) (i : nat) (a : A)
  : outcome (list A) :=
  if decide (i < length vec)%nat then Done (<[i:=a]> vec) else Undefined.

(** An [int] used as an index is converted to [size_t] first. *)
Definition index_of_int (i : Z) : nat := Z.to_nat (to_size_t i).

(** [for (i = ...; ...; ++i) body], over the values [i] takes. *)
Fixpoint for_each {S : Type} (range : list nat) (body : nat → S → outcome S)
    (s : S) : outcome S :=
  match range with
  | [] => Done s
  | i :: range' => s' ← body i s; for_each range' body s'
  end.

(** ** Data model *)

Module Rect.
Record t : Type := mk { x : Z; y : Z; width : Z; height : Z }.
End Rect.

Module Point.
Record t : Type := mk { x : Z; y : Z; dupID : Z; rot : bool }.
End Point.

(** The fields of [Bitmap] that the packer reads, and the pixel buffer that
    [Bitmap::Equals] compares. *)
Module Bitmap.
Record t : Type := mk {
  name : string;
  width : Z;
  height : Z;
  hashValue : N;
  frameX : Z;
  frameY : Z;
  frameW : Z;
  frameH : Z;
  data : list N
}.
End Bitmap.

(** The one member of [MaxRectsBinPack::FreeRectChoiceHeuristic] that the
    packer names. *)
Inductive FreeRectChoiceHeuristic : Type := RectBestShortSideFit.

(** The rectangle bin: [MaxRectsBinPack packer(width, height)] and
    [packer.Insert(w, h, rotate, heuristic)], which returns the placement and
    leaves the bin in a new state. *)
Class RectangleBin (B : Type) : Type := {
  MaxRectsBinPack : Z → Z → B;
  Insert : B → Z → Z → bool → FreeRectChoiceHeuristic → Rect.t * B
}.

(** [Bitmap::Equals], declared in bitmap.hpp. *)
Class BitmapEquals : Type := Equals : Bitmap.t → Bitmap.t → bool.

(** ** The free functions of packer.cpp *)

(** A stream open for writing is the list of the bytes written so far;
    [tellp] is their number. *)
Definition tellp (bin : list byte) : Z := Z.of_nat (length bin).

(** [alignStream]. The [assert] and the division by [alignment] have no
    defined result when they fail. *)
Definition alignStream (bin : list byte) (alignment : Z) : outcome (list byte) :=
  if 4096 <? alignment then Undefined
  else if alignment =? 0 then Undefined
  else
    let position := tellp bin in
    let remaining := alignment - Z.rem position alignment in
    if (0 <=? position) && (0 <? remaining) then
      Done (bin ++ replicate (Z.to_nat remaining) x00)
    else Done bin.

(** What [std::sort] asks of its comparison on the values it sorts. *)
Record strict_weak_ordering {T : Type} (comp : T → T → bool) (l : list T) : Prop := {
  swo_irrefl : ∀ a, a ∈ l → comp a a = false;
  swo_trans : ∀ a b c, a ∈ l → b ∈ l → c ∈ l →
    comp a b = true → comp b c = true → comp a c = true;
  swo_incomparable : ∀ a b c, a ∈ l → b ∈ l → c ∈ l →
    comp a b = false → comp b c = false → comp a c = false
}.

(** A range is sorted with respect to [comp] when no element is ordered
    before one that precedes it. *)
Definition sorted_wrt {T : Type} (comp : T → T → bool) (l : list T) : Prop :=
  ∀ (i j : nat) (a b : T), (i < j)%nat → l !! i = Some a → l !! j = Some b →
    comp b a = false.

(** [std::sort], with what the standard promises of it: the result holds
    the same values and is sorted. The order of equivalent values is not
    promised. *)
Class StdSort : Type := {
  std_sort : ∀ {T : Type}, (T → T → bool) → list T → list T;
  std_sort_Permutation : ∀ {T : Type} (comp : T → T → bool) (l : list T),
    strict_weak_ordering comp l → Permutation (std_sort comp l) l;
  std_sort_sorted : ∀ {T : Type} (comp : T → T → bool) (l : list T),
    strict_weak_ordering comp l → sorted_wrt comp (std_sort comp l)
}.

(** The closure [[vec, compare](i, j) { return compare(vec[i], vec[j]); }].
    [std::sort] calls it on elements of [p] only, all below [vec.size()]. *)
Definition compare_at {T : Type} (vec : list T) (compare : T → T → bool)
    (i j : nat) : bool :=
  match vec !! i, vec !! j with
  | Some a, Some b => compare a b
  | _, _ => false
  end.

(** [sort_permutation]. *)
Definition sort_permutation {sorter : StdSort} {T : Type} (vec : list T)
    (compare : T → T → bool) : list nat :=
  let p := seq 0 (length vec) in
  std_sort (compare_at vec compare) p.

(** [std::swap(vec[a], vec[b])]. *)
Definition swap {T : Type} (vec : list T) (a b : nat) : outcome (list T) :=
  va ← vector_at vec a;
  vb ← vector_at vec b;
  Done (<[b:=va]> (<[a:=vb]> vec)).

(** The [while (i != j)] loop of [apply_permutation_in_place]. *)
Fixpoint follow_cycle {T : Type} (fuel : nat) (p : list nat) (i prev_j j : nat)
    (vec : list T) (done : list bool) : outcome (list T * list bool) :=
  match fuel with
  | O => OutOfFuel
  | S fuel' =>
      if decide (i = j) then Done (vec, done)
      else
        vec' ← swap vec prev_j j;
        done' ← vector_set done j true;
        j' ← vector_at p j;
        follow_cycle fuel' p i j j' vec' done'
  end.

(** The body of its [for] loop. *)
Definition apply_permutation_body {T : Type} (fuel : nat) (p : list nat)
    (i : nat) (s : list T * list bool) : outcome (list T * list bool) :=
  let '(vec, done) := s in
  d ← vector_at done i;
  if d : bool then Done (vec, done)
  else
    done' ← vector_set done i true;
    j ← vector_at p i;
    follow_cycle fuel p i i j vec done'.

(** [apply_permutation_in_place]. *)
Definition apply_permutation_in_place {T : Type} (fuel : nat) (vec : list T)
    (p : list nat) : outcome (list T) :=
  let done := replicate (length vec) false in
  '(vec', _) ← for_each (seq 0 (length vec)) (apply_permutation_body fuel p)
                 (vec, done);
  Done vec'.

(** The writers of binary.hpp: each appends the encoding of its argument to
    the stream. *)
Class BinaryWriter : Type := {
  WriteString : string → list byte;
  WriteStringVersion : string → Z → list byte;
  WriteLengthPrefixedString : string → list byte;
  WriteShort : Z → list byte;
  WriteByte : Z → list byte
}.

(** ** Packer::Pack *)

Module Packer.

Record t : Type := mk {
  width : Z;
  height : Z;
  pad : Z;
  bitmaps : list Bitmap.t;
  points : list Point.t;
  dupLookup : gmap N Z
}.

(** [Packer::Packer(int width, int height, int pad)]. *)
Definition Packer (width height pad : Z) : t :=
  mk width height pad [] [] ∅.

(** The locals of [Pack] that live across iterations, together with the
    object itself and the lines written to [cout] (the size printed and
    the name). *)
Record locals (B : Type) : Type := mkLocals {
  packer : B;
  self : t;
  ww : Z;
  hh : Z;
  cout : list (nat * string)
}.
Arguments mkLocals {B}.
Arguments packer {B}.
Arguments self {B}.
Arguments ww {B}.
Arguments hh {B}.
Arguments cout {B}.

(** How an iteration of the [while] loop ends: [continue] or falling off
    the end of the body (the item was popped), or [break]. *)
Inductive control (B : Type) : Type :=
| Popped (st : locals B)
| Break (st : locals B).
Arguments Popped {B}.
Arguments Break {B}.

Section Pack.
Context {B : Type} {bin : RectangleBin B} {equals : BitmapEquals}.
Variables (verbose unique rotate : bool).

(** Lines 71-94: the item is packed into the atlas. *)
Definition Pack_insert (st : locals B) (bitmap : Bitmap.t) : control B :=
  let this := self st in
  let '(rect, packer') :=
    Insert (packer st) (Bitmap.width bitmap + pad this)
           (Bitmap.height bitmap + pad this) rotate RectBestShortSideFit in
  if (Rect.width rect =? 0) || (Rect.height rect =? 0) then
    Break (mkLocals packer' this (ww st) (hh st) (cout st))
  else
    let dupLookup' :=
      if unique then
        <[Bitmap.hashValue bitmap :=
            static_cast_int (Z.of_nat (length (points this)))]>
          (dupLookup this)
      else dupLookup this in
    let p := Point.mk (Rect.x rect) (Rect.y rect) (-1)
               (rotate && negb (Bitmap.width bitmap =? Rect.width rect - pad this)) in
    let this' := mk (width this) (height this) (pad this)
                    (bitmaps this ++ [bitmap]) (points this ++ [p]) dupLookup' in
    Popped (mkLocals packer' this'
              (Z.max (Rect.x rect + Rect.width rect) (ww st))
              (Z.max (Rect.y rect + Rect.height rect) (hh st))
              (cout st)).

(** Lines 57-69: the item duplicates the record at [second]. *)
Definition Pack_duplicate (st : locals B) (bitmap : Bitmap.t) (second : Z)
  : outcome (control B) :=
  let this := self st in
  p ← vector_at (points this) (index_of_int second);
  let p' := Point.mk (Point.x p) (Point.y p) second (Point.rot p) in
  let this' := mk (width this) (height this) (pad this)
                  (bitmaps this ++ [bitmap]) (points this ++ [p'])
                  (dupLookup this) in
  Done (Popped (mkLocals (packer st) this' (ww st) (hh st) (cout st))).

(** Lines 53-54. *)
Definition Pack_verbose (st : locals B) (size : nat) (bitmap : Bitmap.t)
  : locals B :=
  if verbose then
    mkLocals (packer st) (self st) (ww st) (hh st)
             (cout st ++ [(size, Bitmap.name bitmap)])
  else st.

(** Lines 57-60: the index of the record that the item duplicates, if
    it duplicates one. *)
Definition find_duplicate (this : t) (bitmap : Bitmap.t)
  : outcome (option Z) :=
  if unique then
    match dupLookup this !! Bitmap.hashValue bitmap with
    | Some second =>
        other ← vector_at (bitmaps this) (index_of_int second);
        Done (if Equals bitmap other then Some second else None)
    | None => Done None
    end
  else Done None.

(** The body of the [while] loop for the item at the back of the input,
    [size] being [bitmaps.size()] before the item is popped. *)
Definition Pack_body (st : locals B) (size : nat) (bitmap : Bitmap.t)
  : outcome (control B) :=
  let st := Pack_verbose st size bitmap in
  di ← find_duplicate (self st) bitmap;
  match di with
  | Some second => Pack_duplicate st bitmap second
  | None => Done (Pack_insert st bitmap)
  end.

(** The [while (!bitmaps.empty())] loop. The input vector is held as a
    stack: its back is the head of [stack]. The items left in the input
    are returned with the locals. *)
Fixpoint Pack_loop (st : locals B) (stack : list Bitmap.t)
  : outcome (locals B * list Bitmap.t) :=
  match stack with
  | [] => Done (st, [])
  | bitmap :: rest =>
      c ← Pack_body st (length stack) bitmap;
      match c with
      | Popped st' => Pack_loop st' rest
      | Break st' => Done (st', stack)
      end
  end.

(** [while (width / 2 >= ww) width /= 2;] ([/] truncates). *)
Fixpoint halve_while (fuel : nat) (width ww : Z) : outcome Z :=
  match fuel with
  | O => OutOfFuel
  | S fuel' =>
      if ww <=? Z.quot width 2 then halve_while fuel' (Z.quot width 2) ww
      else Done width
  end.

(** Lines 45-95: the bin is constructed and the loop is run. *)
Definition Pack_placement (this : t) (bitmaps : list Bitmap.t)
  : outcome (locals B * list Bitmap.t) :=
  let packer := MaxRectsBinPack (width this) (height this) in
  Pack_loop (mkLocals packer this 0 0 []) (rev bitmaps).

(** [Packer::Pack]. The result is the object, the input vector as the
    call leaves it, and the lines written to [cout]. *)
Definition Pack (fuel : nat) (this : t) (bitmaps : list Bitmap.t)
  : outcome (t * list Bitmap.t * list (nat * string)) :=
  '(st, rest) ← Pack_placement this bitmaps;
  let this := self st in
  width' ← halve_while fuel (width this) (ww st);
  height' ← halve_while fuel (height this) (hh st);
  Done (mk width' height' (pad this) (Packer.bitmaps this) (points this)
           (dupLookup this),
        rev rest, cout st).
End Pack.

(** ** Packer::SavePng *)

(** The calls made on the canvas [Bitmap bitmap(width, height)]. *)
Inductive blit : Type :=
| CopyPixels (src : Bitmap.t) (tx ty : Z)
| CopyPixelsRot (src : Bitmap.t) (tx ty : Z).

(** [Packer::SavePng]: the object, and the canvas saved: its size, the
    calls made on it in order, and the file it is saved as. *)
Definition SavePng (this : t) (file : string)
  : outcome (t * (Z * Z * list blit * string)) :=
  blits ← for_each (seq 0 (length (bitmaps this)))
             (λ i blits,
                point ← vector_at (points this) i;
                if Point.dupID point <? 0 then
                  bitmap ← vector_at (bitmaps this) i;
                  if Point.rot point then
                    Done (blits ++ [CopyPixelsRot bitmap (Point.x point)
                                      (Point.y point)])
                  else
                    Done (blits ++ [CopyPixels bitmap (Point.x point)
                                      (Point.y point)])
                else Done blits)
             [];
  Done (this, (width this, height this, blits, file)).

(** ** Packer::SaveXml *)

(** Lines 124-138: one [img] element. *)
Definition SaveXml_img (trim rotate : bool) (bitmap : Bitmap.t)
    (point : Point.t) : string :=
  (tab ++ tab ++ "<img n=" ++ quote ++ Bitmap.name bitmap ++ quote ++ " "
   ++ "x=" ++ quote ++ show_int (Point.x point) ++ quote ++ " "
   ++ "y=" ++ quote ++ show_int (Point.y point) ++ quote ++ " "
   ++ "w=" ++ quote ++ show_int (Bitmap.width bitmap) ++ quote ++ " "
   ++ "h=" ++ quote ++ show_int (Bitmap.height bitmap) ++ quote ++ " "
   ++ (if trim then
         "fx=" ++ quote ++ show_int (Bitmap.frameX bitmap) ++ quote ++ " "
         ++ "fy=" ++ quote ++ show_int (Bitmap.frameY bitmap) ++ quote ++ " "
         ++ "fw=" ++ quote ++ show_int (Bitmap.frameW bitmap) ++ quote ++ " "
         ++ "fh=" ++ quote ++ show_int (Bitmap.frameH bitmap) ++ quote ++ " "
       else EmptyString)
   ++ (if rotate then
         "r=" ++ quote ++ show_int (if Point.rot point then 1 else 0)
         ++ quote ++ " "
       else EmptyString)
   ++ "/>" ++ endl)%string.

(** [Packer::SaveXml]: the object and the stream afterwards. *)
Definition SaveXml (this : t) (name : string) (xml : string)
    (trim rotate : bool) : outcome (t * string) :=
  let xml := (xml ++ tab ++ "<tex n=" ++ quote ++ name ++ quote ++ ">"
              ++ endl)%string in
  xml ← for_each (seq 0 (length (bitmaps this)))
           (λ i xml,
              bitmap ← vector_at (bitmaps this) i;
              point ← vector_at (points this) i;
              Done (xml ++ SaveXml_img trim rotate bitmap point)%string)
           xml;
  Done (this, (xml ++ tab ++ "</tex>" ++ endl)%string).

(** ** Packer::SaveBin *)

(** The comparison handed to [sort_permutation]:
    [a->name.compare(b->name) < 0]. *)
Definition name_less (a b : Bitmap.t) : bool :=
  match String.compare (Bitmap.name a) (Bitmap.name b) with
  | Lt => true
  | _ => false
  end.

(** The left side of the test of line 161, computed in [size_t]. *)
Definition footprint (bitmap : Bitmap.t) (trim rotate : bool) : Z :=
  to_size_t (2 + Z.of_nat (String.length (Bitmap.name bitmap)) + 8
             + (if trim then 8 else 0) + (if rotate then 1 else 0)).

Definition skipping : string :=
  "Skipping file in binary output (name too long, try specifying bigger --balign): ".

Section SaveBin.
Context {sorter : StdSort} {writer : BinaryWriter}.

(** Lines 145-150: both sequences are reordered by the permutation that
    sorts the names. *)
Definition SaveBin_sort (fuel : nat) (this : t) : outcome t :=
  let p := sort_permutation (bitmaps this) name_less in
  bitmaps' ← apply_permutation_in_place fuel (bitmaps this) p;
  points' ← apply_permutation_in_place fuel (points this) p;
  Done (mk (width this) (height this) (pad this) bitmaps' points'
           (dupLookup this)).

(** Lines 160-189: one record. The state is the stream and the lines
    written to [cerr]. *)
Definition SaveBin_record (trim rotate : bool) (version alignment : Z)
    (bitmap : Bitmap.t) (point : Point.t) (s : list byte * list string)
  : outcome (list byte * list string) :=
  let '(bin, cerr) := s in
  if (0 <=? version) && (to_size_t alignment <? footprint bitmap trim rotate) then
    Done (bin, cerr ++ [(skipping ++ Bitmap.name bitmap)%string])
  else
    let bin := if version =? -1 then bin ++ WriteString (Bitmap.name bitmap)
               else bin in
    let bin := bin ++ WriteShort (static_cast_int16_t (Point.x point)) in
    let bin := bin ++ WriteShort (static_cast_int16_t (Point.y point)) in
    let bin := bin ++ WriteShort (static_cast_int16_t (Bitmap.width bitmap)) in
    let bin := bin ++ WriteShort (static_cast_int16_t (Bitmap.height bitmap)) in
    let bin :=
      if trim then
        bin ++ WriteShort (static_cast_int16_t (Bitmap.frameX bitmap))
            ++ WriteShort (static_cast_int16_t (Bitmap.frameY bitmap))
            ++ WriteShort (static_cast_int16_t (Bitmap.frameW bitmap))
            ++ WriteShort (static_cast_int16_t (Bitmap.frameH bitmap))
      else bin in
    let bin :=
      if rotate then bin ++ WriteByte (if Point.rot point then 1 else 0)
      else bin in
    if 0 <=? version then
      bin' ← alignStream (bin ++ WriteLengthPrefixedString (Bitmap.name bitmap))
                         alignment;
      Done (bin', cerr)
    else Done (bin, cerr).

(** Lines 158-190: the loop over the records. *)
Definition SaveBin_records (trim rotate : bool) (version alignment : Z)
    (bitmaps : list Bitmap.t) (points : list Point.t)
    (s : list byte * list string) : outcome (list byte * list string) :=
  for_each (seq 0 (length bitmaps))
    (λ i s,
       bitmap ← vector_at bitmaps i;
       point ← vector_at points i;
       SaveBin_record trim rotate version alignment bitmap point s)
    s.

(** Lines 152-156: the header. *)
Definition SaveBin_header (this : t) (name : string) (bin : list byte)
    (version alignment : Z) : outcome (list byte) :=
  let bin := bin ++ WriteStringVersion name version in
  let bin := bin ++ WriteShort (static_cast_int16_t (Z.of_nat (length (bitmaps this)))) in
  if 0 <=? version then alignStream bin alignment else Done bin.

(** [Packer::SaveBin]: the object, the stream and [cerr] afterwards. *)
Definition SaveBin (fuel : nat) (this : t) (name : string) (bin : list byte)
    (trim rotate : bool) (version alignment : Z)
  : outcome (t * list byte * list string) :=
  this ← SaveBin_sort fuel this;
  bin ← SaveBin_header this name bin version alignment;
  '(bin, cerr) ← SaveBin_records trim rotate version alignment
                   (bitmaps this) (points this) (bin, []);
  Done (this, bin, cerr).
End SaveBin.

(** ** Packer::SaveJson *)

(** Lines 199-217: one element of the array; [last] says that no comma
    follows. *)
Definition SaveJson_image (trim rotate : bool) (bitmap : Bitmap.t)
    (point : Point.t) (last : bool) : string :=
  (tab ++ tab ++ tab ++ tab ++ "{ "
   ++ quote ++ "n" ++ quote ++ ":" ++ quote ++ Bitmap.name bitmap ++ quote
   ++ ", "
   ++ quote ++ "x" ++ quote ++ ":" ++ show_int (Point.x point) ++ ", "
   ++ quote ++ "y" ++ quote ++ ":" ++ show_int (Point.y point) ++ ", "
   ++ quote ++ "w" ++ quote ++ ":" ++ show_int (Bitmap.width bitmap) ++ ", "
   ++ quote ++ "h" ++ quote ++ ":" ++ show_int (Bitmap.height bitmap)
   ++ (if trim then
         ", " ++ quote ++ "fx" ++ quote ++ ":"
         ++ show_int (Bitmap.frameX bitmap) ++ ", "
         ++ quote ++ "fy" ++ quote ++ ":"
         ++ show_int (Bitmap.frameY bitmap) ++ ", "
         ++ quote ++ "fw" ++ quote ++ ":"
         ++ show_int (Bitmap.frameW bitmap) ++ ", "
         ++ quote ++ "fh" ++ quote ++ ":"
         ++ show_int (Bitmap.frameH bitmap)
       else EmptyString)
   ++ (if rotate then
         ", " ++ quote ++ "r" ++ quote ++ ":"
         ++ (if Point.rot point then "true" else "false")
       else EmptyString)
   ++ " }"
   ++ (if last then EmptyString else ",")
   ++ endl)%string.

(** [Packer::SaveJson]: the object and the stream afterwards. *)
Definition SaveJson (this : t) (name : string) (json : string)
    (trim rotate : bool) : outcome (t * string) :=
  let json := (json ++ tab ++ tab ++ tab ++ quote ++ "name" ++ quote ++ ":"
               ++ quote ++ name ++ quote ++ "," ++ endl)%string in
  let json := (json ++ tab ++ tab ++ tab ++ quote ++ "images" ++ quote
               ++ ":[" ++ endl)%string in
  json ← for_each (seq 0 (length (bitmaps this)))
            (λ i json,
               bitmap ← vector_at (bitmaps this) i;
               point ← vector_at (points this) i;
               Done (json ++ SaveJson_image trim rotate bitmap point
                              (bool_decide (S i = length (bitmaps this))))%string)
            json;
  Done (this, (json ++ tab ++ tab ++ tab ++ "]" ++ endl)%string).

End Packer.

(** ** Collaborators used to run the model *)

(** Modelled from the spec: [Bitmap::Equals] (bitmap.cpp is not among the
    sources) holds when the full pixel content is equal. *)
Definition pixel_Equals : BitmapEquals := λ a b,
  bool_decide (Bitmap.width a = Bitmap.width b
               ∧ Bitmap.height a = Bitmap.height b
               ∧ Bitmap.data a = Bitmap.data b).

(** A rectangle bin that fills one row from the left: the canvas and the
    width used so far. *)
Record RowBin : Type := mkRowBin { binWidth : Z; binHeight : Z; used : nat }.

Definition RowBin_Insert (b : RowBin) (w h : Z) (rotate : bool)
    (method : FreeRectChoiceHeuristic) : Rect.t * RowBin :=
  if (0 <? w) && (0 <? h) && (Z.of_nat (used b) + w <=? binWidth b)
     && (h <=? binHeight b)
  then (Rect.mk (Z.of_nat (used b)) 0 w h,
        mkRowBin (binWidth b) (binHeight b) (Z.to_nat (Z.of_nat (used b) + w)))
  else (Rect.mk 0 0 0 0, b).

Definition RowBin_RectangleBin : RectangleBin RowBin :=
  {| MaxRectsBinPack := λ w h, mkRowBin w h 0; Insert := RowBin_Insert |}.

(** Any bin, made to keep the list of the requests made of it. *)
Definition Traced_RectangleBin {B : Type} (bin : RectangleBin B)
  : RectangleBin (B * list (Z * Z * bool)) :=
  {| MaxRectsBinPack := λ w h, (MaxRectsBinPack w h, []);
     Insert := λ b w h rotate method,
       let '(rect, packer') := Insert b.1 w h rotate method in
       (rect, (packer', b.2 ++ [(w, h, rotate)])) |}.

(** What the packer relies on in a rectangle bin: it keeps the canvas it
    was constructed with, and every rectangle it returns has sides that are
    not negative and lies on that canvas. *)
Class RectangleBinLaws (B : Type) {bin : RectangleBin B} : Type := {
  canvas : B → Z * Z;
  canvas_MaxRectsBinPack : ∀ w h, canvas (MaxRectsBinPack w h) = (w, h);
  canvas_Insert : ∀ b w h rotate method,
    canvas (Insert b w h rotate method).2 = canvas b;
  Insert_on_canvas : ∀ b w h rotate method,
    0 ≤ (canvas b).1 → 0 ≤ (canvas b).2 →
    let rect := (Insert b w h rotate method).1 in
    0 ≤ Rect.x rect ∧ 0 ≤ Rect.y rect
    ∧ 0 ≤ Rect.width rect ∧ 0 ≤ Rect.height rect
    ∧ Rect.x rect + Rect.width rect ≤ (canvas b).1
    ∧ Rect.y rect + Rect.height rect ≤ (canvas b).2
}.

(** Insertion sorting in which a value goes past the values that compare
    less than it and no further: it comes to stand ahead of the values
    equivalent to it that followed it, so values that are equivalent keep
    the order they had. *)
Fixpoint insert_ahead {T : Type} (comp : T → T → bool) (a : T) (l : list T)
  : list T :=
  match l with
  | [] => [a]
  | b :: l' => if comp b a then b :: insert_ahead comp a l' else a :: l
  end.

Definition insertion_sort {T : Type} (comp : T → T → bool) (l : list T)
  : list T :=
  foldr (insert_ahead comp) [] l.


(** Modelled from the spec: the writers of binary.hpp (not among the
    sources). Numeric fields are 2-byte integers, the rotation flag is a
    single byte, and a length-prefixed string is its length as a 2-byte
    integer followed by its bytes. *)
Definition byte_of_Z (v : Z) : byte :=
  default x00 (Byte.of_N (Z.to_N (v mod 256))).

Definition short_bytes (v : Z) : list byte :=
  [byte_of_Z v; byte_of_Z (v / 256)].

Definition plain_BinaryWriter : BinaryWriter :=
  {| WriteString := λ s, list_byte_of_string s ++ [x00];
     WriteStringVersion := λ s version,
       if version =? -1 then list_byte_of_string s ++ [x00]
       else short_bytes (Z.of_nat (String.length s)) ++ list_byte_of_string s;
     WriteLengthPrefixedString := λ s,
       short_bytes (Z.of_nat (String.length s)) ++ list_byte_of_string s;
     WriteShort := short_bytes;
     WriteByte := λ v, [byte_of_Z v] |}.

(** Bitmaps to run the model on: [a] and [b] have the same pixels, [c] has
    others, and [a'] has the hash of [a] but not its pixels. *)
Definition bitmap_a : Bitmap.t :=
  Bitmap.mk "a" 10 10 7 0 0 10 10 (replicate 100 5%N).
Definition bitmap_b : Bitmap.t :=
  Bitmap.mk "b" 10 10 7 0 0 10 10 (replicate 100 5%N).
Definition bitmap_c : Bitmap.t :=
  Bitmap.mk "c" 20 5 9 0 0 20 5 (replicate 100 8%N).
Definition bitmap_a' : Bitmap.t :=
  Bitmap.mk "a'" 10 10 7 0 0 10 10 (replicate 100 6%N).

(** The scenario of three bitmaps on a canvas of 64 by 64, and the state
    the row bin leaves it in: [a] and [c] are placed, [b] duplicates [a]. *)
Definition scenario_packer : Packer.t := Packer.Packer 64 64 0.
Definition scenario_input : list Bitmap.t := [bitmap_c; bitmap_b; bitmap_a].
Definition scenario_points : list Point.t :=
  [Point.mk 0 0 (-1) false; Point.mk 0 0 0 false; Point.mk 10 0 (-1) false].
Definition scenario_lookup : gmap N Z := <[9%N:=2]> (<[7%N:=0]> ∅).
Definition scenario_locals : Packer.locals RowBin :=
  Packer.mkLocals (mkRowBin 64 64 30)
    (Packer.mk 64 64 0 [bitmap_a; bitmap_b; bitmap_c] scenario_points
       scenario_lookup)
    30 10 [].
Definition scenario_packed : Packer.t :=
  Packer.mk 32 16 0 [bitmap_a; bitmap_b; bitmap_c] scenario_points
    scenario_lookup.

(** The locals at the head of the loop of [Pack] on the row bin. *)
Definition first_locals (this : Packer.t) : Packer.locals RowBin :=
  Packer.mkLocals (mkRowBin (Packer.width this) (Packer.height this) 0)
    this 0 0 [].

(** A canvas of 16 by 16 with a padding of 1, after [a] was placed: the
    row has no room for another bitmap of 10 by 10. *)
Definition full_locals : Packer.locals RowBin :=
  Packer.mkLocals (mkRowBin 16 16 11)
    (Packer.mk 16 16 1 [bitmap_a] [Point.mk 0 0 (-1) false] ∅)
    11 11 [].

(** The scenario after [b] alone was placed, and after [a'] and [a] were
    placed then. *)
Definition collision_locals_1 : Packer.locals RowBin :=
  Packer.mkLocals (mkRowBin 64 64 10)
    (Packer.mk 64 64 0 [bitmap_b] [Point.mk 0 0 (-1) false] (<[7%N:=0]> ∅))
    10 10 [].
Definition collision_locals_3 : Packer.locals RowBin :=
  Packer.mkLocals (mkRowBin 64 64 30)
    (Packer.mk 64 64 0 [bitmap_b; bitmap_a'; bitmap_a]
       [Point.mk 0 0 (-1) false; Point.mk 10 0 (-1) false;
        Point.mk 20 0 (-1) false]
       (<[7%N:=2]> ∅))
    30 10 [].

(** The scenario after [a] was placed, and after [b] followed. *)
Definition duplicate_locals_1 : Packer.locals RowBin :=
  Packer.mkLocals (mkRowBin 64 64 10)
    (Packer.mk 64 64 0 [bitmap_a] [Point.mk 0 0 (-1) false] (<[7%N:=0]> ∅))
    10 10 [].
Definition duplicate_locals_2 : Packer.locals RowBin :=
  Packer.mkLocals (mkRowBin 64 64 10)
    (Packer.mk 64 64 0 [bitmap_a; bitmap_b]
       [Point.mk 0 0 (-1) false; Point.mk 0 0 0 false] (<[7%N:=0]> ∅))
    10 10 [].

(** ** Predicates of the statements *)

(** The object between calls: the two sequences have one length, and the
    duplicate table holds indices of records. *)
Definition well_formed (this : Packer.t) : Prop :=
  length (Packer.bitmaps this) = length (Packer.points this)
  ∧ ∀ h v, Packer.dupLookup this !! h = Some v →
      0 ≤ v < Z.of_nat (length (Packer.points this)).

(** The records of the object and of the input can be counted in an [int]. *)
Definition countable_in_int (this : Packer.t) (input : list Bitmap.t) : Prop :=
  Z.of_nat (length (Packer.points this) + length input) < 2147483648.

(** [width] after [k] halvings. *)
Definition halved (k : nat) (width : Z) : Z :=
  Nat.iter k (λ w, Z.quot w 2) width.

(** [final] is the smallest of the halvings of [initial] that is not below
    [bound], and its half is below [bound]. *)
Definition smallest_halving (initial bound final : Z) : Prop :=
  (∃ k, final = halved k initial)
  ∧ bound ≤ final
  ∧ (∀ k, bound ≤ halved k initial → final ≤ halved k initial)
  ∧ Z.quot final 2 < bound.

(** At least one record appended since the object had [old] records is a
    placement of its own ([dupID] is -1). *)
Definition placed_since {B : Type} (old : nat) (st : Packer.locals B) : Prop :=
  ∃ i p, (old ≤ i)%nat ∧ Packer.points (Packer.self st) !! i = Some p
         ∧ Point.dupID p = -1.

(** The three ways an iteration of the loop of [Pack] can go, with the
    state each leaves: the item duplicates a record, the bin is exhausted,
    or the item is placed. *)
Inductive iteration {B : Type} {bin : RectangleBin B} {equals : BitmapEquals}
    (verbose unique rotate : bool) (st : Packer.locals B) (size : nat)
    (bitmap : Bitmap.t) : Packer.control B → Prop :=
| iteration_duplicate (second : Z) (other : Bitmap.t) (p : Point.t) :
    unique = true →
    Packer.dupLookup (Packer.self st) !! Bitmap.hashValue bitmap = Some second →
    Packer.bitmaps (Packer.self st) !! index_of_int second = Some other →
    Equals bitmap other = true →
    Packer.points (Packer.self st) !! index_of_int second = Some p →
    iteration verbose unique rotate st size bitmap
      (Packer.Popped
         (Packer.mkLocals (Packer.packer st)
            (Packer.mk (Packer.width (Packer.self st))
               (Packer.height (Packer.self st)) (Packer.pad (Packer.self st))
               (Packer.bitmaps (Packer.self st) ++ [bitmap])
               (Packer.points (Packer.self st)
                  ++ [Point.mk (Point.x p) (Point.y p) second (Point.rot p)])
               (Packer.dupLookup (Packer.self st)))
            (Packer.ww st) (Packer.hh st)
            (Packer.cout (Packer.Pack_verbose verbose st size bitmap))))
| iteration_exhausted (rect : Rect.t) (packer' : B) :
    Packer.find_duplicate unique (Packer.self st) bitmap = Done None →
    Insert (Packer.packer st)
      (Bitmap.width bitmap + Packer.pad (Packer.self st))
      (Bitmap.height bitmap + Packer.pad (Packer.self st))
      rotate RectBestShortSideFit = (rect, packer') →
    Rect.width rect = 0 ∨ Rect.height rect = 0 →
    iteration verbose unique rotate st size bitmap
      (Packer.Break
         (Packer.mkLocals packer' (Packer.self st) (Packer.ww st) (Packer.hh st)
            (Packer.cout (Packer.Pack_verbose verbose st size bitmap))))
| iteration_placed (rect : Rect.t) (packer' : B) :
    Packer.find_duplicate unique (Packer.self st) bitmap = Done None →
    Insert (Packer.packer st)
      (Bitmap.width bitmap + Packer.pad (Packer.self st))
      (Bitmap.height bitmap + Packer.pad (Packer.self st))
      rotate RectBestShortSideFit = (rect, packer') →
    Rect.width rect ≠ 0 → Rect.height rect ≠ 0 →
    iteration verbose unique rotate st size bitmap
      (Packer.Popped
         (Packer.mkLocals packer'
            (Packer.mk (Packer.width (Packer.self st))
               (Packer.height (Packer.self st)) (Packer.pad (Packer.self st))
               (Packer.bitmaps (Packer.self st) ++ [bitmap])
               (Packer.points (Packer.self st)
                  ++ [Point.mk (Rect.x rect) (Rect.y rect) (-1)
                        (rotate && negb (Bitmap.width bitmap
                                         =? Rect.width rect
                                            - Packer.pad (Packer.self st)))])
               (if unique then
                  <[Bitmap.hashValue bitmap :=
                      static_cast_int
                        (Z.of_nat (length (Packer.points (Packer.self st))))]>
                    (Packer.dupLookup (Packer.self st))
                else Packer.dupLookup (Packer.self st)))
            (Z.max (Rect.x rect + Rect.width rect) (Packer.ww st))
            (Z.max (Rect.y rect + Rect.height rect) (Packer.hh st))
            (Packer.cout (Packer.Pack_verbose verbose st size bitmap)))).

(** [p] records a placement of [bitmap] of its own: the position of a
    rectangle that the bin returned for the padded bitmap, with the
    rotation flag inferred from its width. *)
Definition placed_by {B : Type} {bin : RectangleBin B} (rotate : bool) (pad : Z)
    (bitmap : Bitmap.t) (p : Point.t) : Prop :=
  Point.dupID p = -1
  ∧ ∃ packer : B,
      let rect := (Insert packer (Bitmap.width bitmap + pad)
                     (Bitmap.height bitmap + pad) rotate RectBestShortSideFit).1 in
      Rect.width rect ≠ 0 ∧ Rect.height rect ≠ 0
      ∧ Point.x p = Rect.x rect ∧ Point.y p = Rect.y rect
      ∧ Point.rot p
        = rotate && negb (Bitmap.width bitmap =? Rect.width rect - pad).

(** [p], at index [i], records [bitmap] as a duplicate: [dupID] is the index
    of an earlier record whose bitmap equals [bitmap], and the position and
    the rotation flag are those of that record. *)
Definition duplicate_of {equals : BitmapEquals} (bitmaps : list Bitmap.t)
    (points : list Point.t) (i : nat) (bitmap : Bitmap.t) (p : Point.t) : Prop :=
  ∃ other q,
    0 ≤ Point.dupID p ∧ (Z.to_nat (Point.dupID p) < i)%nat
    ∧ bitmaps !! Z.to_nat (Point.dupID p) = Some other
    ∧ points !! Z.to_nat (Point.dupID p) = Some q
    ∧ Equals bitmap other = true
    ∧ Point.x p = Point.x q ∧ Point.y p = Point.y q
    ∧ Point.rot p = Point.rot q.

(** [points[i]] is the placement record of [bitmaps[i]]. *)
Definition placement_for {B : Type} {bin : RectangleBin B}
    {equals : BitmapEquals} (rotate : bool) (this : Packer.t) (i : nat)
    (bitmap : Bitmap.t) (p : Point.t) : Prop :=
  placed_by (B := B) rotate (Packer.pad this) bitmap p
  ∨ duplicate_of (Packer.bitmaps this) (Packer.points this) i bitmap p.

(** [vec'] is [vec] reordered by [p]: [vec'[k]] is [vec[p[k]]]. *)
Definition permuted_by {T : Type} (p : list nat) (vec vec' : list T) : Prop :=
  length vec' = length vec ∧ ∀ k j, p !! k = Some j → vec' !! k = vec !! j.

(** The state of [apply_permutation_in_place] between two iterations of its
    [for] loop, [vec0] being the vector it was given: the positions marked
    done are closed under [p] both ways and hold their final values, the
    others hold what they held. *)
Definition settled {T : Type} (p : list nat) (vec0 vec : list T)
    (done : list bool) : Prop :=
  length vec = length vec0 ∧ length done = length vec0
  ∧ (∀ k j, done !! k = Some true → p !! k = Some j → vec !! k = vec0 !! j)
  ∧ (∀ k, done !! k = Some false → vec !! k = vec0 !! k)
  ∧ (∀ k j, done !! k = Some true → p !! k = Some j → done !! j = Some true)
  ∧ (∀ k j, done !! j = Some true → p !! k = Some j → done !! k = Some true).

(** Its state inside the [while] loop that follows the cycle of [i]: the
    value that was at [i] travels along the cycle and is now at [prev_j]. *)
Definition in_cycle {T : Type} (p : list nat) (vec0 : list T)
    (i prev_j j : nat) (vec : list T) (done : list bool) : Prop :=
  length vec = length vec0 ∧ length done = length vec0
  ∧ p !! prev_j = Some j
  ∧ done !! i = Some true ∧ done !! prev_j = Some true
  ∧ (∀ k j', done !! k = Some true → k ≠ prev_j → p !! k = Some j' →
       vec !! k = vec0 !! j')
  ∧ (∀ k, done !! k = Some false → vec !! k = vec0 !! k)
  ∧ vec !! prev_j = vec0 !! i
  ∧ (∀ k j', done !! k = Some true → k ≠ prev_j → p !! k = Some j' →
       done !! j' = Some true)
  ∧ (∀ k j', done !! j' = Some true → j' ≠ i → p !! k = Some j' →
       done !! k = Some true ∧ k ≠ prev_j).

(** The positions not yet marked done. *)
Definition pending (done : list bool) : nat :=
  length (filter (λ b : bool, b = false) done).

(** The byte footprint of a record as the comment of line 160 counts it:
    the length of the name as a short, the name, four shorts, four more when
    trimming, and a byte when rotating. *)
Definition record_size (bitmap : Bitmap.t) (trim rotate : bool) : Z :=
  2 + Z.of_nat (String.length (Bitmap.name bitmap)) + 8
  + (if trim then 8 else 0) + (if rotate then 1 else 0).

(** The record of a bitmap does not fit the alignment. *)
Definition oversized (alignment : Z) (trim rotate : bool)
    (item : Bitmap.t * Point.t) : Prop :=
  alignment < record_size item.1 trim rotate.

#[export] Instance oversized_dec (alignment : Z) (trim rotate : bool)
    (item : Bitmap.t * Point.t) : Decision (oversized alignment trim rotate item) :=
  Z_lt_dec alignment (record_size item.1 trim rotate).

(** The line written to [cerr] for a bitmap that is skipped. *)
Definition diagnostic (item : Bitmap.t * Point.t) : string :=
  (Packer.skipping ++ Bitmap.name item.1)%string.

(** A bitmap whose record takes 20 bytes. *)
Definition bitmap_hero : Bitmap.t :=
  Bitmap.mk "hero_idle1" 10 10 3 0 0 10 10 (replicate 100 2%N).

(** A bitmap whose record takes 16 bytes. *)
Definition bitmap_sprite : Bitmap.t :=
  Bitmap.mk "sprite" 10 10 4 0 0 10 10 (replicate 100 3%N).

(** Two records. *)
Definition point_0 : Point.t := Point.mk 0 0 (-1) false.
Definition point_1 : Point.t := Point.mk 10 0 (-1) false.

(** An object with a bitmap whose record takes 20 bytes and one whose
    record takes 11. *)
Definition hero_packer : Packer.t :=
  Packer.mk 64 64 0 [bitmap_hero; bitmap_a] [point_0; point_1] ∅.

(** An object to sort: two bitmaps of different names. *)
Definition two_packer : Packer.t :=
  Packer.mk 64 64 0 [bitmap_c; bitmap_a] [point_1; point_0] ∅.

(** ** Predicates of the properties of a whole run *)

(** The duplicate table and the records name placements only: a hash is
    mapped to the index of a record of its own ([dupID] is -1) whose bitmap
    has that hash, and a record that is a duplicate names an earlier record
    of its own whose bitmap has the hash of the duplicate. *)
Definition canonical (this : Packer.t) : Prop :=
  (∀ h v, Packer.dupLookup this !! h = Some v →
     ∃ b p, Packer.bitmaps this !! Z.to_nat v = Some b
            ∧ Packer.points this !! Z.to_nat v = Some p
            ∧ Bitmap.hashValue b = h ∧ Point.dupID p = -1)
  ∧ (∀ i b p, Packer.bitmaps this !! i = Some b →
       Packer.points this !! i = Some p → Point.dupID p ≠ -1 →
       0 ≤ Point.dupID p ∧ (Z.to_nat (Point.dupID p) < i)%nat
       ∧ ∃ b' q, Packer.bitmaps this !! Z.to_nat (Point.dupID p) = Some b'
                 ∧ Packer.points this !! Z.to_nat (Point.dupID p) = Some q
                 ∧ Bitmap.hashValue b' = Bitmap.hashValue b
                 ∧ Point.dupID q = -1).

(** The lines of [cout] for the items of an input vector, in the order of
    the vector: the size of the vector when the item is at its back, and
    the name of the item. *)
Definition announced (input : list Bitmap.t) : list (nat * string) :=
  imap (λ i bitmap, (S i, Bitmap.name bitmap)) input.

(** What [Pack] asks of the bin for a bitmap: its size with the padding
    added to each dimension, and the [rotate] flag. *)
Definition request (pad : Z) (rotate : bool) (bitmap : Bitmap.t)
  : Z * Z * bool :=
  (Bitmap.width bitmap + pad, Bitmap.height bitmap + pad, rotate).

(** The bitmaps of the records from index [old] on that are placements of
    their own. *)
Definition placed_bitmaps (old : nat) (this : Packer.t) : list Bitmap.t :=
  (filter (λ item : Bitmap.t * Point.t, Point.dupID item.2 = -1)
     (drop old (zip (Packer.bitmaps this) (Packer.points this)))).*1.

(** The item at the head of what is left of the input stack, if any: the
    item that the bin refused. *)
Definition refused (rest : list Bitmap.t) : list Bitmap.t := take 1 rest.

(** ** Predicates of the properties of the emitters *)

(** The call that [SavePng] makes on the canvas for a bitmap and its
    record, if it makes one. *)
Definition drawn (item : Bitmap.t * Point.t) : option Packer.blit :=
  if Point.dupID item.2 <? 0 then
    Some (if Point.rot item.2
          then Packer.CopyPixelsRot item.1 (Point.x item.2) (Point.y item.2)
          else Packer.CopyPixels item.1 (Point.x item.2) (Point.y item.2))
  else None.

(** The text of pieces written one after another. *)
Definition written (pieces : list string) : string :=
  foldr String.append EmptyString pieces.

(** The elements of the array of [SaveJson] for a sequence of bitmaps and
    records: each is followed by a comma, but for the last. *)
Fixpoint images (trim rotate : bool) (items : list (Bitmap.t * Point.t))
  : string :=
  match items with
  | [] => EmptyString
  | item :: rest =>
      (Packer.SaveJson_image trim rotate item.1 item.2
         (bool_decide (rest = []))
       ++ images trim rotate rest)%string
  end.

(** An object with a bitmap and no record for it. *)
Definition torn_packer : Packer.t :=
  Packer.mk 64 64 0 [bitmap_a; bitmap_c] [point_0] ∅.

(** ** Predicates of the properties of the binary encoder *)

(** The bytes of the record of a bitmap, before any padding: the name when
    the version is -1, the position, the size, the frame when trimming, the
    rotation flag when rotating, and the name with its length when the
    version is not negative. *)
Definition record_bytes {writer : BinaryWriter} (trim rotate : bool)
    (version : Z) (item : Bitmap.t * Point.t) : list byte :=
  (if version =? -1 then WriteString (Bitmap.name item.1) else [])
  ++ WriteShort (static_cast_int16_t (Point.x item.2))
  ++ WriteShort (static_cast_int16_t (Point.y item.2))
  ++ WriteShort (static_cast_int16_t (Bitmap.width item.1))
  ++ WriteShort (static_cast_int16_t (Bitmap.height item.1))
  ++ (if trim then
        WriteShort (static_cast_int16_t (Bitmap.frameX item.1))
        ++ WriteShort (static_cast_int16_t (Bitmap.frameY item.1))
        ++ WriteShort (static_cast_int16_t (Bitmap.frameW item.1))
        ++ WriteShort (static_cast_int16_t (Bitmap.frameH item.1))
      else [])
  ++ (if rotate then WriteByte (if Point.rot item.2 then 1 else 0) else [])
  ++ (if 0 <=? version then WriteLengthPrefixedString (Bitmap.name item.1)
      else []).

(** The bytes of the header, before any padding: the name of the atlas and
    the number of bitmaps as a short. *)
Definition header_bytes {writer : BinaryWriter} (name : string) (version : Z)
    (count : nat) : list byte :=
  WriteStringVersion name version
  ++ WriteShort (static_cast_int16_t (Z.of_nat count)).

(** The test of line 161: the record of the bitmap is skipped. *)
Definition skipped (trim rotate : bool) (version alignment : Z)
    (item : Bitmap.t * Point.t) : Prop :=
  0 ≤ version ∧ to_size_t alignment < Packer.footprint item.1 trim rotate.

#[export] Instance skipped_dec (trim rotate : bool) (version alignment : Z)
    (item : Bitmap.t * Point.t)
  : Decision (skipped trim rotate version alignment item).
Proof. unfold skipped. apply _. Defined.

(** A block of the stream: the bytes of a record followed by zero bytes,
    at least one and at most [alignment], up to a multiple of
    [alignment]. *)
Definition padded_record {writer : BinaryWriter} (trim rotate : bool)
    (version alignment : Z) (item : Bitmap.t * Point.t) (block : list byte)
  : Prop :=
  ∃ k, block = record_bytes trim rotate version item
               ++ replicate (Z.to_nat k) x00
       ∧ 1 ≤ k ≤ alignment
       ∧ tellp block mod alignment = 0.

(** ** Predicates of the properties of the permutation functions *)

(** Position [k] of a vector of length [n] is linked by [p]: its entry in
    [p] is a position of the vector, and it is the entry of a position of
    the vector. *)
Definition linked (p : list nat) (n k : nat) : Prop :=
  (∃ j, p !! k = Some j ∧ (j < n)%nat)
  ∧ ∃ k', (k' < n)%nat ∧ p !! k' = Some k.

(** ** Runs of the scenario with [verbose] set and on a bin that lists its
    requests *)

Definition scenario_locals_verbose : Packer.locals RowBin :=
  Packer.mkLocals (mkRowBin 64 64 30) (Packer.self scenario_locals) 30 10
    [(3%nat, "a"); (2%nat, "b"); (1%nat, "c")]%string.

Definition scenario_locals_traced
  : Packer.locals (RowBin * list (Z * Z * bool)) :=
  Packer.mkLocals (mkRowBin 64 64 30, [(10, 10, false); (20, 5, false)])
    (Packer.self scenario_locals) 30 10 [].

(** A new object with a canvas of 16 by 16 and a padding of 1: the row bin
    has room for one bitmap of 10 by 10. *)
Definition tight_packer : Packer.t := Packer.Packer 16 16 1.

(** * Properties *)

(** ** The monad *)

Lemma bind_Done {A C : Type} (m : outcome A) (f : A → outcome C) (c : C) :
  m ≫= f = Done c ↔ ∃ a, m = Done a ∧ f a = Done c.
Proof.
  destruct m; simpl; split; try (intros (? & ? & ?)); try done; eauto.
  by simplify_eq.
Qed.

Lemma vector_at_Done {A : Type} (vec : list A) (i : nat) (a : A) :
  vector_at vec i = Done a ↔ vec !! i = Some a.
Proof. unfold vector_at. destruct (vec !! i); naive_solver. Qed.

(** ** Halving *)

Lemma halved_S (k : nat) (w : Z) : halved (S k) w = Z.quot (halved k w) 2.
Proof. reflexivity. Qed.

Lemma halved_shift (k : nat) (w : Z) : halved (S k) w = halved k (Z.quot w 2).
Proof. unfold halved. by rewrite Nat.iter_succ_r. Qed.

Lemma quot_2_bounds (w : Z) : 0 ≤ w → 0 ≤ Z.quot w 2 ≤ w.
Proof.
  intros Hw. rewrite Z.quot_div_nonneg by lia.
  split; [apply Z.div_pos; lia | apply Z.div_le_upper_bound; lia].
Qed.

Lemma halved_bounds (k : nat) (w : Z) : 0 ≤ w → 0 ≤ halved k w ≤ w.
Proof.
  intros Hw. induction k as [|k IH]; [simpl; lia|].
  rewrite halved_S. pose proof (quot_2_bounds (halved k w)). lia.
Qed.

Lemma halve_while_smallest (fuel : nat) (w ww w' : Z) :
  0 ≤ w → ww ≤ w →
  Packer.halve_while fuel w ww = Done w' → smallest_halving w ww w'.
Proof.
  revert w. induction fuel as [|fuel IH]; intros w Hw Hb; [done|]. simpl.
  destruct (Z.leb_spec ww (Z.quot w 2)) as [Hle|Hgt].
  - intros Hrun. pose proof (quot_2_bounds w Hw) as Hq.
    destruct (IH (Z.quot w 2)) as ((k & Hk) & Hge & Hmin & Hhalf);
      [lia | done | done |].
    repeat split; [| done | | done].
    + exists (S k). by rewrite halved_shift.
    + intros [|j] Hj.
      * pose proof (halved_bounds k (Z.quot w 2)). simpl. lia.
      * rewrite halved_shift in Hj |- *. by apply Hmin.
  - intros [= <-]. repeat split; [by exists 0%nat | done | | done].
    intros [|j] Hj; [simpl; lia|].
    rewrite halved_shift in Hj. pose proof (quot_2_bounds w Hw).
    pose proof (halved_bounds j (Z.quot w 2)). lia.
Qed.

Lemma halve_while_enough (fuel : nat) (w ww : Z) :
  1 ≤ ww → (Z.to_nat w < fuel)%nat →
  ∃ w', Packer.halve_while fuel w ww = Done w'.
Proof.
  intros Hww. revert w. induction fuel as [|fuel IH]; intros w Hf; [lia|].
  simpl. destruct (Z.leb_spec ww (Z.quot w 2)) as [Hle|Hgt]; [|by eauto].
  apply IH. destruct (Z.le_gt_cases 0 w) as [Hw|Hw].
  - rewrite Z.quot_div_nonneg in Hle |- * by lia.
    assert (w ≠ 0) by (intros ->; rewrite Zdiv_0_l in Hle; lia).
    assert (w / 2 < w) by (apply Z.div_lt; lia). lia.
  - pose proof (Z.quot_opp_l w 2 ltac:(lia)).
    assert (0 ≤ Z.quot (- w) 2) by (apply Z.quot_pos; lia). lia.
Qed.

Lemma halve_while_forever (fuel : nat) (w ww : Z) :
  ww ≤ 0 → 0 ≤ w → Packer.halve_while fuel w ww = OutOfFuel.
Proof.
  intros Hww. revert w. induction fuel as [|fuel IH]; intros w Hw; [done|].
  simpl. pose proof (quot_2_bounds w Hw).
  destruct (Z.leb_spec ww (Z.quot w 2)); [apply IH|]; lia.
Qed.

Lemma halve_while_defined (fuel : nat) (w ww : Z) :
  Packer.halve_while fuel w ww ≠ Undefined.
Proof.
  revert w. induction fuel as [|fuel IH]; intros w; [done|]. simpl.
  by destruct (ww <=? Z.quot w 2).
Qed.

Lemma for_each_cons {S : Type} (i : nat) (range : list nat)
    (body : nat → S → outcome S) (s : S) :
  for_each (i :: range) body s = body i s ≫= for_each range body.
Proof. reflexivity. Qed.

(** ** The loop of [Pack] *)

Section PackLoop.
Context {B : Type} {bin : RectangleBin B} {equals : BitmapEquals}.
Variables (verbose unique rotate : bool).

Lemma find_duplicate_Some (this : Packer.t) (bitmap : Bitmap.t) (second : Z) :
  Packer.find_duplicate unique this bitmap = Done (Some second) ↔
  unique = true
  ∧ Packer.dupLookup this !! Bitmap.hashValue bitmap = Some second
  ∧ ∃ other, Packer.bitmaps this !! index_of_int second = Some other
             ∧ Equals bitmap other = true.
Proof.
  unfold Packer.find_duplicate. destruct unique.
  2: { split; [done | by intros [? _]]. }
  destruct (Packer.dupLookup this !! _) as [v|].
  2: { split; [done | by intros (_ & ? & _)]. }
  unfold vector_at.
  destruct (Packer.bitmaps this !! index_of_int v) as [o|] eqn:Ho; simpl.
  2: { split; [done|]. intros (_ & [= ->] & o & Ho' & _). congruence. }
  destruct (Equals bitmap o) eqn:He; split.
  - intros [= ->]. rewrite Ho. eauto 10.
  - by intros (_ & [= ->] & _).
  - done.
  - intros (_ & [= ->] & o' & Ho' & He'). congruence.
Qed.

Lemma Pack_verbose_self (st : Packer.locals B) (size : nat) (bitmap : Bitmap.t) :
  let st' := Packer.Pack_verbose verbose st size bitmap in
  Packer.self st' = Packer.self st ∧ Packer.packer st' = Packer.packer st
  ∧ Packer.ww st' = Packer.ww st ∧ Packer.hh st' = Packer.hh st.
Proof. unfold Packer.Pack_verbose. by destruct verbose. Qed.

(** The body of the loop does what [iteration] says, and nothing else. *)
Lemma Pack_body_iteration (st : Packer.locals B) (size : nat)
    (bitmap : Bitmap.t) (c : Packer.control B) :
  Packer.Pack_body verbose unique rotate st size bitmap = Done c ↔
  iteration verbose unique rotate st size bitmap c.
Proof.
  unfold Packer.Pack_body.
  destruct (Pack_verbose_self st size bitmap) as (Hself & Hbin & Hww & Hhh).
  rewrite bind_Done. split.
  - intros ([second|] & Hfind & Hrun).
    + rewrite Hself in Hfind.
      apply find_duplicate_Some in Hfind as (Hu & Hlook & other & Hother & Heq).
      unfold Packer.Pack_duplicate in Hrun.
      apply bind_Done in Hrun as (p & Hp%vector_at_Done & [= <-]).
      rewrite Hself, Hbin, Hww, Hhh in *.
      by eapply iteration_duplicate.
    + injection Hrun as <-. unfold Packer.Pack_insert.
      rewrite Hself, Hbin, Hww, Hhh in *.
      destruct (Insert _ _ _ _ _) as [rect packer'] eqn:Hins.
      destruct (_ || _) eqn:Hzero.
      * eapply iteration_exhausted; [done..|]. lia.
      * eapply iteration_placed; [done..| |]; lia.
  - intros [second other p Hu Hlook Hother Heq Hp
           |rect packer' Hfind Hins Hzero|rect packer' Hfind Hins Hw Hh].
    + exists (Some second). rewrite Hself. split.
      * apply find_duplicate_Some. eauto 10.
      * unfold Packer.Pack_duplicate. rewrite Hself, Hbin, Hww, Hhh.
        apply vector_at_Done in Hp. by rewrite Hp.
    + exists None. rewrite Hself. split; [done|].
      unfold Packer.Pack_insert. rewrite Hself, Hbin, Hww, Hhh, Hins.
      destruct (_ || _) eqn:Hb; [done | lia].
    + exists None. rewrite Hself. split; [done|].
      unfold Packer.Pack_insert. rewrite Hself, Hbin, Hww, Hhh, Hins.
      destruct (_ || _) eqn:Hb; [lia | done].
Qed.

(** The iteration for a duplicate appends the record with the index found
    and leaves the bin and the tight bound alone. *)
Lemma Pack_body_duplicate (st : Packer.locals B) (size : nat)
    (bitmap : Bitmap.t) (second : Z) (c : Packer.control B) :
  Packer.find_duplicate unique (Packer.self st) bitmap = Done (Some second) →
  Packer.Pack_body verbose unique rotate st size bitmap = Done c →
  ∃ st' p,
    c = Packer.Popped st'
    ∧ Packer.points (Packer.self st') = Packer.points (Packer.self st) ++ [p]
    ∧ Point.dupID p = second
    ∧ Packer.packer st' = Packer.packer st
    ∧ Packer.ww st' = Packer.ww st ∧ Packer.hh st' = Packer.hh st.
Proof.
  intros Hfind Hbody. apply Pack_body_iteration in Hbody.
  destruct Hbody as [second' other p _ Hlook _ _ _
                    | rect packer' Hnone _ _ | rect packer' Hnone _ _ _];
    [|congruence..].
  apply find_duplicate_Some in Hfind as (_ & Hlook' & _).
  assert (second' = second) as -> by congruence.
  by eexists _, _.
Qed.

(** A property kept by every iteration holds of the state the loop ends
    in. The property may mention the items still in the input. *)
Lemma Pack_loop_invariant (I : Packer.locals B → list Bitmap.t → Prop) :
  (∀ st bitmap rest c,
      I st (bitmap :: rest) →
      iteration verbose unique rotate st (S (length rest)) bitmap c →
      match c with
      | Packer.Popped st' => I st' rest
      | Packer.Break st' => I st' (bitmap :: rest)
      end) →
  ∀ stack st st' rest,
    I st stack →
    Packer.Pack_loop verbose unique rotate st stack = Done (st', rest) →
    I st' rest.
Proof.
  intros Hstep stack.
  induction stack as [|bitmap stack IH]; intros st st' rest HI; simpl.
  - by intros [= <- <-].
  - intros (c & Hbody%Pack_body_iteration & Hrun)%bind_Done.
    specialize (Hstep _ _ _ _ HI Hbody). destruct c as [st1|st1].
    + by eapply IH.
    + by injection Hrun as <- <-.
Qed.
(** The loop only appends: the items taken from the input stack are the
    bitmaps appended, in that order, with one record each; the canvas and
    the padding are left alone. *)
Lemma Pack_loop_appends (st st' : Packer.locals B) (stack rest : list Bitmap.t) :
  Packer.Pack_loop verbose unique rotate st stack = Done (st', rest) →
  ∃ taken new,
    stack = taken ++ rest
    ∧ Packer.bitmaps (Packer.self st') = Packer.bitmaps (Packer.self st) ++ taken
    ∧ Packer.points (Packer.self st') = Packer.points (Packer.self st) ++ new
    ∧ length new = length taken
    ∧ Packer.width (Packer.self st') = Packer.width (Packer.self st)
    ∧ Packer.height (Packer.self st') = Packer.height (Packer.self st)
    ∧ Packer.pad (Packer.self st') = Packer.pad (Packer.self st).
Proof.
  apply (Pack_loop_invariant (λ s r, ∃ taken new,
    stack = taken ++ r
    ∧ Packer.bitmaps (Packer.self s) = Packer.bitmaps (Packer.self st) ++ taken
    ∧ Packer.points (Packer.self s) = Packer.points (Packer.self st) ++ new
    ∧ length new = length taken
    ∧ Packer.width (Packer.self s) = Packer.width (Packer.self st)
    ∧ Packer.height (Packer.self s) = Packer.height (Packer.self st)
    ∧ Packer.pad (Packer.self s) = Packer.pad (Packer.self st))).
  - intros s bitmap r c (taken & new & -> & Hb & Hp & Hlen & Hw & Hh & Hpad) Hit.
    destruct Hit; simpl.
    + eexists (taken ++ [bitmap]), (new ++ [_]).
      rewrite Hb, Hp, <- !(assoc_L (++)), !length_app. simpl.
      repeat split; try done; lia.
    + by exists taken, new.
    + eexists (taken ++ [bitmap]), (new ++ [_]).
      rewrite Hb, Hp, <- !(assoc_L (++)), !length_app. simpl.
      repeat split; try done; lia.
  - exists [], []. by rewrite !(right_id_L [] (++)).
Qed.

Lemma index_of_int_small (v : Z) :
  0 ≤ v < 2147483648 → index_of_int v = Z.to_nat v.
Proof.
  intros Hv. unfold index_of_int, to_size_t. by rewrite Z.mod_small by lia.
Qed.

Lemma static_cast_int_small (v : Z) :
  0 ≤ v < 2147483648 → static_cast_int v = v.
Proof.
  intros Hv. unfold static_cast_int. rewrite Z.mod_small by lia. lia.
Qed.

(** Every iteration keeps the object well formed. *)
Lemma iteration_well_formed (st : Packer.locals B) (bitmap : Bitmap.t)
    (rest : list Bitmap.t) (c : Packer.control B) :
  well_formed (Packer.self st) →
  countable_in_int (Packer.self st) (bitmap :: rest) →
  iteration verbose unique rotate st (S (length rest)) bitmap c →
  match c with
  | Packer.Popped st' =>
      well_formed (Packer.self st') ∧ countable_in_int (Packer.self st') rest
  | Packer.Break st' =>
      well_formed (Packer.self st')
      ∧ countable_in_int (Packer.self st') (bitmap :: rest)
  end.
Proof.
  unfold well_formed, countable_in_int. intros [Hlen Hdup] Hcount Hit.
  destruct Hit; simpl in *; rewrite ?length_app in *; simpl.
  - split; [split|]; [lia | | lia].
    intros h v Hv. apply Hdup in Hv. lia.
  - done.
  - split; [split|]; [lia | | lia].
    intros h v. destruct unique.
    + rewrite lookup_insert. case_decide.
      * intros [= <-]. rewrite static_cast_int_small; lia.
      * intros Hv%Hdup. lia.
    + intros Hv%Hdup. lia.
Qed.

Lemma Pack_loop_well_formed (st st' : Packer.locals B) (stack rest : list Bitmap.t) :
  well_formed (Packer.self st) →
  countable_in_int (Packer.self st) stack →
  Packer.Pack_loop verbose unique rotate st stack = Done (st', rest) →
  well_formed (Packer.self st') ∧ countable_in_int (Packer.self st') rest.
Proof.
  intros Hwf Hcount.
  apply (Pack_loop_invariant (λ s r,
    well_formed (Packer.self s) ∧ countable_in_int (Packer.self s) r));
    [|done].
  intros s bitmap r c [Hs Hr] Hit.
  by apply (iteration_well_formed s bitmap r c).
Qed.

(** On a well-formed object an iteration reads no vector past its end. *)
Lemma iteration_defined (st : Packer.locals B) (size : nat) (bitmap : Bitmap.t) :
  well_formed (Packer.self st) →
  Z.of_nat (length (Packer.points (Packer.self st))) < 2147483648 →
  ∃ c, iteration verbose unique rotate st size bitmap c.
Proof.
  intros [Hlen Hdup] Hcount.
  destruct (Packer.find_duplicate unique (Packer.self st) bitmap)
    as [[second|]| |] eqn:Hfind.
  - apply find_duplicate_Some in Hfind as (Hu & Hlook & other & Hother & Heq).
    pose proof (Hdup _ _ Hlook) as Hrange.
    destruct (Packer.points (Packer.self st) !! index_of_int second)
      as [p|] eqn:Hp.
    + eexists. by eapply iteration_duplicate.
    + apply lookup_ge_None in Hp.
      rewrite index_of_int_small in Hp by lia. lia.
  - destruct (Insert (Packer.packer st)
      (Bitmap.width bitmap + Packer.pad (Packer.self st))
      (Bitmap.height bitmap + Packer.pad (Packer.self st))
      rotate RectBestShortSideFit) as [rect packer'] eqn:Hins.
    destruct (decide (Rect.width rect = 0 ∨ Rect.height rect = 0)) as [Hz|Hz].
    + eexists. by eapply iteration_exhausted.
    + eexists. eapply iteration_placed; [done..| |]; lia.
  - unfold Packer.find_duplicate in Hfind. destruct unique; [|done].
    destruct (Packer.dupLookup (Packer.self st) !! _) as [v|] eqn:Hv; [|done].
    pose proof (Hdup _ _ Hv) as Hrange. unfold vector_at in Hfind.
    destruct (Packer.bitmaps (Packer.self st) !! index_of_int v) eqn:Hb;
      [done|].
    apply lookup_ge_None in Hb. rewrite index_of_int_small in Hb by lia. lia.
  - unfold Packer.find_duplicate, vector_at in Hfind.
    by repeat case_match.
Qed.

(** On a well-formed object the loop runs to its end. *)
Lemma Pack_loop_defined (stack : list Bitmap.t) (st : Packer.locals B) :
  well_formed (Packer.self st) →
  countable_in_int (Packer.self st) stack →
  ∃ st' rest, Packer.Pack_loop verbose unique rotate st stack = Done (st', rest).
Proof.
  revert st. induction stack as [|bitmap stack IH]; intros st Hwf Hcount.
  - by eexists _, _.
  - simpl. destruct (iteration_defined st (S (length stack)) bitmap)
      as [c Hc]; [done | unfold countable_in_int in Hcount; lia |].
    pose proof (iteration_well_formed _ _ _ _ Hwf Hcount Hc) as Hnext.
    apply Pack_body_iteration in Hc. rewrite Hc. simpl.
    destruct c as [st1|st1]; [|by eexists _, _].
    destruct Hnext as [Hwf1 Hcount1]. by apply IH.
Qed.
End PackLoop.

(** ** The tight bound and the canvas *)

Section PackOnCanvas.
Context {B : Type} {bin : RectangleBin B} {laws : RectangleBinLaws B}
        {equals : BitmapEquals}.
Variables (verbose unique rotate : bool).

(** The tight bound never leaves the canvas the bin was constructed
    with. *)
Lemma Pack_loop_on_canvas (cw ch : Z) (st st' : Packer.locals B)
    (stack rest : list Bitmap.t) :
  0 ≤ cw → 0 ≤ ch → canvas (Packer.packer st) = (cw, ch) →
  0 ≤ Packer.ww st ≤ cw → 0 ≤ Packer.hh st ≤ ch →
  Packer.Pack_loop verbose unique rotate st stack = Done (st', rest) →
  canvas (Packer.packer st') = (cw, ch)
  ∧ 0 ≤ Packer.ww st' ≤ cw ∧ 0 ≤ Packer.hh st' ≤ ch.
Proof.
  intros Hcw Hch Hcanvas Hww Hhh.
  apply (Pack_loop_invariant verbose unique rotate (λ s _,
    canvas (Packer.packer s) = (cw, ch)
    ∧ 0 ≤ Packer.ww s ≤ cw ∧ 0 ≤ Packer.hh s ≤ ch)); [|done].
  intros s bitmap r c (Hc & Hw & Hh) Hit.
  destruct Hit as [| rect packer' _ Hins _ | rect packer' _ Hins _ _]; simpl.
  - done.
  - pose proof (canvas_Insert (Packer.packer s)
      (Bitmap.width bitmap + Packer.pad (Packer.self s))
      (Bitmap.height bitmap + Packer.pad (Packer.self s))
      rotate RectBestShortSideFit) as Hkeep.
    rewrite Hins in Hkeep. simpl in Hkeep. by rewrite Hkeep.
  - pose proof (canvas_Insert (Packer.packer s)
      (Bitmap.width bitmap + Packer.pad (Packer.self s))
      (Bitmap.height bitmap + Packer.pad (Packer.self s))
      rotate RectBestShortSideFit) as Hkeep.
    pose proof (Insert_on_canvas (Packer.packer s)
      (Bitmap.width bitmap + Packer.pad (Packer.self s))
      (Bitmap.height bitmap + Packer.pad (Packer.self s))
      rotate RectBestShortSideFit) as Hon.
    rewrite Hins, Hc in *. simpl in *.
    specialize (Hon Hcw Hch). split; [done | lia].
Qed.

(** The tight bound is positive in both directions exactly when an item
    was placed; otherwise it is still (0, 0). *)
Lemma Pack_loop_placed (cw ch : Z) (old : nat) (st st' : Packer.locals B)
    (stack rest : list Bitmap.t) :
  0 ≤ cw → 0 ≤ ch → canvas (Packer.packer st) = (cw, ch) →
  well_formed (Packer.self st) →
  (old ≤ length (Packer.points (Packer.self st)))%nat →
  (placed_since old st ∧ 1 ≤ Packer.ww st ∧ 1 ≤ Packer.hh st)
  ∨ (¬ placed_since old st ∧ Packer.ww st = 0 ∧ Packer.hh st = 0) →
  countable_in_int (Packer.self st) stack →
  Packer.Pack_loop verbose unique rotate st stack = Done (st', rest) →
  (placed_since old st' ∧ 1 ≤ Packer.ww st' ∧ 1 ≤ Packer.hh st')
  ∨ (¬ placed_since old st' ∧ Packer.ww st' = 0 ∧ Packer.hh st' = 0).
Proof.
  intros Hcw Hch Hcanvas Hwf Hold Hcases Hcount Hrun.
  cut (canvas (Packer.packer st') = (cw, ch)
       ∧ (well_formed (Packer.self st') ∧ countable_in_int (Packer.self st') rest)
       ∧ (old ≤ length (Packer.points (Packer.self st')))%nat
       ∧ ((placed_since old st' ∧ 1 ≤ Packer.ww st' ∧ 1 ≤ Packer.hh st')
          ∨ (¬ placed_since old st' ∧ Packer.ww st' = 0 ∧ Packer.hh st' = 0)));
    [tauto|].
  revert Hrun.
  apply (Pack_loop_invariant verbose unique rotate (λ s r,
    canvas (Packer.packer s) = (cw, ch)
    ∧ (well_formed (Packer.self s) ∧ countable_in_int (Packer.self s) r)
    ∧ (old ≤ length (Packer.points (Packer.self s)))%nat
    ∧ ((placed_since old s ∧ 1 ≤ Packer.ww s ∧ 1 ≤ Packer.hh s)
       ∨ (¬ placed_since old s ∧ Packer.ww s = 0 ∧ Packer.hh s = 0))));
    [|done].
  clear Hcanvas Hwf Hold Hcases Hcount.
  intros s bitmap r c (Hc & [Hwf Hcount] & Hold & Hcases) Hit.
  pose proof (iteration_well_formed _ _ _ _ _ _ _ Hwf Hcount Hit) as Hnext.
  destruct Hit as [second other p _ Hlook _ _ _
                  | rect packer' _ Hins _ | rect packer' _ Hins Hw Hh];
    simpl in *.
  - split; [done|]. split; [done|]. rewrite length_app. split; [lia|].
    destruct Hwf as [_ Hdup]. apply Hdup in Hlook.
    assert (placed_since old s ↔ placed_since old
      (Packer.mkLocals (Packer.packer s)
         (Packer.mk (Packer.width (Packer.self s))
            (Packer.height (Packer.self s)) (Packer.pad (Packer.self s))
            (Packer.bitmaps (Packer.self s) ++ [bitmap])
            (Packer.points (Packer.self s)
               ++ [Point.mk (Point.x p) (Point.y p) second (Point.rot p)])
            (Packer.dupLookup (Packer.self s)))
         (Packer.ww s) (Packer.hh s)
         (Packer.cout (Packer.Pack_verbose verbose s (S (length r)) bitmap))))
      as Hsame.
    { unfold placed_since. simpl. split.
      - intros (i & q & Hi & Hq & Hid). exists i, q.
        split; [done|]. split; [|done]. by apply lookup_app_l_Some.
      - intros (i & q & Hi & Hq & Hid). exists i, q.
        split; [done|]. split; [|done].
        apply lookup_app_Some in Hq as [Hq|[_ Hq]]; [done|].
        apply list_lookup_singleton_Some in Hq as [_ <-]. simpl in Hid. lia. }
    unfold placed_since in *. simpl in *. tauto.
  - pose proof (canvas_Insert (Packer.packer s)
      (Bitmap.width bitmap + Packer.pad (Packer.self s))
      (Bitmap.height bitmap + Packer.pad (Packer.self s))
      rotate RectBestShortSideFit) as Hkeep.
    rewrite Hins in Hkeep. simpl in Hkeep. rewrite Hkeep.
    unfold placed_since in *. simpl in *. tauto.
  - pose proof (canvas_Insert (Packer.packer s)
      (Bitmap.width bitmap + Packer.pad (Packer.self s))
      (Bitmap.height bitmap + Packer.pad (Packer.self s))
      rotate RectBestShortSideFit) as Hkeep.
    pose proof (Insert_on_canvas (Packer.packer s)
      (Bitmap.width bitmap + Packer.pad (Packer.self s))
      (Bitmap.height bitmap + Packer.pad (Packer.self s))
      rotate RectBestShortSideFit) as Hon.
    rewrite Hins, Hc in *. simpl in *. specialize (Hon Hcw Hch).
    split; [done|]. split; [done|]. rewrite length_app. split; [lia|].
    left. split; [|lia].
    exists (length (Packer.points (Packer.self s))). eexists.
    split; [done|]. simpl. split; [by apply list_lookup_middle | done].
Qed.
End PackOnCanvas.

(** ** The row bin keeps the laws *)

Lemma RowBin_canvas_Insert (b : RowBin) (w h : Z) (rotate : bool)
    (method : FreeRectChoiceHeuristic) :
  let b' := (RowBin_Insert b w h rotate method).2 in
  (binWidth b', binHeight b') = (binWidth b, binHeight b).
Proof. unfold RowBin_Insert. by case_match. Qed.

Lemma RowBin_Insert_on_canvas (b : RowBin) (w h : Z) (rotate : bool)
    (method : FreeRectChoiceHeuristic) :
  0 ≤ binWidth b → 0 ≤ binHeight b →
  let rect := (RowBin_Insert b w h rotate method).1 in
  0 ≤ Rect.x rect ∧ 0 ≤ Rect.y rect
  ∧ 0 ≤ Rect.width rect ∧ 0 ≤ Rect.height rect
  ∧ Rect.x rect + Rect.width rect ≤ binWidth b
  ∧ Rect.y rect + Rect.height rect ≤ binHeight b.
Proof.
  intros Hw Hh. unfold RowBin_Insert.
  destruct (_ && _) eqn:Hfits; simpl; [|lia].
  repeat (apply andb_prop in Hfits as [Hfits ?]). lia.
Qed.

Lemma RowBin_canvas_MaxRectsBinPack (w h : Z) :
  let b := @MaxRectsBinPack RowBin RowBin_RectangleBin w h in
  (binWidth b, binHeight b) = (w, h).
Proof. reflexivity. Qed.

Definition RowBin_Laws : @RectangleBinLaws RowBin RowBin_RectangleBin :=
  {| canvas := λ b : RowBin, (binWidth b, binHeight b);
     canvas_MaxRectsBinPack := RowBin_canvas_MaxRectsBinPack;
     canvas_Insert := RowBin_canvas_Insert;
     Insert_on_canvas := RowBin_Insert_on_canvas |}.

(** ** Shrinking the canvas *)

Section Shrink.
Context {B : Type} {bin : RectangleBin B} {laws : RectangleBinLaws B}
        {equals : BitmapEquals}.
Variables (verbose unique rotate : bool).

Lemma Pack_placement_on_canvas (this : Packer.t) (input : list Bitmap.t)
    (st : Packer.locals B) (rest : list Bitmap.t) :
  0 ≤ Packer.width this → 0 ≤ Packer.height this →
  Packer.Pack_placement verbose unique rotate this input = Done (st, rest) →
  Packer.width (Packer.self st) = Packer.width this
  ∧ Packer.height (Packer.self st) = Packer.height this
  ∧ 0 ≤ Packer.ww st ≤ Packer.width this
  ∧ 0 ≤ Packer.hh st ≤ Packer.height this.
Proof.
  intros Hw Hh Hrun. unfold Packer.Pack_placement in Hrun.
  pose proof (Pack_loop_appends _ _ _ _ _ _ _ Hrun)
    as (_ & _ & _ & _ & _ & _ & Hwidth & Hheight & _).
  eapply Pack_loop_on_canvas in Hrun as (_ & Hww & Hhh);
    [done | done.. | apply canvas_MaxRectsBinPack | simpl; lia | simpl; lia].
Qed.

Lemma Pack_returns (this : Packer.t) (input rest : list Bitmap.t)
    (st : Packer.locals B) :
  Packer.Pack_placement verbose unique rotate this input = Done (st, rest) →
  1 ≤ Packer.ww st → 1 ≤ Packer.hh st →
  ∃ fuel, ∀ fuel', (fuel ≤ fuel')%nat →
    ∃ this', Packer.Pack verbose unique rotate fuel' this input
             = Done (this', rev rest, Packer.cout st).
Proof.
  intros Hrun Hww Hhh.
  exists (S (Z.to_nat (Z.max (Packer.width (Packer.self st))
                         (Packer.height (Packer.self st))))).
  intros fuel' Hfuel. unfold Packer.Pack. rewrite Hrun. simpl.
  destruct (halve_while_enough fuel' (Packer.width (Packer.self st))
              (Packer.ww st)) as [width' ->]; [done | lia |].
  destruct (halve_while_enough fuel' (Packer.height (Packer.self st))
              (Packer.hh st)) as [height' ->]; [done | lia |].
  by eexists.
Qed.

(** C1. On a bin that places on its canvas, whose sides are not negative:
    whenever [Pack] returns, the width it leaves is the smallest of the
    successive integer halvings of the width it was given that is not
    below the tight bound [ww] of the placement loop, and half of it is
    below [ww]; likewise the height and [hh]. And [Pack] does return, with
    any fuel from some amount on, when both bounds are at least 1. *)
Theorem Pack_shrinks_to_smallest_halving (this : Packer.t)
    (input rest : list Bitmap.t) (st : Packer.locals B) :
  0 ≤ Packer.width this → 0 ≤ Packer.height this →
  Packer.Pack_placement verbose unique rotate this input = Done (st, rest) →
  (∀ fuel this' rest' out,
      Packer.Pack verbose unique rotate fuel this input
      = Done (this', rest', out) →
      smallest_halving (Packer.width this) (Packer.ww st) (Packer.width this')
      ∧ smallest_halving (Packer.height this) (Packer.hh st)
          (Packer.height this'))
  ∧ (1 ≤ Packer.ww st → 1 ≤ Packer.hh st →
     ∃ fuel, ∀ fuel', (fuel ≤ fuel')%nat →
       ∃ this', Packer.Pack verbose unique rotate fuel' this input
                = Done (this', rev rest, Packer.cout st)).
Proof.
  intros Hw Hh Hplace.
  destruct (Pack_placement_on_canvas _ _ _ _ Hw Hh Hplace)
    as (Hwidth & Hheight & Hww & Hhh).
  split; [|by apply Pack_returns].
  intros fuel this' rest' out Hrun.
  unfold Packer.Pack in Hrun. rewrite Hplace in Hrun. simpl in Hrun.
  apply bind_Done in Hrun as (width' & Hwidth' & Hrun).
  apply bind_Done in Hrun as (height' & Hheight' & [= <- _ _]). simpl.
  rewrite Hwidth in Hwidth'. rewrite Hheight in Hheight'.
  split; eapply halve_while_smallest; try done; lia.
Qed.

(** C10. On a well-formed object whose canvas has sides that are not
    negative, the placement loop of [Pack] always ends. If it placed at
    least one item of its own, both tight bounds are at least 1 and
    [Pack] returns, with any fuel from some amount on; if it placed none,
    the halving loops never end, whatever the fuel. *)
Theorem Pack_terminates_iff_placed (this : Packer.t) (input : list Bitmap.t) :
  well_formed this → countable_in_int this input →
  0 ≤ Packer.width this → 0 ≤ Packer.height this →
  ∃ st rest,
    Packer.Pack_placement verbose unique rotate this input = Done (st, rest)
    ∧ (placed_since (length (Packer.points this)) st →
       1 ≤ Packer.ww st ∧ 1 ≤ Packer.hh st
       ∧ ∃ fuel, ∀ fuel', (fuel ≤ fuel')%nat →
           ∃ r, Packer.Pack verbose unique rotate fuel' this input = Done r)
    ∧ (¬ placed_since (length (Packer.points this)) st →
       ∀ fuel, Packer.Pack verbose unique rotate fuel this input = OutOfFuel).
Proof.
  intros Hwf Hcount Hw Hh.
  destruct (Pack_loop_defined verbose unique rotate (rev input)
    (Packer.mkLocals (MaxRectsBinPack (Packer.width this) (Packer.height this))
       this 0 0 [])) as (st & rest & Hrun); [done | |].
  { unfold countable_in_int in *. simpl. by rewrite length_rev. }
  exists st, rest. split; [done|].
  destruct (Pack_placement_on_canvas _ _ _ _ Hw Hh Hrun)
    as (Hwidth & Hheight & Hww & Hhh).
  pose proof Hrun as Hcases.
  eapply (Pack_loop_placed verbose unique rotate _ _
            (length (Packer.points this))) in Hcases;
    [| exact Hw | exact Hh | apply canvas_MaxRectsBinPack | done | done
     | | unfold countable_in_int in *; simpl; by rewrite length_rev].
  2: { right. split; [|done]. intros (i & p & Hi & Hp & _). simpl in Hp.
       apply lookup_lt_Some in Hp. lia. }
  unfold Packer.Pack, Packer.Pack_placement. rewrite Hrun. simpl.
  rewrite Hwidth, Hheight. split.
  - intros Hplaced. destruct Hcases as [(_ & H1 & H2)|[Hnot _]]; [|done].
    split; [done|]. split; [done|].
    destruct (Pack_returns this input rest st Hrun H1 H2) as [fuel Hfuel].
    exists fuel. intros fuel' Hle. destruct (Hfuel fuel' Hle) as [this' Hpack].
    exists (this', rev rest, Packer.cout st).
    unfold Packer.Pack, Packer.Pack_placement in Hpack.
    rewrite Hrun in Hpack. simpl in Hpack. by rewrite Hwidth, Hheight in Hpack.
  - intros Hnot fuel. destruct Hcases as [[Hplaced _]|(_ & H1 & H2)]; [done|].
    rewrite (halve_while_forever fuel (Packer.width this));
      [reflexivity | lia | lia].
Qed.
End Shrink.

(** ** The records of a run *)

Section PackRecords.
Context {B : Type} {bin : RectangleBin B} {equals : BitmapEquals}.
Variables (verbose unique rotate : bool).

Lemma duplicate_of_app (bitmaps more : list Bitmap.t) (points more' : list Point.t)
    (i : nat) (bitmap : Bitmap.t) (p : Point.t) :
  duplicate_of bitmaps points i bitmap p →
  duplicate_of (bitmaps ++ more) (points ++ more') i bitmap p.
Proof.
  intros (other & q & H0 & Hi & Hb & Hq & Hrest). exists other, q.
  repeat split; try tauto; by apply lookup_app_l_Some.
Qed.

(** Every record appended by the loop is the placement record of the
    bitmap appended with it. *)
Lemma Pack_loop_records (st st' : Packer.locals B) (stack rest : list Bitmap.t) :
  well_formed (Packer.self st) →
  countable_in_int (Packer.self st) stack →
  Packer.Pack_loop verbose unique rotate st stack = Done (st', rest) →
  ∀ i bitmap p,
    (length (Packer.points (Packer.self st)) ≤ i)%nat →
    Packer.bitmaps (Packer.self st') !! i = Some bitmap →
    Packer.points (Packer.self st') !! i = Some p →
    placement_for (B := B) rotate (Packer.self st') i bitmap p.
Proof.
  intros Hwf Hcount Hrun.
  cut ((well_formed (Packer.self st') ∧ countable_in_int (Packer.self st') rest)
       ∧ ∀ i bitmap p,
           (length (Packer.points (Packer.self st)) ≤ i)%nat →
           Packer.bitmaps (Packer.self st') !! i = Some bitmap →
           Packer.points (Packer.self st') !! i = Some p →
           placement_for (B := B) rotate (Packer.self st') i bitmap p);
    [tauto|].
  revert Hrun.
  apply (Pack_loop_invariant verbose unique rotate (λ s r,
    (well_formed (Packer.self s) ∧ countable_in_int (Packer.self s) r)
    ∧ ∀ i bitmap p,
        (length (Packer.points (Packer.self st)) ≤ i)%nat →
        Packer.bitmaps (Packer.self s) !! i = Some bitmap →
        Packer.points (Packer.self s) !! i = Some p →
        placement_for (B := B) rotate (Packer.self s) i bitmap p)).
  2: { split; [done|]. intros i bitmap p Hi _ Hp.
       apply lookup_lt_Some in Hp. lia. }
  clear Hwf Hcount.
  intros s bitmap r c [[Hwf Hcount] Hrec] Hit.
  pose proof (iteration_well_formed _ _ _ _ _ _ _ Hwf Hcount Hit) as Hnext.
  destruct Hwf as [Hlen Hdup].
  destruct Hit as [second other q _ Hlook Hother Heq Hq
                  | rect packer' _ Hins _ | rect packer' _ Hins Hw Hh];
    simpl in *; (split; [done|]).
  - intros i b p Hi Hb Hp. unfold placement_for in *. simpl.
    apply lookup_app_Some in Hb as [Hb|[Hge Hb]].
    + pose proof (lookup_lt_Some _ _ _ Hb) as Hlt. rewrite Hlen in Hlt.
      rewrite lookup_app_l in Hp by done.
      destruct (Hrec i b p Hi Hb Hp) as [Hplaced|Hduplicate]; [by left|].
      right. by apply duplicate_of_app.
    + apply list_lookup_singleton_Some in Hb as [Hi0 <-].
      assert (i = length (Packer.points (Packer.self s))) as -> by lia.
      rewrite list_lookup_middle in Hp by done. injection Hp as <-.
      right. apply Hdup in Hlook.
      unfold countable_in_int in Hcount.
      rewrite index_of_int_small in Hother, Hq by lia.
      exists other, q. simpl.
      repeat split; try done; try lia; by apply lookup_app_l_Some.
  - done.
  - intros i b p Hi Hb Hp. unfold placement_for in *. simpl.
    apply lookup_app_Some in Hb as [Hb|[Hge Hb]].
    + pose proof (lookup_lt_Some _ _ _ Hb) as Hlt. rewrite Hlen in Hlt.
      rewrite lookup_app_l in Hp by done.
      destruct (Hrec i b p Hi Hb Hp) as [Hplaced|Hduplicate]; [by left|].
      right. by apply duplicate_of_app.
    + apply list_lookup_singleton_Some in Hb as [Hi0 <-].
      assert (i = length (Packer.points (Packer.self s))) as -> by lia.
      rewrite list_lookup_middle in Hp by done. injection Hp as <-.
      left. split; [done|]. exists (Packer.packer s). rewrite Hins. simpl.
      done.
Qed.
End PackRecords.

(** The traced bin lists every request. *)
Lemma Traced_Insert_listed {B : Type} (bin : RectangleBin B)
    (b : B * list (Z * Z * bool)) (w h : Z) (rotate : bool)
    (method : FreeRectChoiceHeuristic) :
  (Insert (RectangleBin := Traced_RectangleBin bin) b w h rotate method).2.2
  = b.2 ++ [(w, h, rotate)].
Proof. simpl. by destruct (Insert b.1 w h rotate method). Qed.

(** ** What the loop of [Pack] guarantees *)

Section PackClaims.
Context {B : Type} {bin : RectangleBin B} {equals : BitmapEquals}.
Variables (verbose unique rotate : bool).

(** What [Pack] returns is what its placement loop left, but for the
    canvas. *)
Lemma Pack_Done (fuel : nat) (this this' : Packer.t) (input rest' : list Bitmap.t)
    (out : list (nat * string)) :
  Packer.Pack verbose unique rotate fuel this input = Done (this', rest', out) →
  ∃ (st : Packer.locals B) rest,
    Packer.Pack_placement verbose unique rotate this input = Done (st, rest)
    ∧ Packer.bitmaps this' = Packer.bitmaps (Packer.self st)
    ∧ Packer.points this' = Packer.points (Packer.self st)
    ∧ Packer.dupLookup this' = Packer.dupLookup (Packer.self st)
    ∧ Packer.pad this' = Packer.pad (Packer.self st)
    ∧ rest' = rev rest.
Proof.
  unfold Packer.Pack. intros ([st rest] & Hplace & Hrun)%bind_Done.
  apply bind_Done in Hrun as (width' & _ & Hrun).
  apply bind_Done in Hrun as (height' & _ & [= <- <- _]).
  by exists st, rest.
Qed.

(** On a well-formed object the placement loop of [Pack] runs to its end;
    it leaves sequences of one length in which every record appended is the
    placement record of the bitmap at its index, and these are the
    sequences that [Pack] returns. *)
Lemma Pack_placement_run (this : Packer.t) (input : list Bitmap.t) :
  well_formed this → countable_in_int this input →
  ∃ (st : Packer.locals B) rest,
    Packer.Pack_placement verbose unique rotate this input = Done (st, rest)
    ∧ length (Packer.bitmaps (Packer.self st))
      = length (Packer.points (Packer.self st))
    ∧ Packer.pad (Packer.self st) = Packer.pad this
    ∧ (∀ i bitmap p,
         (length (Packer.points this) ≤ i)%nat →
         Packer.bitmaps (Packer.self st) !! i = Some bitmap →
         Packer.points (Packer.self st) !! i = Some p →
         placement_for (B := B) rotate (Packer.self st) i bitmap p)
    ∧ (∀ fuel this' rest' out,
         Packer.Pack verbose unique rotate fuel this input
         = Done (this', rest', out) →
         Packer.bitmaps this' = Packer.bitmaps (Packer.self st)
         ∧ Packer.points this' = Packer.points (Packer.self st)).
Proof.
  intros Hwf Hcount.
  assert (countable_in_int this (rev input)) as Hcount'
    by (unfold countable_in_int in *; by rewrite length_rev).
  destruct (Pack_loop_defined verbose unique rotate (rev input)
    (Packer.mkLocals (MaxRectsBinPack (Packer.width this) (Packer.height this))
       this 0 0 [])) as (st & rest & Hrun); [done | done |].
  exists st, rest. split; [done|].
  pose proof Hrun as Hwf'.
  eapply Pack_loop_well_formed in Hwf' as [[Hlen _] _]; [| done | done].
  pose proof (Pack_loop_appends _ _ _ _ _ _ _ Hrun)
    as (_ & _ & _ & _ & _ & _ & _ & _ & Hpad).
  split; [done|]. split; [done|]. split.
  - intros i bitmap p Hi Hb Hp.
    by eapply Pack_loop_records in Hrun.
  - intros fuel this' rest' out Hpack.
    apply Pack_Done in Hpack as (st' & rest2 & Hrun' & Hbs & Hps & _).
    unfold Packer.Pack_placement in Hrun'. rewrite Hrun in Hrun'.
    by injection Hrun' as <- <-.
Qed.

(** C3. When the item at the back of the input is not a duplicate and
    [Insert] returns a rectangle of width 0 or of height 0, the loop ends
    there without error: that item and the items before it stay in the
    input, and the object and the tight bound are as they were. In every
    run, the items left are the front of the input and the items taken
    are the bitmaps appended. *)
Theorem Pack_stops_when_exhausted :
  (∀ (st : Packer.locals B) (bitmap : Bitmap.t) (rest : list Bitmap.t)
     (rect : Rect.t) (packer' : B),
      Packer.find_duplicate unique (Packer.self st) bitmap = Done None →
      Insert (Packer.packer st)
        (Bitmap.width bitmap + Packer.pad (Packer.self st))
        (Bitmap.height bitmap + Packer.pad (Packer.self st))
        rotate RectBestShortSideFit = (rect, packer') →
      Rect.width rect = 0 ∨ Rect.height rect = 0 →
      ∃ st',
        Packer.Pack_loop verbose unique rotate st (bitmap :: rest)
        = Done (st', bitmap :: rest)
        ∧ Packer.self st' = Packer.self st
        ∧ Packer.ww st' = Packer.ww st ∧ Packer.hh st' = Packer.hh st)
  ∧ (∀ (this : Packer.t) (input rest : list Bitmap.t) (st : Packer.locals B),
      Packer.Pack_placement verbose unique rotate this input = Done (st, rest) →
      ∃ taken,
        input = rev rest ++ rev taken
        ∧ Packer.bitmaps (Packer.self st) = Packer.bitmaps this ++ taken
        ∧ length (Packer.points (Packer.self st))
          = (length (Packer.points this) + length taken)%nat
        ∧ take (length (Packer.points this)) (Packer.points (Packer.self st))
          = Packer.points this).
Proof.
  split.
  - intros st bitmap rest rect packer' Hfind Hins Hzero.
    eexists. simpl.
    pose proof (iteration_exhausted verbose unique rotate st
                  (S (length rest)) bitmap rect packer' Hfind Hins Hzero) as Hit.
    apply Pack_body_iteration in Hit. rewrite Hit. simpl. done.
  - intros this input rest st Hrun.
    apply Pack_loop_appends in Hrun
      as (taken & new & Hstack & Hb & Hp & Hlen & _). simpl in *.
    exists taken. rewrite Hp, length_app, take_app_length.
    repeat split; try done; [|lia].
    by rewrite <- rev_app_distr, <- Hstack, rev_involutive.
Qed.

(** C8. In an iteration that places the item, the record appended has
    [rot] set exactly when [rotate] is set and the width of the bitmap
    differs from the width of the rectangle returned less the padding; and
    on a well-formed object the placement loop runs to its end, and every
    record of its own that it appends, which [Pack] returns, has its [rot]
    determined so by a rectangle the bin returned for its bitmap. *)
Theorem Pack_rot_inferred_from_width :
  (∀ (st : Packer.locals B) (size : nat) (bitmap : Bitmap.t) (rect : Rect.t)
     (packer' : B),
      Packer.find_duplicate unique (Packer.self st) bitmap = Done None →
      Insert (Packer.packer st)
        (Bitmap.width bitmap + Packer.pad (Packer.self st))
        (Bitmap.height bitmap + Packer.pad (Packer.self st))
        rotate RectBestShortSideFit = (rect, packer') →
      Rect.width rect ≠ 0 → Rect.height rect ≠ 0 →
      ∃ st' p,
        Packer.Pack_body verbose unique rotate st size bitmap
        = Done (Packer.Popped st')
        ∧ Packer.bitmaps (Packer.self st')
          = Packer.bitmaps (Packer.self st) ++ [bitmap]
        ∧ Packer.points (Packer.self st')
          = Packer.points (Packer.self st) ++ [p]
        ∧ Point.dupID p = -1
        ∧ (Point.rot p = true ↔
           rotate = true
           ∧ Bitmap.width bitmap ≠ Rect.width rect - Packer.pad (Packer.self st)))
  ∧ (∀ (this : Packer.t) (input : list Bitmap.t),
      well_formed this → countable_in_int this input →
      ∃ (st : Packer.locals B) rest,
        Packer.Pack_placement verbose unique rotate this input = Done (st, rest)
        ∧ (∀ i bitmap p,
             (length (Packer.points this) ≤ i)%nat →
             Packer.bitmaps (Packer.self st) !! i = Some bitmap →
             Packer.points (Packer.self st) !! i = Some p →
             Point.dupID p = -1 →
             ∃ packer : B,
               let rect :=
                 (Insert packer (Bitmap.width bitmap + Packer.pad this)
                    (Bitmap.height bitmap + Packer.pad this)
                    rotate RectBestShortSideFit).1 in
               Rect.width rect ≠ 0 ∧ Rect.height rect ≠ 0
               ∧ (Point.rot p = true ↔
                  rotate = true
                  ∧ Bitmap.width bitmap ≠ Rect.width rect - Packer.pad this))
        ∧ (∀ fuel this' rest' out,
             Packer.Pack verbose unique rotate fuel this input
             = Done (this', rest', out) →
             Packer.bitmaps this' = Packer.bitmaps (Packer.self st)
             ∧ Packer.points this' = Packer.points (Packer.self st))).
Proof.
  split.
  - intros st size bitmap rect packer' Hfind Hins Hw Hh.
    pose proof (iteration_placed verbose unique rotate st size bitmap rect
                  packer' Hfind Hins Hw Hh) as Hit.
    apply Pack_body_iteration in Hit. eexists _, _.
    split; [exact Hit|]. simpl.
    split; [done|]. split; [done|]. split; [done|]. split.
    + intros [-> Hne%negb_true_iff]%andb_prop. split; [done | lia].
    + intros [-> Hne]. simpl. apply negb_true_iff. lia.
  - intros this input Hwf Hcount.
    destruct (Pack_placement_run this input Hwf Hcount)
      as (st & rest & Hrun & _ & Hpad & Hrec & Hret).
    exists st, rest. split; [done|]. split; [|done].
    intros i bitmap p Hi Hb Hp Hid.
    destruct (Hrec i bitmap p Hi Hb Hp)
      as [[_ (packer & Hw & Hh & _ & _ & Hrot)]|(? & ? & Hdup & _)]; [|lia].
    rewrite Hpad in *. exists packer.
    split; [done|]. split; [done|]. rewrite Hrot. split.
    + intros [-> Hne%negb_true_iff]%andb_prop. split; [done | lia].
    + intros [-> Hne]. simpl. apply negb_true_iff. lia.
Qed.

(** C2. On a well-formed object the placement loop of [Pack] runs to its
    end, and every record it appends with a [dupID] that is not negative,
    which [Pack] returns, has the [x], [y] and [rot] of the record at index
    [dupID]; the iteration that appends such a record leaves the bin in the
    state it was in and the tight bound as it was; and on a bin that keeps
    the list of the requests made of it, that list is as it was: [Insert]
    is not called. *)
Theorem Pack_duplicate_copies_canonical :
  (∀ (this : Packer.t) (input : list Bitmap.t),
      well_formed this → countable_in_int this input →
      ∃ (st : Packer.locals B) rest,
        Packer.Pack_placement verbose unique rotate this input = Done (st, rest)
        ∧ (∀ i p,
             (length (Packer.points this) ≤ i)%nat →
             Packer.points (Packer.self st) !! i = Some p →
             0 ≤ Point.dupID p →
             ∃ q, Packer.points (Packer.self st) !! Z.to_nat (Point.dupID p)
                  = Some q
                  ∧ Point.x p = Point.x q ∧ Point.y p = Point.y q
                  ∧ Point.rot p = Point.rot q)
        ∧ (∀ fuel this' rest' out,
             Packer.Pack verbose unique rotate fuel this input
             = Done (this', rest', out) →
             Packer.bitmaps this' = Packer.bitmaps (Packer.self st)
             ∧ Packer.points this' = Packer.points (Packer.self st)))
  ∧ (∀ (st : Packer.locals B) (size : nat) (bitmap : Bitmap.t) (second : Z)
       (c : Packer.control B),
      Packer.find_duplicate unique (Packer.self st) bitmap = Done (Some second) →
      Packer.Pack_body verbose unique rotate st size bitmap = Done c →
      ∃ st' p,
        c = Packer.Popped st'
        ∧ Packer.points (Packer.self st') = Packer.points (Packer.self st) ++ [p]
        ∧ Point.dupID p = second
        ∧ Packer.packer st' = Packer.packer st
        ∧ Packer.ww st' = Packer.ww st ∧ Packer.hh st' = Packer.hh st)
  ∧ (∀ (st : Packer.locals (B * list (Z * Z * bool))) (size : nat)
       (bitmap : Bitmap.t) (second : Z)
       (c : Packer.control (B * list (Z * Z * bool))),
      Packer.find_duplicate unique (Packer.self st) bitmap = Done (Some second) →
      Packer.Pack_body (bin := Traced_RectangleBin bin) verbose unique rotate
        st size bitmap = Done c →
      ∃ st', c = Packer.Popped st'
             ∧ (Packer.packer st').2 = (Packer.packer st).2).
Proof.
  split; [|split].
  - intros this input Hwf Hcount.
    destruct (Pack_placement_run this input Hwf Hcount)
      as (st & rest & Hrun & Hlen & _ & Hrec & Hret).
    exists st, rest. split; [done|]. split; [|done].
    intros i p Hi Hp Hid.
    destruct (Packer.bitmaps (Packer.self st) !! i) as [bitmap|] eqn:Hb.
    2: { apply lookup_ge_None in Hb. apply lookup_lt_Some in Hp. lia. }
    destruct (Hrec i bitmap p Hi Hb Hp)
      as [[Hown _]|(other & q & _ & _ & _ & Hq & _ & Hsame)]; [lia|].
    by exists q.
  - intros st size bitmap second c Hfind Hbody.
    by eapply Pack_body_duplicate.
  - intros st size bitmap second c Hfind Hbody.
    eapply Pack_body_duplicate in Hbody as (st' & p & -> & _ & _ & Hbin & _);
      [|done].
    exists st'. by rewrite Hbin.
Qed.
Lemma find_duplicate_equal (this : Packer.t) (bitmap first : Bitmap.t) (v : Z) :
  Packer.dupLookup this !! Bitmap.hashValue bitmap = Some v →
  Packer.bitmaps this !! index_of_int v = Some first →
  Equals bitmap first = true →
  Packer.find_duplicate true this bitmap = Done (Some v).
Proof.
  intros Hlook Hfirst Heq. unfold Packer.find_duplicate, vector_at.
  rewrite Hlook, Hfirst. simpl. by rewrite Heq.
Qed.

(** C9, as the code has it. With [unique] set, placing an item maps its
    hash to the index of the record appended, whatever the hash was
    mapped to before. A hash stays mapped to its record for as long as
    the items that follow with that hash equal the bitmap of that record,
    and each of them is then recorded as a duplicate of that record. *)
Theorem dupLookup_kept_while_equal :
  (∀ (st : Packer.locals B) (size : nat) (bitmap : Bitmap.t) (rect : Rect.t)
     (packer' : B),
      Packer.find_duplicate true (Packer.self st) bitmap = Done None →
      Insert (Packer.packer st)
        (Bitmap.width bitmap + Packer.pad (Packer.self st))
        (Bitmap.height bitmap + Packer.pad (Packer.self st))
        rotate RectBestShortSideFit = (rect, packer') →
      Rect.width rect ≠ 0 → Rect.height rect ≠ 0 →
      ∃ st',
        Packer.Pack_body verbose true rotate st size bitmap
        = Done (Packer.Popped st')
        ∧ Packer.dupLookup (Packer.self st') !! Bitmap.hashValue bitmap
          = Some (static_cast_int
                    (Z.of_nat (length (Packer.points (Packer.self st))))))
  ∧ (∀ (st : Packer.locals B) (stack : list Bitmap.t) (h : N) (v : Z)
       (first : Bitmap.t),
      well_formed (Packer.self st) →
      countable_in_int (Packer.self st) stack →
      Packer.dupLookup (Packer.self st) !! h = Some v →
      Packer.bitmaps (Packer.self st) !! Z.to_nat v = Some first →
      (∀ b, b ∈ stack → Bitmap.hashValue b = h → Equals b first = true) →
      ∃ st' rest,
        Packer.Pack_loop verbose true rotate st stack = Done (st', rest)
        ∧ Packer.dupLookup (Packer.self st') !! h = Some v
        ∧ ∀ i b p,
            (length (Packer.points (Packer.self st)) ≤ i)%nat →
            Packer.bitmaps (Packer.self st') !! i = Some b →
            Packer.points (Packer.self st') !! i = Some p →
            Bitmap.hashValue b = h →
            Point.dupID p = v).
Proof.
  split.
  - intros st size bitmap rect packer' Hfind Hins Hw Hh.
    pose proof (iteration_placed verbose true rotate st size bitmap rect
                  packer' Hfind Hins Hw Hh) as Hit.
    apply Pack_body_iteration in Hit. eexists. split; [exact Hit|].
    simpl. by rewrite lookup_insert_eq.
  - intros st stack h v first Hwf Hcount Hv Hfirst Hequal.
    destruct (Pack_loop_defined verbose true rotate stack st Hwf Hcount)
      as (st' & rest & Hrun).
    exists st', rest. split; [done|].
    cut ((well_formed (Packer.self st') ∧ countable_in_int (Packer.self st') rest)
         ∧ Packer.dupLookup (Packer.self st') !! h = Some v
         ∧ Packer.bitmaps (Packer.self st') !! Z.to_nat v = Some first
         ∧ (∀ b, b ∈ rest → Bitmap.hashValue b = h → Equals b first = true)
         ∧ ∀ i b p,
             (length (Packer.points (Packer.self st)) ≤ i)%nat →
             Packer.bitmaps (Packer.self st') !! i = Some b →
             Packer.points (Packer.self st') !! i = Some p →
             Bitmap.hashValue b = h →
             Point.dupID p = v);
      [tauto|].
    revert Hrun.
    apply (Pack_loop_invariant verbose true rotate (λ s r,
      (well_formed (Packer.self s) ∧ countable_in_int (Packer.self s) r)
      ∧ Packer.dupLookup (Packer.self s) !! h = Some v
      ∧ Packer.bitmaps (Packer.self s) !! Z.to_nat v = Some first
      ∧ (∀ b, b ∈ r → Bitmap.hashValue b = h → Equals b first = true)
      ∧ ∀ i b p,
          (length (Packer.points (Packer.self st)) ≤ i)%nat →
          Packer.bitmaps (Packer.self s) !! i = Some b →
          Packer.points (Packer.self s) !! i = Some p →
          Bitmap.hashValue b = h →
          Point.dupID p = v)).
    2: { split; [done|]. split; [done|]. split; [done|]. split; [done|].
         intros i b p Hi _ Hp. apply lookup_lt_Some in Hp. lia. }
    clear Hwf Hcount Hv Hfirst Hequal.
    intros s bitmap r c ([Hwf Hcount] & Hv & Hfirst & Hequal & Hrec) Hit.
    pose proof (iteration_well_formed _ _ _ _ _ _ _ Hwf Hcount Hit) as Hnext.
    destruct Hwf as [Hlen Hdup].
    assert (∀ b, b ∈ r → Bitmap.hashValue b = h → Equals b first = true)
      as Hequal' by (intros b Hb; apply Hequal; by right).
    assert (Bitmap.hashValue bitmap = h →
            Packer.find_duplicate true (Packer.self s) bitmap = Done (Some v))
      as Hfound.
    { intros Hh. apply (find_duplicate_equal _ _ first).
      - by rewrite Hh.
      - apply Hdup in Hv. unfold countable_in_int in Hcount.
        by rewrite index_of_int_small by lia.
      - apply Hequal; [by left | done]. }
    destruct Hit as [second other q _ Hlook Hother Heq Hq
                    | rect packer' Hnone Hins _ | rect packer' Hnone Hins Hw Hh];
      simpl in *.
    + split; [done|]. split; [done|].
      split; [by apply lookup_app_l_Some|]. split; [done|].
      intros i b p Hi Hb Hp Hh.
      apply lookup_app_Some in Hb as [Hb|[Hge Hb]].
      * pose proof (lookup_lt_Some _ _ _ Hb) as Hlt. rewrite Hlen in Hlt.
        rewrite lookup_app_l in Hp by done. by eapply Hrec.
      * apply list_lookup_singleton_Some in Hb as [Hi0 <-].
        assert (i = length (Packer.points (Packer.self s))) as -> by lia.
        rewrite list_lookup_middle in Hp by done. injection Hp as <-.
        simpl. rewrite Hh in Hlook. congruence.
    + split; [done|]. split; [done|]. split; [done|]. by split.
    + assert (Bitmap.hashValue bitmap ≠ h) as Hne
        by (intros Hh'; apply Hfound in Hh'; congruence).
      split; [done|]. split; [by rewrite lookup_insert_ne|].
      split; [by apply lookup_app_l_Some|]. split; [done|].
      intros i b p Hi Hb Hp Hh'.
      apply lookup_app_Some in Hb as [Hb|[Hge Hb]].
      * pose proof (lookup_lt_Some _ _ _ Hb) as Hlt. rewrite Hlen in Hlt.
        rewrite lookup_app_l in Hp by done. by eapply Hrec.
      * by apply list_lookup_singleton_Some in Hb as [Hi0 <-].
Qed.
End PackClaims.

(** ** apply_permutation_in_place *)

Lemma pending_insert (done : list bool) (j : nat) :
  done !! j = Some false → (pending (<[j:=true]> done) < pending done)%nat.
Proof.
  unfold pending. revert j. induction done as [|b done IH]; intros [|j] Hj;
    simplify_eq/=.
  - rewrite filter_cons. case_decide; [done | lia].
  - specialize (IH j Hj). rewrite !filter_cons.
    case_decide; simpl; lia.
Qed.

Lemma pending_le_length (done : list bool) : (pending done ≤ length done)%nat.
Proof. apply length_filter. Qed.

Lemma swap_lookup {T : Type} (vec : list T) (a b k : nat) (va vb : T) :
  vec !! a = Some va → vec !! b = Some vb →
  <[b:=va]> (<[a:=vb]> vec) !! k
  = if decide (k = b) then Some va
    else if decide (k = a) then Some vb else vec !! k.
Proof.
  intros Ha Hb. apply lookup_lt_Some in Ha, Hb.
  destruct (decide (k = b)) as [->|Hkb].
  - by rewrite list_lookup_insert_eq by (by rewrite length_insert).
  - rewrite list_lookup_insert_ne by done.
    destruct (decide (k = a)) as [->|Hka].
    + by rewrite list_lookup_insert_eq.
    + by rewrite list_lookup_insert_ne.
Qed.

Section ApplyPermutation.
Context {T : Type}.
Variables (p : list nat) (vec0 : list T).
Hypothesis Hp : Permutation p (seq 0 (length vec0)).

Lemma permutation_range (k j : nat) :
  p !! k = Some j → (j < length vec0)%nat ∧ (k < length vec0)%nat.
Proof.
  intros Hk. split.
  - apply list_elem_of_lookup_2 in Hk. rewrite Hp in Hk.
    apply elem_of_seq in Hk. lia.
  - apply lookup_lt_Some in Hk. apply Permutation_length in Hp.
    rewrite length_seq in Hp. lia.
Qed.

Lemma permutation_total (k : nat) :
  (k < length vec0)%nat → ∃ j, p !! k = Some j.
Proof.
  intros Hk. apply lookup_lt_is_Some_2. apply Permutation_length in Hp.
  rewrite length_seq in Hp. lia.
Qed.

Lemma permutation_inj (k1 k2 j : nat) :
  p !! k1 = Some j → p !! k2 = Some j → k1 = k2.
Proof.
  apply NoDup_lookup. rewrite Hp. apply NoDup_seq.
Qed.

Lemma in_cycle_closed (i prev_j : nat) (vec : list T) (done : list bool) :
  in_cycle p vec0 i prev_j i vec done → settled p vec0 vec done.
Proof.
  intros (Hlv & Hld & Hprev & Hi & Hdprev & HA & HB & HE & HC & HD).
  split; [done|]. split; [done|]. split; [|split; [done|split]].
  - intros k j Hk Hkj. destruct (decide (k = prev_j)) as [->|Hne].
    + by simplify_eq.
    + by eapply HA.
  - intros k j Hk Hkj. destruct (decide (k = prev_j)) as [->|Hne].
    + by simplify_eq.
    + by eapply HC.
  - intros k j Hj Hkj. destruct (decide (j = i)) as [->|Hne].
    + by rewrite (permutation_inj _ _ _ Hkj Hprev).
    + by eapply HD.
Qed.

Lemma in_cycle_step (i prev_j j j' : nat) (vec : list T) (done : list bool)
    (va vb : T) :
  in_cycle p vec0 i prev_j j vec done → i ≠ j →
  vec !! prev_j = Some va → vec !! j = Some vb → p !! j = Some j' →
  done !! j = Some false
  ∧ in_cycle p vec0 i j j' (<[j:=va]> (<[prev_j:=vb]> vec)) (<[j:=true]> done).
Proof.
  intros (Hlv & Hld & Hprev & Hi & Hdprev & HA & HB & HE & HC & HD)
    Hij Hva Hvb Hj'.
  pose proof (permutation_range _ _ Hprev) as [Hjn Hprevn].
  assert (done !! j = Some false) as Hdj.
  { destruct (done !! j) as [[]|] eqn:Hd.
    - destruct (HD prev_j j); done.
    - done.
    - apply lookup_ge_None in Hd. lia. }
  assert (prev_j ≠ j) as Hne by (intros ->; congruence).
  assert (∀ k, <[j:=true]> done !! k
               = if decide (k = j) then Some true else done !! k) as Hdone.
  { intros k. case_decide as Hk.
    - subst k. apply list_lookup_insert_eq. lia.
    - by apply list_lookup_insert_ne. }
  pose proof (swap_lookup vec prev_j j) as Hswap.
  split; [done|].
  split; [by rewrite !length_insert|]. split; [by rewrite length_insert|].
  split; [done|]. split.
  { rewrite Hdone. by case_decide. }
  split.
  { rewrite Hdone. by case_decide. }
  split.
  { intros k j'' Hk Hkj Hpk. rewrite Hdone in Hk.
    rewrite (Hswap k va vb Hva Hvb). repeat case_decide; try done.
    - subst k. rewrite <- Hvb. assert (j'' = j) as -> by congruence.
      by apply HB.
    - by eapply HA. }
  split.
  { intros k Hk. rewrite Hdone in Hk. case_decide; [done|].
    rewrite (Hswap k va vb Hva Hvb). repeat case_decide; try done.
    - congruence.
    - by apply HB. }
  split.
  { rewrite (Hswap j va vb Hva Hvb). case_decide; [|done].
    by rewrite <- Hva. }
  split.
  { intros k j'' Hk Hkj Hpk. rewrite Hdone in Hk |- *.
    case_decide; [done|]. case_decide; [done|].
    destruct (decide (k = prev_j)) as [->|Hkp]; [congruence|].
    by eapply HC. }
  intros k j'' Hj'' Hne' Hpk. rewrite Hdone in Hj'' |- *.
  destruct (decide (j'' = j)) as [->|Hjj].
  - rewrite (permutation_inj _ _ _ Hpk Hprev). by case_decide.
  - destruct (HD k j'' Hj'' Hne' Hpk) as [Hk Hkp].
    case_decide; [congruence | done].
Qed.

(** The loop over a cycle neither reads past an end nor runs out of fuel
    while fuel is left for the positions pending, and it closes the
    cycle. *)
Lemma follow_cycle_spec (fuel i prev_j j : nat) (vec : list T)
    (done : list bool) :
  in_cycle p vec0 i prev_j j vec done →
  match follow_cycle fuel p i prev_j j vec done with
  | Done (vec', done') =>
      settled p vec0 vec' done'
      ∧ ∀ k, done !! k = Some true → done' !! k = Some true
  | Undefined => False
  | OutOfFuel => (fuel ≤ pending done)%nat
  end.
Proof.
  revert prev_j j vec done.
  induction fuel as [|fuel IH]; intros prev_j j vec done Hin; simpl; [lia|].
  destruct (decide (i = j)) as [<-|Hij].
  { split; [by eapply in_cycle_closed | done]. }
  pose proof Hin as (Hlv & Hld & Hprev & _).
  pose proof (permutation_range _ _ Hprev) as [Hjn Hprevn].
  destruct (lookup_lt_is_Some_2 vec prev_j) as [va Hva]; [lia|].
  destruct (lookup_lt_is_Some_2 vec j) as [vb Hvb]; [lia|].
  destruct (permutation_total j Hjn) as [j' Hj'].
  destruct (in_cycle_step _ _ _ _ _ _ _ _ Hin Hij Hva Hvb Hj') as [Hdj Hnext].
  unfold swap, vector_at, vector_set. rewrite Hva, Hvb. simpl.
  rewrite decide_True by lia. simpl. rewrite Hj'. simpl.
  specialize (IH _ _ _ _ Hnext).
  pose proof (pending_insert done j Hdj) as Hless.
  destruct (follow_cycle fuel p i j j' _ _) as [[vec' done']| |];
    [|done|lia].
  destruct IH as [Hsettled Hmono]. split; [done|].
  intros k Hk. apply Hmono.
  destruct (decide (k = j)) as [->|Hkj]; [congruence|].
  by rewrite list_lookup_insert_ne.
Qed.

Lemma settled_in_cycle (i j : nat) (vec : list T) (done : list bool) :
  settled p vec0 vec done → done !! i = Some false → p !! i = Some j →
  in_cycle p vec0 i i j vec (<[i:=true]> done).
Proof.
  intros (Hlv & Hld & HA & HB & HC & HD) Hdi Hpi.
  pose proof (lookup_lt_Some _ _ _ Hdi) as Hi.
  assert (∀ k, <[i:=true]> done !! k
               = if decide (k = i) then Some true else done !! k) as Hdone.
  { intros k. case_decide as Hk.
    - subst k. by apply list_lookup_insert_eq.
    - by apply list_lookup_insert_ne. }
  split; [done|]. split; [by rewrite length_insert|]. split; [done|].
  split; [by rewrite Hdone, decide_True|].
  split; [by rewrite Hdone, decide_True|].
  split.
  { intros k j' Hk Hne Hpk. rewrite Hdone, decide_False in Hk by done.
    by eapply HA. }
  split.
  { intros k Hk. rewrite Hdone in Hk. case_decide; [done|]. by apply HB. }
  split; [by apply HB|].
  split.
  { intros k j' Hk Hne Hpk. rewrite Hdone, decide_False in Hk by done.
    rewrite Hdone. case_decide; [done|]. by eapply HC. }
  intros k j' Hj' Hne Hpk. rewrite Hdone, decide_False in Hj' by done.
  pose proof (HD k j' Hj' Hpk) as Hk.
  assert (k ≠ i) by (intros ->; congruence).
  by rewrite Hdone, decide_False.
Qed.

Lemma apply_permutation_body_spec (fuel i : nat) (vec : list T)
    (done : list bool) :
  settled p vec0 vec done → (i < length vec0)%nat →
  match apply_permutation_body fuel p i (vec, done) with
  | Done (vec', done') =>
      settled p vec0 vec' done'
      ∧ done' !! i = Some true
      ∧ ∀ k, done !! k = Some true → done' !! k = Some true
  | Undefined => False
  | OutOfFuel => (fuel ≤ length vec0)%nat
  end.
Proof.
  intros Hsettled Hi. pose proof Hsettled as (Hlv & Hld & _).
  unfold apply_permutation_body, vector_at, vector_set.
  destruct (lookup_lt_is_Some_2 done i) as [d Hd]; [lia|].
  rewrite Hd. simpl. destruct d; [done|].
  rewrite decide_True by lia. simpl.
  destruct (permutation_total i Hi) as [j Hj]. rewrite Hj. simpl.
  pose proof (follow_cycle_spec fuel i i j vec (<[i:=true]> done)
                (settled_in_cycle _ _ _ _ Hsettled Hd Hj)) as Hcycle.
  destruct (follow_cycle fuel p i i j vec _) as [[vec' done']| |]; [|done|].
  - destruct Hcycle as [Hs Hmono]. split; [done|]. split.
    + apply Hmono. apply list_lookup_insert_eq. lia.
    + intros k Hk. apply Hmono.
      destruct (decide (k = i)) as [->|Hne]; [congruence|].
      by rewrite list_lookup_insert_ne.
  - pose proof (pending_le_length (<[i:=true]> done)) as Hle.
    rewrite length_insert in Hle. lia.
Qed.

Lemma apply_permutation_loop_spec (fuel len : nat) :
  ∀ (a : nat) (vec : list T) (done : list bool),
    (a + len = length vec0)%nat → settled p vec0 vec done →
    (∀ k, (k < a)%nat → done !! k = Some true) →
    match for_each (seq a len) (apply_permutation_body fuel p) (vec, done) with
    | Done (vec', done') =>
        settled p vec0 vec' done'
        ∧ ∀ k, (k < length vec0)%nat → done' !! k = Some true
    | Undefined => False
    | OutOfFuel => (fuel ≤ length vec0)%nat
    end.
Proof.
  induction len as [|len IH]; intros a vec done Hlen Hsettled Hbelow.
  - simpl. split; [done|]. intros k Hk. apply Hbelow. lia.
  - assert (a < length vec0)%nat as Ha by lia.
    pose proof (apply_permutation_body_spec fuel a vec done Hsettled Ha)
      as Hbody.
    replace (seq a (S len)) with (a :: seq (S a) len) by done.
    rewrite for_each_cons.
    destruct (apply_permutation_body fuel p a (vec, done))
      as [[vec1 done1]| |]; simpl; [|done..].
    destruct Hbody as (Hs1 & Hda & Hmono).
    apply IH; [lia | done |].
    intros k Hk. destruct (decide (k = a)) as [->|Hne]; [done|].
    apply Hmono, Hbelow. lia.
Qed.

(** [apply_permutation_in_place] puts [vec0[p[k]]] at every [k], reads
    nothing past an end, and needs no more fuel than [vec0] is long. *)
Lemma apply_permutation_in_place_spec (fuel : nat) :
  match apply_permutation_in_place fuel vec0 p with
  | Done vec' => permuted_by p vec0 vec'
  | Undefined => False
  | OutOfFuel => (fuel ≤ length vec0)%nat
  end.
Proof.
  assert (settled p vec0 vec0 (replicate (length vec0) false)) as Hinit.
  { split; [done|]. split; [by rewrite length_replicate|].
    split; [|split; [done|split]]; by intros k j [? _]%lookup_replicate. }
  pose proof (apply_permutation_loop_spec fuel (length vec0) 0 vec0 _
                eq_refl Hinit) as Hloop.
  unfold apply_permutation_in_place.
  destruct (for_each _ _ _) as [[vec' done']| |]; simpl;
    [|apply Hloop; lia..].
  destruct Hloop as [(Hlv & Hld & HA & _) Hall]; [lia|].
  split; [done|]. intros k j Hk. apply HA; [|done].
  apply Hall. by eapply permutation_range.
Qed.
End ApplyPermutation.

(** ** Reordering and permutations *)

Lemma omap_lookup_seq {T : Type} (pre vec : list T) :
  omap (λ j, (pre ++ vec) !! j) (seq (length pre) (length vec)) = vec.
Proof.
  revert pre. induction vec as [|x vec IH]; intros pre; [done|]. simpl.
  rewrite list_lookup_middle by done. f_equal.
  specialize (IH (pre ++ [x])). rewrite length_app, <- (assoc_L (++)) in IH.
  simpl in IH. by rewrite Nat.add_1_r in IH.
Qed.

Lemma permuted_by_omap {T : Type} (p : list nat) (vec vec' : list T) :
  length vec' = length p →
  (∀ k j, p !! k = Some j → vec' !! k = vec !! j) →
  vec' = omap (λ j, vec !! j) p.
Proof.
  revert vec'. induction p as [|j p IH]; intros vec' Hlen Hat.
  - by destruct vec'.
  - destruct vec' as [|x vec']; [done|]. simpl.
    rewrite <- (Hat 0%nat j eq_refl). simpl. f_equal.
    apply IH; [by injection Hlen|]. intros k j' Hk. by apply (Hat (S k)).
Qed.

(** Reordering by a permutation of the indices gives a permutation. *)
Lemma permuted_by_Permutation {T : Type} (p : list nat) (vec vec' : list T) :
  Permutation p (seq 0 (length vec)) → permuted_by p vec vec' →
  Permutation vec' vec.
Proof.
  intros Hp [Hlen Hat].
  rewrite (permuted_by_omap p vec vec'); [| |done].
  - rewrite Hp. pose proof (omap_lookup_seq [] vec) as Hall.
    simpl in Hall. by rewrite Hall.
  - apply Permutation_length in Hp. rewrite length_seq in Hp. lia.
Qed.

Lemma permuted_by_zip {U T : Type} (p : list nat) (l l' : list U)
    (k k' : list T) :
  permuted_by p l l' → permuted_by p k k' →
  permuted_by p (zip l k) (zip l' k').
Proof.
  intros [Hl Hlat] [Hk Hkat]. split.
  - rewrite !length_zip_with. lia.
  - intros i j Hi. rewrite !lookup_zip_with.
    by rewrite (Hlat i j Hi), (Hkat i j Hi).
Qed.

(** ** The order of the names *)

Lemma name_less_irrefl (a : Bitmap.t) : Packer.name_less a a = false.
Proof.
  unfold Packer.name_less.
  pose proof (proj2 (String_as_OT.cmp_eq (Bitmap.name a) (Bitmap.name a))
                eq_refl) as Heq.
  unfold String_as_OT.cmp in Heq. by rewrite Heq.
Qed.

Lemma name_less_trans (a b c : Bitmap.t) :
  Packer.name_less a b = true → Packer.name_less b c = true →
  Packer.name_less a c = true.
Proof.
  unfold Packer.name_less.
  destruct (String.compare (Bitmap.name a) (Bitmap.name b)) eqn:Hab; try done.
  destruct (String.compare (Bitmap.name b) (Bitmap.name c)) eqn:Hbc; try done.
  intros _ _. apply String_as_OT.cmp_lt in Hab, Hbc.
  pose proof (String_as_OT.lt_trans _ _ _ Hab Hbc) as Hac.
  apply String_as_OT.cmp_lt in Hac. unfold String_as_OT.cmp in Hac.
  by rewrite Hac.
Qed.

Lemma name_less_total (a b : Bitmap.t) :
  Packer.name_less a b = false →
  Bitmap.name a = Bitmap.name b ∨ Packer.name_less b a = true.
Proof.
  unfold Packer.name_less.
  rewrite (String.compare_antisym (Bitmap.name b) (Bitmap.name a)).
  destruct (String.compare (Bitmap.name a) (Bitmap.name b)) eqn:Hab;
    simpl; intros ?; try done.
  - left. by apply String.compare_eq_iff.
  - by right.
Qed.

Lemma name_less_incomparable (a b c : Bitmap.t) :
  Packer.name_less a b = false → Packer.name_less b c = false →
  Packer.name_less a c = false.
Proof.
  intros Hab Hbc. destruct (Packer.name_less a c) eqn:Hac; [|done].
  destruct (name_less_total a b Hab) as [Heq|Hba].
  - unfold Packer.name_less in *. rewrite Heq in Hac. congruence.
  - pose proof (name_less_trans _ _ _ Hba Hac). congruence.
Qed.

Lemma compare_at_name_less_ordering (vec : list Bitmap.t) :
  strict_weak_ordering (compare_at vec Packer.name_less) (seq 0 (length vec)).
Proof.
  unfold compare_at. split.
  - intros a _. destruct (vec !! a); [apply name_less_irrefl | done].
  - intros a b c _ _ _.
    destruct (vec !! a), (vec !! b), (vec !! c); try done.
    apply name_less_trans.
  - intros a b c _ Hb _.
    apply elem_of_seq in Hb. destruct (lookup_lt_is_Some_2 vec b) as [y Hy];
      [lia|]. rewrite Hy.
    destruct (vec !! a), (vec !! c); try done.
    apply name_less_incomparable.
Qed.

(** ** Insertion sorting keeps the contract of [std::sort] *)

Section InsertionSort.
Context {T : Type}.
Variable comp : T → T → bool.

Lemma insert_ahead_Permutation (a : T) (l : list T) :
  Permutation (insert_ahead comp a l) (a :: l).
Proof.
  induction l as [|b l IH]; simpl; [done|].
  destruct (comp b a); [|done]. rewrite IH. apply perm_swap.
Qed.

Lemma insertion_sort_Permutation (l : list T) :
  Permutation (insertion_sort comp l) l.
Proof.
  induction l as [|a l IH]; simpl; [done|].
  by rewrite insert_ahead_Permutation, IH.
Qed.

Lemma strict_weak_ordering_subseteq (l l' : list T) :
  l' ⊆ l → strict_weak_ordering comp l → strict_weak_ordering comp l'.
Proof.
  intros Hsub [Hirr Htrans Hinc]. split.
  - intros a Ha. by apply Hirr, Hsub.
  - intros a b c Ha Hb Hc. apply Htrans; by apply Hsub.
  - intros a b c Ha Hb Hc. apply Hinc; by apply Hsub.
Qed.

Lemma insert_ahead_sorted (a : T) (l : list T) :
  strict_weak_ordering comp (a :: l) →
  StronglySorted (λ x y, comp y x = false) l →
  StronglySorted (λ x y, comp y x = false) (insert_ahead comp a l).
Proof.
  intros Hswo Hsorted. induction Hsorted as [|b l Hsorted IH Hb]; simpl.
  - repeat constructor.
  - destruct Hswo as [Hirr Htrans Hinc].
    destruct (comp b a) eqn:Hba.
    + constructor.
      * apply IH. apply (strict_weak_ordering_subseteq (a :: b :: l));
          [|by split].
        intros x [->|Hx]%elem_of_cons; [by left | by do 2 right].
      * apply Forall_forall. intros y Hy.
        rewrite insert_ahead_Permutation in Hy.
        apply elem_of_cons in Hy as [->|Hy].
        -- destruct (comp a b) eqn:Hab; [|done].
           rewrite <- (Hirr a); [|set_solver].
           symmetry. apply (Htrans a b a); [set_solver..|done|done].
        -- rewrite Forall_forall in Hb. by apply Hb.
    + constructor; [by constructor|]. constructor; [done|].
      apply Forall_forall. intros y Hy.
      rewrite Forall_forall in Hb. specialize (Hb y Hy). simpl in Hb.
      apply (Hinc y b a); [set_solver..|done|done].
Qed.

Lemma insertion_sort_sorted (l : list T) :
  strict_weak_ordering comp l →
  StronglySorted (λ x y, comp y x = false) (insertion_sort comp l).
Proof.
  induction l as [|a l IH]; intros Hswo; simpl; [constructor|].
  apply insert_ahead_sorted.
  - apply (strict_weak_ordering_subseteq (a :: l)); [|done].
    intros x. by rewrite insertion_sort_Permutation.
  - apply IH. apply (strict_weak_ordering_subseteq (a :: l)); [|done].
    set_solver.
Qed.

Lemma StronglySorted_sorted_wrt (l : list T) :
  StronglySorted (λ x y, comp y x = false) l → sorted_wrt comp l.
Proof.
  intros Hsorted. induction Hsorted as [|a l Hsorted IH Ha].
  - by intros i j x y _ ?.
  - intros [|i] [|j] x y Hij Hx Hy; simpl in *; [lia | | lia |].
    + injection Hx as ->. rewrite Forall_forall in Ha.
      apply Ha. by eapply list_elem_of_lookup_2.
    + apply (IH i j); [lia | done..].
Qed.





End InsertionSort.

Definition insertion_StdSort : StdSort :=
  {| std_sort := @insertion_sort;
     std_sort_Permutation := λ T comp l _, insertion_sort_Permutation comp l;
     std_sort_sorted := λ T comp l Hswo,
       StronglySorted_sorted_wrt comp _ (insertion_sort_sorted comp l Hswo) |}.

(** ** The stable sort by name *)







(** ** The sorting of [SaveBin] *)

Section SaveBinSort.
Context {sorter : StdSort}.

Lemma sort_permutation_spec (vec : list Bitmap.t) :
  Permutation (sort_permutation vec Packer.name_less) (seq 0 (length vec))
  ∧ sorted_wrt (compare_at vec Packer.name_less)
      (sort_permutation vec Packer.name_less).
Proof.
  unfold sort_permutation. split.
  - apply std_sort_Permutation, compare_at_name_less_ordering.
  - apply std_sort_sorted, compare_at_name_less_ordering.
Qed.

Lemma permuted_by_sorted (p : list nat) (vec vec' : list Bitmap.t) :
  Permutation p (seq 0 (length vec)) →
  sorted_wrt (compare_at vec Packer.name_less) p →
  permuted_by p vec vec' →
  sorted_wrt Packer.name_less vec'.
Proof.
  intros Hp Hsorted [Hlen Hat] i j a b Hij Ha Hb.
  apply Permutation_length in Hp. rewrite length_seq in Hp.
  destruct (lookup_lt_is_Some_2 p i) as [pi Hpi];
    [apply lookup_lt_Some in Ha; lia|].
  destruct (lookup_lt_is_Some_2 p j) as [pj Hpj];
    [apply lookup_lt_Some in Hb; lia|].
  specialize (Hsorted i j pi pj Hij Hpi Hpj). unfold compare_at in Hsorted.
  by rewrite <- (Hat i pi Hpi), <- (Hat j pj Hpj), Ha, Hb in Hsorted.
Qed.

(** The sorting of [SaveBin] reads nothing past an end, needs no more
    fuel than there are records, and reorders both sequences by one
    permutation that sorts the names. *)
Lemma SaveBin_sort_spec (fuel : nat) (this : Packer.t) :
  length (Packer.bitmaps this) = length (Packer.points this) →
  match Packer.SaveBin_sort fuel this with
  | Done this' =>
      ∃ p, Permutation p (seq 0 (length (Packer.bitmaps this)))
           ∧ permuted_by p (Packer.bitmaps this) (Packer.bitmaps this')
           ∧ permuted_by p (Packer.points this) (Packer.points this')
           ∧ sorted_wrt Packer.name_less (Packer.bitmaps this')
           ∧ Packer.width this' = Packer.width this
           ∧ Packer.height this' = Packer.height this
           ∧ Packer.pad this' = Packer.pad this
           ∧ Packer.dupLookup this' = Packer.dupLookup this
  | Undefined => False
  | OutOfFuel => (fuel ≤ length (Packer.bitmaps this))%nat
  end.
Proof.
  intros Hlen. unfold Packer.SaveBin_sort.
  destruct (sort_permutation_spec (Packer.bitmaps this)) as [Hp Hsorted].
  pose proof (apply_permutation_in_place_spec _ (Packer.bitmaps this) Hp fuel)
    as Hbitmaps.
  pose proof Hp as Hp'. rewrite Hlen in Hp'.
  pose proof (apply_permutation_in_place_spec _ (Packer.points this) Hp' fuel)
    as Hpoints.
  destruct (apply_permutation_in_place fuel (Packer.bitmaps this) _)
    as [bitmaps'| |]; simpl; [|done..].
  destruct (apply_permutation_in_place fuel (Packer.points this) _)
    as [points'| |]; simpl; [|done|lia].
  eexists. split; [exact Hp|]. split; [done|]. split; [done|].
  split; [by eapply permuted_by_sorted|]. done.
Qed.

(** X24. Whatever the names are, two bitmaps of one name included: given
    at least one unit of fuel more than there are records, and sequences of
    one length, the sorting at the head of [SaveBin] reorders [bitmaps] and
    [points] by one and the same permutation of the indices, and leaves the
    names in ascending order: no bitmap is followed by one whose name
    compares less. Nothing is said of the order of bitmaps of one name,
    which is the order [std::sort] leaves. [SaveBin] returns the object so
    reordered. *)
Theorem SaveBin_sorts_by_name (fuel : nat) (this : Packer.t) :
  length (Packer.bitmaps this) = length (Packer.points this) →
  (length (Packer.bitmaps this) < fuel)%nat →
  ∃ this' p,
    Packer.SaveBin_sort fuel this = Done this'
    ∧ Permutation p (seq 0 (length (Packer.bitmaps this)))
    ∧ permuted_by p (Packer.bitmaps this) (Packer.bitmaps this')
    ∧ permuted_by p (Packer.points this) (Packer.points this')
    ∧ (∀ i j a b, (i < j)%nat →
         Packer.bitmaps this' !! i = Some a →
         Packer.bitmaps this' !! j = Some b →
         (Bitmap.name a ?= Bitmap.name b)%string ≠ Gt)
    ∧ ∀ (writer : BinaryWriter) name bin trim rotate version alignment r,
        Packer.SaveBin fuel this name bin trim rotate version alignment
        = Done r → r.1.1 = this'.
Proof.
  intros Hlen Hfuel. pose proof (SaveBin_sort_spec fuel this Hlen) as Hspec.
  destruct (Packer.SaveBin_sort fuel this) as [this'| |] eqn:Hsort;
    [|done|lia].
  destruct Hspec as (p & Hp & Hbitmaps & Hpoints & Hsorted & _).
  exists this', p. repeat (split; [done|]). split.
  - intros i j a b Hij Ha Hb Hgt.
    specialize (Hsorted i j a b Hij Ha Hb). unfold Packer.name_less in Hsorted.
    rewrite String.compare_antisym, Hgt in Hsorted. done.
  - intros writer name bin trim rotate version alignment r.
    unfold Packer.SaveBin. rewrite Hsort. simpl.
    intros (bin1 & _ & Hrun)%bind_Done.
    apply bind_Done in Hrun as ([bin2 cerr] & _ & [= <-]). done.
Qed.

End SaveBinSort.

(** ** The pairing of bitmaps and records *)

(** C7. On a well-formed object the placement loop of [Pack] runs to its
    end and leaves two sequences of one length, in which every record
    appended is the placement record of the bitmap at its index; these are
    the sequences that [Pack] returns. Given sequences of one length and
    fuel for it, the sorting of [SaveBin] leaves two sequences of one length
    that hold, index by index, the pairs of bitmap and record that were
    there before it, reordered; these are the sequences that [SaveBin]
    returns. [SavePng], [SaveXml] and [SaveJson] leave the object as it
    was. *)
Theorem index_alignment_kept :
  (∀ (B : Type) (bin : RectangleBin B) (equals : BitmapEquals)
     (verbose unique rotate : bool) (this : Packer.t) (input : list Bitmap.t),
      well_formed this → countable_in_int this input →
      ∃ (st : Packer.locals B) rest,
        Packer.Pack_placement verbose unique rotate this input = Done (st, rest)
        ∧ length (Packer.bitmaps (Packer.self st))
          = length (Packer.points (Packer.self st))
        ∧ (∀ i bitmap p,
             (length (Packer.points this) ≤ i)%nat →
             Packer.bitmaps (Packer.self st) !! i = Some bitmap →
             Packer.points (Packer.self st) !! i = Some p →
             placement_for (B := B) rotate (Packer.self st) i bitmap p)
        ∧ (∀ fuel this' rest' out,
             Packer.Pack verbose unique rotate fuel this input
             = Done (this', rest', out) →
             Packer.bitmaps this' = Packer.bitmaps (Packer.self st)
             ∧ Packer.points this' = Packer.points (Packer.self st)))
  ∧ (∀ (sorter : StdSort) (fuel : nat) (this : Packer.t),
      length (Packer.bitmaps this) = length (Packer.points this) →
      (length (Packer.bitmaps this) < fuel)%nat →
      ∃ this',
        Packer.SaveBin_sort fuel this = Done this'
        ∧ length (Packer.bitmaps this') = length (Packer.points this')
        ∧ Permutation (zip (Packer.bitmaps this') (Packer.points this'))
            (zip (Packer.bitmaps this) (Packer.points this))
        ∧ ∀ (writer : BinaryWriter) name bin trim rotate version alignment r,
            Packer.SaveBin fuel this name bin trim rotate version alignment
            = Done r → r.1.1 = this')
  ∧ (∀ (this : Packer.t) (name stream : string) (trim rotate : bool),
      (∀ r, Packer.SavePng this name = Done r → r.1 = this)
      ∧ (∀ r, Packer.SaveXml this name stream trim rotate = Done r → r.1 = this)
      ∧ (∀ r, Packer.SaveJson this name stream trim rotate = Done r →
              r.1 = this)).
Proof.
  split; [|split].
  - intros B bin equals verbose unique rotate this input Hwf Hcount.
    destruct (Pack_placement_run verbose unique rotate this input Hwf Hcount)
      as (st & rest & Hrun & Hlen & _ & Hrec & Hret).
    by exists st, rest.
  - intros sorter fuel this Hlen Hfuel.
    pose proof (SaveBin_sort_spec fuel this Hlen) as Hspec.
    destruct (Packer.SaveBin_sort fuel this) as [this'| |] eqn:Hsort;
      [|done|lia].
    destruct Hspec as (p & Hp & Hbitmaps & Hpoints & _).
    exists this'. split; [done|]. split; [|split].
    + destruct Hbitmaps as [-> _]. by destruct Hpoints as [-> _].
    + apply (permuted_by_Permutation p).
      * by rewrite length_zip_with, <- Hlen, Nat.min_id.
      * by apply permuted_by_zip.
    + intros writer name bin trim rotate version alignment r.
      unfold Packer.SaveBin. rewrite Hsort. simpl.
      intros (bin1 & _ & Hrun)%bind_Done.
      by apply bind_Done in Hrun as ([bin2 cerr] & _ & [= <-]).
  - intros this name stream trim rotate.
    unfold Packer.SavePng, Packer.SaveXml, Packer.SaveJson.
    repeat split; by intros r (x & _ & [= <-])%bind_Done.
Qed.

(** ** The padding and the records of [SaveBin] *)

Lemma alignStream_spec (bin : list byte) (alignment : Z) :
  0 < alignment ≤ 4096 →
  alignStream bin alignment
  = Done (bin ++ replicate (Z.to_nat (alignment - tellp bin mod alignment)) x00)
  ∧ 1 ≤ alignment - tellp bin mod alignment ≤ alignment.
Proof.
  intros Ha. unfold alignStream.
  assert (0 ≤ tellp bin) as Hpos by (unfold tellp; lia).
  pose proof (Z.mod_pos_bound (tellp bin) alignment ltac:(lia)) as Hmod.
  rewrite (proj2 (Z.ltb_ge _ _)) by lia.
  rewrite (proj2 (Z.eqb_neq _ _)) by lia.
  rewrite Z.rem_mod_nonneg by lia.
  rewrite (proj2 (Z.leb_le _ _)) by done.
  rewrite (proj2 (Z.ltb_lt _ _)) by lia.
  split; [done | lia].
Qed.

(** After [alignStream] the position is a multiple of the alignment, and
    beyond where it was. *)
Lemma alignStream_aligned (bin bin' : list byte) (alignment : Z) :
  0 < alignment ≤ 4096 → alignStream bin alignment = Done bin' →
  tellp bin' mod alignment = 0 ∧ tellp bin < tellp bin'.
Proof.
  intros Ha Hrun. destruct (alignStream_spec bin alignment Ha) as [Hspec Hk].
  rewrite Hspec in Hrun. injection Hrun as <-.
  unfold tellp in *. rewrite length_app, length_replicate.
  rewrite Nat2Z.inj_add, Z2Nat.id by lia. split; [|lia].
  replace (Z.of_nat (length bin)
           + (alignment - Z.of_nat (length bin) mod alignment))
    with ((Z.of_nat (length bin) / alignment + 1) * alignment)
    by (pose proof (Z.div_mod (Z.of_nat (length bin)) alignment); lia).
  by rewrite Z.mod_mul by lia.
Qed.

(** So the header of [SaveBin] ends on a multiple of the alignment when
    the version is not negative. *)
Lemma SaveBin_header_aligned {writer : BinaryWriter} (this : Packer.t)
    (name : string) (bin header : list byte) (version alignment : Z) :
  0 ≤ version → 0 < alignment ≤ 4096 →
  Packer.SaveBin_header this name bin version alignment = Done header →
  tellp header mod alignment = 0.
Proof.
  intros Hversion Halign. unfold Packer.SaveBin_header.
  rewrite (proj2 (Z.leb_le _ _)) by done.
  intros Hrun. by eapply alignStream_aligned.
Qed.

(** C4, as the code has it. For an alignment from 1 to 4096 [alignStream]
    appends between 1 and [alignment] zero bytes, as many as bring the
    position to a multiple of [alignment]; at a position that is a multiple
    already it appends [alignment] of them, not none. *)
Theorem alignStream_pads_to_a_later_multiple (bin : list byte) (alignment : Z) :
  0 < alignment ≤ 4096 →
  ∃ k, alignStream bin alignment = Done (bin ++ replicate (Z.to_nat k) x00)
       ∧ 1 ≤ k ≤ alignment
       ∧ (tellp bin + k) mod alignment = 0
       ∧ (tellp bin mod alignment = 0 → k = alignment).
Proof.
  intros Ha. destruct (alignStream_spec bin alignment Ha) as [Hrun Hk].
  exists (alignment - tellp bin mod alignment).
  split; [done|]. split; [done|]. split; [|lia].
  replace (tellp bin + (alignment - tellp bin mod alignment))
    with ((tellp bin / alignment + 1) * alignment)
    by (pose proof (Z.div_mod (tellp bin) alignment); lia).
  by rewrite Z.mod_mul by lia.
Qed.

Lemma for_each_shift {St : Type} (a n : nat) (body : nat → St → outcome St)
    (s : St) :
  for_each (seq (S a) n) body s = for_each (seq a n) (λ i, body (S i)) s.
Proof.
  revert a s. induction n as [|n IH]; intros a s; simpl; [done|].
  destruct (body (S a) s); simpl; [apply IH | done..].
Qed.

Section SaveBinRecords.
Context {writer : BinaryWriter}.
Variables (trim rotate : bool) (version alignment : Z).

Lemma SaveBin_records_cons (bitmap : Bitmap.t) (bitmaps : list Bitmap.t)
    (point : Point.t) (points : list Point.t) (s : list byte * list string) :
  Packer.SaveBin_records trim rotate version alignment (bitmap :: bitmaps)
    (point :: points) s
  = Packer.SaveBin_record trim rotate version alignment bitmap point s
    ≫= Packer.SaveBin_records trim rotate version alignment bitmaps points.
Proof.
  unfold Packer.SaveBin_records.
  replace (seq 0 (length (bitmap :: bitmaps)))
    with (0%nat :: seq 1 (length bitmaps)) by done.
  rewrite for_each_cons. simpl.
  destruct (Packer.SaveBin_record _ _ _ _ _ _ _) as [s'| |]; simpl;
    [|done..].
  by rewrite for_each_shift.
Qed.

Lemma footprint_record_size (bitmap : Bitmap.t) :
  Z.of_nat (String.length (Bitmap.name bitmap)) < 9223372036854775808 →
  Packer.footprint bitmap trim rotate = record_size bitmap trim rotate.
Proof.
  intros Hname. unfold Packer.footprint, record_size, to_size_t.
  apply Z.mod_small. destruct trim, rotate; lia.
Qed.

(** With a version that is not negative and an alignment from 1 to 4096,
    the loop over the records ends without error; the stream it leaves is
    the one it leaves when the bitmaps whose records do not fit the
    alignment are not there at all, and [cerr] receives one line for each
    of those bitmaps, in their order, and nothing else. *)
Lemma SaveBin_records_skip (items : list (Bitmap.t * Point.t))
    (bin : list byte) :
  0 ≤ version → 0 < alignment ≤ 4096 →
  Forall (λ item : Bitmap.t * Point.t,
            Z.of_nat (String.length (Bitmap.name item.1))
            < 9223372036854775808) items →
  ∃ bin', ∀ cerr,
    Packer.SaveBin_records trim rotate version alignment
      (items.*1) (items.*2) (bin, cerr)
    = Done (bin', cerr ++ (diagnostic <$>
                             filter (oversized alignment trim rotate) items))
    ∧ Packer.SaveBin_records trim rotate version alignment
        ((filter (λ item, ¬ oversized alignment trim rotate item) items).*1)
        ((filter (λ item, ¬ oversized alignment trim rotate item) items).*2)
        (bin, cerr)
      = Done (bin', cerr).
Proof.
  intros Hversion Halign Hnames. revert bin.
  induction Hnames as [|[bitmap point] items Hname _ IH]; intros bin.
  - exists bin. intros cerr. split; [|done].
    rewrite filter_nil. simpl. by rewrite (right_id_L [] (++)).
  - simpl in Hname.
    assert (∀ s, Packer.SaveBin_record trim rotate version alignment bitmap
                   point s
                 = if decide (oversized alignment trim rotate (bitmap, point))
                   then Done (s.1, s.2 ++ [diagnostic (bitmap, point)])
                   else Packer.SaveBin_record trim rotate version alignment
                          bitmap point s) as Hrecord.
    { intros [b c]. case_decide as Hover; [|done].
      unfold Packer.SaveBin_record. unfold oversized in Hover. simpl in Hover.
      rewrite footprint_record_size by done.
      unfold to_size_t. rewrite Z.mod_small by lia.
      rewrite (proj2 (Z.leb_le _ _)) by done.
      by rewrite (proj2 (Z.ltb_lt _ _)) by done. }
    destruct (decide (oversized alignment trim rotate (bitmap, point)))
      as [Hover|Hfits].
    + rewrite (filter_cons_True (oversized alignment trim rotate)) by done.
      rewrite (filter_cons_False
                 (λ item, ¬ oversized alignment trim rotate item))
        by (intros Hnot; by apply Hnot).
      destruct (IH bin) as [bin' Hbin']. exists bin'. intros cerr.
      rewrite !fmap_cons. cbn [fst snd].
      rewrite SaveBin_records_cons, Hrecord.
      change (Done ?s ≫= ?f) with (f s). cbn [fst snd].
      destruct (Hbin' (cerr ++ [diagnostic (bitmap, point)])) as [-> _].
      split; [by rewrite <- (assoc_L (++))|]. apply Hbin'.
    + rewrite (filter_cons_False (oversized alignment trim rotate)) by done.
      rewrite (filter_cons_True
                 (λ item, ¬ oversized alignment trim rotate item)) by done.
      assert (∃ bin1, ∀ cerr,
                Packer.SaveBin_record trim rotate version alignment bitmap
                  point (bin, cerr) = Done (bin1, cerr)) as [bin1 Hbin1].
      { unfold Packer.SaveBin_record. unfold oversized in Hfits.
        simpl in Hfits. rewrite footprint_record_size by done.
        unfold to_size_t. rewrite Z.mod_small by lia.
        rewrite (proj2 (Z.leb_le _ _)) by done.
        rewrite (proj2 (Z.ltb_ge _ _)) by lia. simpl.
        match goal with
        | |- context [alignStream ?b alignment] =>
            destruct (alignStream_spec b alignment Halign) as [-> _]
        end.
        by eexists. }
      destruct (IH bin1) as [bin' Hbin']. exists bin'. intros cerr.
      rewrite !fmap_cons. cbn [fst snd].
      rewrite !SaveBin_records_cons, Hbin1.
      change (Done ?s ≫= ?f) with (f s). apply Hbin'.
Qed.
End SaveBinRecords.

Lemma SaveBin_header_Done {writer : BinaryWriter} (this : Packer.t)
    (name : string) (bin : list byte) (version alignment : Z) :
  0 < alignment ≤ 4096 →
  ∃ header, Packer.SaveBin_header this name bin version alignment = Done header.
Proof.
  intros Halign. unfold Packer.SaveBin_header.
  destruct (0 <=? version); [|by eexists].
  match goal with
  | |- context [alignStream ?b alignment] =>
      destruct (alignStream_spec b alignment Halign) as [-> _]
  end.
  by eexists.
Qed.

(** C5. With sequences of one length, fuel for the sorting, a version that
    is not negative and an alignment from 1 to 4096, [SaveBin] returns
    without error. The stream it leaves is the header followed by what the
    loop over the records writes for the bitmaps whose records fit the
    alignment, as if the others were not there; [cerr] receives one line
    for each of the others, in their order, and nothing else. Names are
    shorter than 2^63 bytes. *)
Theorem SaveBin_skips_oversized_records {sorter : StdSort}
    {writer : BinaryWriter} (fuel : nat) (this : Packer.t) (name : string)
    (bin : list byte) (trim rotate : bool) (version alignment : Z) :
  length (Packer.bitmaps this) = length (Packer.points this) →
  (length (Packer.bitmaps this) < fuel)%nat →
  0 ≤ version → 0 < alignment ≤ 4096 →
  Forall (λ bitmap, Z.of_nat (String.length (Bitmap.name bitmap))
                    < 9223372036854775808) (Packer.bitmaps this) →
  ∃ this' header bin',
    Packer.SaveBin_sort fuel this = Done this'
    ∧ Packer.SaveBin_header this' name bin version alignment = Done header
    ∧ Packer.SaveBin fuel this name bin trim rotate version alignment
      = Done (this', bin',
              diagnostic <$> filter (oversized alignment trim rotate)
                               (zip (Packer.bitmaps this') (Packer.points this')))
    ∧ Packer.SaveBin_records trim rotate version alignment
        ((filter (λ item, ¬ oversized alignment trim rotate item)
            (zip (Packer.bitmaps this') (Packer.points this'))).*1)
        ((filter (λ item, ¬ oversized alignment trim rotate item)
            (zip (Packer.bitmaps this') (Packer.points this'))).*2)
        (header, [])
      = Done (bin', []).
Proof.
  intros Hlen Hfuel Hversion Halign Hnames.
  pose proof (SaveBin_sort_spec fuel this Hlen) as Hspec.
  destruct (Packer.SaveBin_sort fuel this) as [this'| |] eqn:Hsort;
    [|done|lia].
  destruct Hspec as (p & Hp & Hbitmaps & Hpoints & _).
  destruct (SaveBin_header_Done this' name bin version alignment Halign)
    as [header Hheader].
  assert (length (Packer.bitmaps this') = length (Packer.points this'))
    as Hlen'.
  { destruct Hbitmaps as [-> _]. by destruct Hpoints as [-> _]. }
  assert (Forall (λ item : Bitmap.t * Point.t,
                    Z.of_nat (String.length (Bitmap.name item.1))
                    < 9223372036854775808)
            (zip (Packer.bitmaps this') (Packer.points this'))) as Hitems.
  { apply Forall_forall. intros [bitmap point] Hin.
    apply elem_of_zip_l in Hin. simpl.
    rewrite (permuted_by_Permutation p _ _ Hp Hbitmaps) in Hin.
    rewrite Forall_forall in Hnames. by apply Hnames. }
  destruct (SaveBin_records_skip trim rotate version alignment _ header
              Hversion Halign Hitems) as [bin' Hrecords].
  destruct (Hrecords []) as [Hall Hkept].
  rewrite fst_zip, snd_zip in Hall by lia.
  exists this', header, bin'. split; [done|]. split; [done|].
  split; [|done].
  unfold Packer.SaveBin. rewrite Hsort. simpl. rewrite Hheader. simpl.
  by rewrite Hall.
Qed.

(** ** The run of [Pack] as a whole *)

Section PackRun.
Context {B : Type} {bin : RectangleBin B} {equals : BitmapEquals}.
Variables (verbose unique rotate : bool).

(** A property kept by every iteration that pops its item holds at the
    head of every iteration; what the iteration that breaks and the empty
    input make of it holds of the state the loop ends in. *)
Lemma Pack_loop_end (I F : Packer.locals B → list Bitmap.t → Prop) :
  (∀ st bitmap rest c,
      I st (bitmap :: rest) →
      iteration verbose unique rotate st (S (length rest)) bitmap c →
      match c with
      | Packer.Popped st' => I st' rest
      | Packer.Break st' => F st' (bitmap :: rest)
      end) →
  (∀ st, I st [] → F st []) →
  ∀ stack st st' rest,
    I st stack →
    Packer.Pack_loop verbose unique rotate st stack = Done (st', rest) →
    F st' rest.
Proof.
  intros Hstep Hend stack.
  induction stack as [|bitmap stack IH]; intros st st' rest HI; simpl.
  - intros [= <- <-]. by apply Hend.
  - intros (c & Hbody%Pack_body_iteration & Hrun)%bind_Done.
    specialize (Hstep _ _ _ _ HI Hbody). destruct c as [st1|st1].
    + by eapply IH.
    + by injection Hrun as <- <-.
Qed.

(** What the placement loop leaves is what [Pack] returns, but for the
    canvas. *)
Lemma Pack_returns_placement (this : Packer.t) (input : list Bitmap.t)
    (st : Packer.locals B) (rest : list Bitmap.t) (fuel : nat)
    (this' : Packer.t) (rest' : list Bitmap.t) (out : list (nat * string)) :
  Packer.Pack_placement verbose unique rotate this input = Done (st, rest) →
  Packer.Pack verbose unique rotate fuel this input = Done (this', rest', out) →
  Packer.bitmaps this' = Packer.bitmaps (Packer.self st)
  ∧ Packer.points this' = Packer.points (Packer.self st)
  ∧ Packer.dupLookup this' = Packer.dupLookup (Packer.self st)
  ∧ Packer.pad this' = Packer.pad (Packer.self st)
  ∧ rest' = rev rest ∧ out = Packer.cout st
  ∧ Packer.halve_while fuel (Packer.width (Packer.self st)) (Packer.ww st)
    = Done (Packer.width this')
  ∧ Packer.halve_while fuel (Packer.height (Packer.self st)) (Packer.hh st)
    = Done (Packer.height this').
Proof.
  intros Hrun. unfold Packer.Pack. rewrite Hrun. simpl.
  intros (width' & Hwidth & Hpack)%bind_Done.
  apply bind_Done in Hpack as (height' & Hheight & [= <- <- <-]).
  done.
Qed.

Lemma countable_in_int_rev (this : Packer.t) (input : list Bitmap.t) :
  countable_in_int this input → countable_in_int this (rev input).
Proof. unfold countable_in_int. by rewrite length_rev. Qed.

(** Every iteration keeps the table and the records canonical. *)
Lemma iteration_canonical (st : Packer.locals B) (bitmap : Bitmap.t)
    (rest : list Bitmap.t) (c : Packer.control B) :
  well_formed (Packer.self st) →
  countable_in_int (Packer.self st) (bitmap :: rest) →
  canonical (Packer.self st) →
  iteration verbose unique rotate st (S (length rest)) bitmap c →
  match c with
  | Packer.Popped st' | Packer.Break st' => canonical (Packer.self st')
  end.
Proof.
  intros [Hlen Hdup] Hcount [Htable Hrecords] Hit.
  unfold countable_in_int in Hcount.
  destruct Hit as [second other q _ Hlook Hother Heq Hq
                  | rect packer' _ Hins _ | rect packer' _ Hins Hw Hh];
    simpl in *; [|by split|]; unfold canonical; simpl.
  - pose proof (Hdup _ _ Hlook) as Hrange.
    destruct (Htable _ _ Hlook) as (b0 & p0 & Hb0 & Hp0 & Hhash & Hown).
    split.
    + intros h v Hv. destruct (Htable _ _ Hv) as (b & p & Hb & Hp & Hrest).
      exists b, p. split; [by apply lookup_app_l_Some|].
      split; [by apply lookup_app_l_Some | done].
    + intros i b p Hb Hp Hid.
      apply lookup_app_Some in Hb as [Hb|[Hge Hb]].
      * pose proof (lookup_lt_Some _ _ _ Hb) as Hlt. rewrite Hlen in Hlt.
        rewrite lookup_app_l in Hp by done.
        destruct (Hrecords i b p Hb Hp Hid)
          as (H0 & Hbelow & b' & q' & Hb' & Hq' & Hrest).
        split; [done|]. split; [done|]. exists b', q'.
        split; [by apply lookup_app_l_Some|].
        split; [by apply lookup_app_l_Some | done].
      * apply list_lookup_singleton_Some in Hb as [Hi0 <-].
        assert (i = length (Packer.points (Packer.self st))) as -> by lia.
        rewrite list_lookup_middle in Hp by done. injection Hp as <-.
        simpl in *. split; [lia|]. split; [lia|]. exists b0, p0.
        split; [by apply lookup_app_l_Some|].
        split; [by apply lookup_app_l_Some | done].
  - split.
    + intros h v Hv.
      assert ((unique = true ∧ h = Bitmap.hashValue bitmap
               ∧ v = Z.of_nat (length (Packer.points (Packer.self st))))
              ∨ Packer.dupLookup (Packer.self st) !! h = Some v) as [Hnew|Hold].
      { destruct unique; [|by right].
        apply lookup_insert_Some in Hv as [[<- <-]|[_ Hv]]; [left | by right].
        rewrite static_cast_int_small by lia. done. }
      * destruct Hnew as (_ & -> & ->). rewrite Nat2Z.id.
        eexists bitmap, _. split; [by rewrite <- Hlen, list_lookup_middle|].
        split; [by rewrite list_lookup_middle | done].
      * destruct (Htable _ _ Hold) as (b & p & Hb & Hp & Hrest).
        exists b, p. split; [by apply lookup_app_l_Some|].
        split; [by apply lookup_app_l_Some | done].
    + intros i b p Hb Hp Hid.
      apply lookup_app_Some in Hb as [Hb|[Hge Hb]].
      * pose proof (lookup_lt_Some _ _ _ Hb) as Hlt. rewrite Hlen in Hlt.
        rewrite lookup_app_l in Hp by done.
        destruct (Hrecords i b p Hb Hp Hid)
          as (H0 & Hbelow & b' & q' & Hb' & Hq' & Hrest).
        split; [done|]. split; [done|]. exists b', q'.
        split; [by apply lookup_app_l_Some|].
        split; [by apply lookup_app_l_Some | done].
      * apply list_lookup_singleton_Some in Hb as [Hi0 <-].
        assert (i = length (Packer.points (Packer.self st))) as -> by lia.
        rewrite list_lookup_middle in Hp by done. by injection Hp as <-.
Qed.

(** X1. On a well-formed object whose table and records are canonical (a
    new object is), the placement loop of [Pack] runs to its end and leaves
    them canonical, and so does [Pack]: every entry of the duplicate table,
    and the [dupID] of every record that is a duplicate, is the index of an
    earlier record that is a placement of its own, of a bitmap with the
    same hash. No duplicate names another duplicate. *)
Theorem Pack_duplicates_name_placements (this : Packer.t)
    (input : list Bitmap.t) :
  well_formed this → countable_in_int this input → canonical this →
  ∃ (st : Packer.locals B) rest,
    Packer.Pack_placement verbose unique rotate this input = Done (st, rest)
    ∧ canonical (Packer.self st)
    ∧ ∀ fuel this' rest' out,
        Packer.Pack verbose unique rotate fuel this input
        = Done (this', rest', out) →
        canonical this'.
Proof.
  intros Hwf Hcount Hcan. apply countable_in_int_rev in Hcount.
  destruct (Pack_loop_defined verbose unique rotate (rev input)
    (Packer.mkLocals (MaxRectsBinPack (Packer.width this) (Packer.height this))
       this 0 0 [])) as (st & rest & Hrun); [done | done |].
  exists st, rest. split; [done|].
  assert (canonical (Packer.self st)) as Hst.
  { cut ((well_formed (Packer.self st)
          ∧ countable_in_int (Packer.self st) rest)
         ∧ canonical (Packer.self st)); [tauto|].
    revert Hrun.
    apply (Pack_loop_invariant verbose unique rotate (λ s r,
      (well_formed (Packer.self s) ∧ countable_in_int (Packer.self s) r)
      ∧ canonical (Packer.self s))); [|done].
    intros s bitmap r c [[Hwf' Hcount'] Hcan'] Hit.
    pose proof (iteration_well_formed _ _ _ _ _ _ _ Hwf' Hcount' Hit) as Hnext.
    pose proof (iteration_canonical _ _ _ _ Hwf' Hcount' Hcan' Hit) as Hkeep.
    by destruct c. }
  split; [done|]. intros fuel this' rest' out Hpack.
  destruct (Pack_returns_placement _ _ _ _ _ _ _ _ Hrun Hpack)
    as (Hb & Hp & Hl & _).
  unfold canonical. rewrite Hb, Hp, Hl. exact Hst.
Qed.

(** The line of [cout] for the item at the back of what is left of the
    input. *)
Lemma announced_lookup (input taken rest : list Bitmap.t) (bitmap : Bitmap.t) :
  rev input = taken ++ bitmap :: rest →
  announced input !! length rest = Some (S (length rest), Bitmap.name bitmap).
Proof.
  intros Hinput. apply (f_equal (@rev _)) in Hinput.
  rewrite rev_involutive, rev_app_distr in Hinput. simpl in Hinput.
  unfold announced. rewrite list_lookup_imap, Hinput.
  rewrite <- (assoc_L (++)). simpl.
  by rewrite list_lookup_middle by (by rewrite length_rev).
Qed.

(** X2. On a well-formed object the placement loop of [Pack] runs to its
    end. With [verbose] unset nothing is written to [cout]. With [verbose]
    set, one line is written for each item examined, the item that the bin
    refuses included: the lines are those of the items of the input from
    the last one down to the last one left in it (down to the first, when
    none is left), each with its position in the input counted from 1,
    which is the size of the vector at that time, and its name. *)
Theorem Pack_verbose_announces_items_examined (this : Packer.t)
    (input : list Bitmap.t) :
  well_formed this → countable_in_int this input →
  ∃ (st : Packer.locals B) rest,
    Packer.Pack_placement verbose unique rotate this input = Done (st, rest)
    ∧ Packer.cout st
      = (if verbose
         then rev (drop (pred (length rest)) (announced input))
         else [])
    ∧ ∀ fuel this' rest' out,
        Packer.Pack verbose unique rotate fuel this input
        = Done (this', rest', out) →
        rest' = rev rest
        ∧ out = (if verbose
                 then rev (drop (pred (length rest')) (announced input))
                 else []).
Proof.
  intros Hwf Hcount. apply countable_in_int_rev in Hcount.
  destruct (Pack_loop_defined verbose unique rotate (rev input)
    (Packer.mkLocals (MaxRectsBinPack (Packer.width this) (Packer.height this))
       this 0 0 [])) as (st & rest & Hrun); [done | done |].
  exists st, rest. split; [done|].
  assert (Packer.cout st
          = (if verbose
             then rev (drop (pred (length rest)) (announced input))
             else [])) as Hcout.
  { revert Hrun.
    apply (Pack_loop_end
      (λ s r, (∃ taken, rev input = taken ++ r)
              ∧ Packer.cout s
                = (if verbose
                   then rev (drop (length r) (announced input))
                   else []))
      (λ s r, Packer.cout s
              = (if verbose
                 then rev (drop (pred (length r)) (announced input))
                 else []))).
    - intros s bitmap r c [[taken Htaken] Hcout] Hit.
      pose proof (announced_lookup _ _ _ _ Htaken) as Hline.
      assert (Packer.cout (Packer.Pack_verbose verbose s (S (length r)) bitmap)
              = (if verbose
                 then rev (drop (length r) (announced input))
                 else [])) as Hnew.
      { unfold Packer.Pack_verbose. destruct verbose; [|done]. simpl.
        rewrite Hcout. simpl. by rewrite (drop_S _ _ _ Hline). }
      destruct Hit; simpl; [split; [|done] | done | split; [|done]];
        exists (taken ++ [bitmap]); by rewrite <- (assoc_L (++)).
    - by intros s [_ Hcout].
    - split; [by exists []|]. simpl.
      destruct verbose; [|done].
      rewrite drop_ge; [done|].
      unfold announced. by rewrite length_imap, length_rev. }
  split; [done|]. intros fuel this' rest' out Hpack.
  destruct (Pack_returns_placement _ _ _ _ _ _ _ _ Hrun Hpack)
    as (_ & _ & _ & _ & -> & -> & _).
  split; [done|]. by rewrite length_rev.
Qed.

(** X4. [Pack] does not return when nothing is placed. With a canvas
    whose sides are not negative, whatever the fuel: on an empty input the
    canvas is halved without end; and so it is when the last item of the
    input, the first one examined, is not a duplicate and is refused by
    the new bin. *)
Theorem Pack_never_returns_when_nothing_is_placed (this : Packer.t) :
  0 ≤ Packer.width this → 0 ≤ Packer.height this →
  (∀ fuel, Packer.Pack verbose unique rotate fuel this [] = OutOfFuel)
  ∧ ∀ input bitmap fuel,
      Packer.find_duplicate unique this bitmap = Done None →
      (let rect :=
         (Insert (MaxRectsBinPack (Packer.width this) (Packer.height this))
            (Bitmap.width bitmap + Packer.pad this)
            (Bitmap.height bitmap + Packer.pad this) rotate
            RectBestShortSideFit).1 in
       Rect.width rect = 0 ∨ Rect.height rect = 0) →
      Packer.Pack verbose unique rotate fuel this (input ++ [bitmap])
      = OutOfFuel.
Proof.
  intros Hw Hh. split.
  - intros fuel. unfold Packer.Pack, Packer.Pack_placement. simpl.
    by rewrite (halve_while_forever fuel (Packer.width this) 0) by lia.
  - intros input bitmap fuel Hnone Hzero.
    unfold Packer.Pack, Packer.Pack_placement.
    rewrite rev_app_distr. simpl rev. simpl app.
    destruct (Insert (MaxRectsBinPack (Packer.width this) (Packer.height this))
                (Bitmap.width bitmap + Packer.pad this)
                (Bitmap.height bitmap + Packer.pad this) rotate
                RectBestShortSideFit) as [rect packer'] eqn:Hins.
    pose proof (iteration_exhausted verbose unique rotate
                  (Packer.mkLocals
                     (MaxRectsBinPack (Packer.width this) (Packer.height this))
                     this 0 0 [])
                  (S (length (rev input))) bitmap rect packer' Hnone Hins Hzero)
      as Hit.
    apply Pack_body_iteration in Hit.
    cbn [Packer.Pack_loop].
    change (length (bitmap :: rev input)) with (S (length (rev input))).
    rewrite Hit.
    change (Done ?s ≫= ?f) with (f s). cbv beta iota.
    change (Done ?s ≫= ?f) with (f s). cbv beta iota.
    cbn [Packer.self Packer.ww Packer.hh].
    by rewrite (halve_while_forever fuel (Packer.width this) 0) by lia.
Qed.
End PackRun.

Section PackWithoutUnique.
Context {B : Type} {bin : RectangleBin B} {equals : BitmapEquals}.
Variables (verbose rotate : bool).

(** Without [unique] the loop reads no vector by an index: it runs to its
    end on any object. *)
Lemma Pack_loop_without_unique_Done (stack : list Bitmap.t)
    (st : Packer.locals B) :
  ∃ st' rest, Packer.Pack_loop verbose false rotate st stack = Done (st', rest).
Proof.
  revert st. induction stack as [|bitmap stack IH]; intros st.
  - by eexists _, _.
  - cbn [Packer.Pack_loop]. unfold Packer.Pack_body.
    change (Packer.find_duplicate false ?t ?b) with (@Done (option Z) None).
    change (Done ?s ≫= ?f) with (f s). cbv beta iota.
    change (Done ?s ≫= ?f) with (f s). cbv beta iota.
    destruct (Packer.Pack_insert _ _ _ _) as [st1|st1];
      [apply IH | by eexists _, _].
Qed.

(** X5. With [unique] unset, on any object and any input: the placement
    loop of [Pack] runs to its end, the duplicate table is as it was, and
    every record appended is a placement of its own ([dupID] is -1); the
    records and the table that [Pack] returns are these. *)
Theorem Pack_without_unique_records_no_duplicate (this : Packer.t)
    (input : list Bitmap.t) :
  ∃ (st : Packer.locals B) rest,
    Packer.Pack_placement verbose false rotate this input = Done (st, rest)
    ∧ Packer.dupLookup (Packer.self st) = Packer.dupLookup this
    ∧ (∀ i p, (length (Packer.points this) ≤ i)%nat →
         Packer.points (Packer.self st) !! i = Some p → Point.dupID p = -1)
    ∧ ∀ fuel this' rest' out,
        Packer.Pack verbose false rotate fuel this input
        = Done (this', rest', out) →
        Packer.points this' = Packer.points (Packer.self st)
        ∧ Packer.dupLookup this' = Packer.dupLookup this.
Proof.
  destruct (Pack_loop_without_unique_Done (rev input)
    (Packer.mkLocals (MaxRectsBinPack (Packer.width this) (Packer.height this))
       this 0 0 [])) as (st & rest & Hrun).
  exists st, rest. split; [done|].
  assert (Packer.dupLookup (Packer.self st) = Packer.dupLookup this
          ∧ ∀ i p, (length (Packer.points this) ≤ i)%nat →
              Packer.points (Packer.self st) !! i = Some p →
              Point.dupID p = -1) as [Htable Hown].
  { revert Hrun.
    apply (Pack_loop_invariant verbose false rotate (λ s _,
      Packer.dupLookup (Packer.self s) = Packer.dupLookup this
      ∧ ∀ i p, (length (Packer.points this) ≤ i)%nat →
          Packer.points (Packer.self s) !! i = Some p →
          Point.dupID p = -1)).
    - intros s bitmap r c [Htable Hown] Hit.
      destruct Hit as [second other q Hu _ _ _ _
                      | rect packer' _ _ _ | rect packer' _ _ _ _];
        simpl; [done | done |].
      split; [done|]. intros i p Hi Hp.
      apply lookup_app_Some in Hp as [Hp|[_ Hp]]; [by eapply Hown|].
      by apply list_lookup_singleton_Some in Hp as [_ <-].
    - split; [done|]. intros i p Hi Hp. simpl in Hp.
      apply lookup_lt_Some in Hp. lia. }
  split; [done|]. split; [done|].
  intros fuel this' rest' out Hpack.
  destruct (Pack_returns_placement _ _ _ _ _ _ _ _ _ _ _ Hrun Hpack)
    as (_ & Hpoints & Hlookup & _).
  split; [done | congruence].
Qed.
End PackWithoutUnique.

Section PackWithoutRotate.
Context {B : Type} {bin : RectangleBin B} {equals : BitmapEquals}.
Variables (verbose unique : bool).

(** X6. With [rotate] unset, on a well-formed object none of whose
    records is marked as rotated (a new object has none): the placement
    loop of [Pack] runs to its end and no record is marked as rotated,
    duplicates included; [Pack] returns these records. *)
Theorem Pack_without_rotate_marks_no_record (this : Packer.t)
    (input : list Bitmap.t) :
  well_formed this → countable_in_int this input →
  (∀ p, p ∈ Packer.points this → Point.rot p = false) →
  ∃ (st : Packer.locals B) rest,
    Packer.Pack_placement verbose unique false this input = Done (st, rest)
    ∧ (∀ p, p ∈ Packer.points (Packer.self st) → Point.rot p = false)
    ∧ ∀ fuel this' rest' out,
        Packer.Pack verbose unique false fuel this input
        = Done (this', rest', out) →
        ∀ p, p ∈ Packer.points this' → Point.rot p = false.
Proof.
  intros Hwf Hcount Hnone. apply countable_in_int_rev in Hcount.
  destruct (Pack_loop_defined verbose unique false (rev input)
    (Packer.mkLocals (MaxRectsBinPack (Packer.width this) (Packer.height this))
       this 0 0 [])) as (st & rest & Hrun); [done | done |].
  exists st, rest. split; [done|].
  assert (∀ p, p ∈ Packer.points (Packer.self st) → Point.rot p = false)
    as Hst.
  { revert Hrun.
    apply (Pack_loop_invariant verbose unique false (λ s _,
      ∀ p, p ∈ Packer.points (Packer.self s) → Point.rot p = false));
      [|done].
    intros s bitmap r c Hs Hit.
    destruct Hit as [second other q _ _ _ _ Hq
                    | rect packer' _ _ _ | rect packer' _ _ _ _]; simpl;
      [|done|].
    - intros p [Hp|Hp%list_elem_of_singleton]%elem_of_app; [by apply Hs|].
      subst p. simpl. apply Hs. by eapply list_elem_of_lookup_2.
    - intros p [Hp|Hp%list_elem_of_singleton]%elem_of_app; [by apply Hs|].
      by subst p. }
  split; [done|]. intros fuel this' rest' out Hpack.
  destruct (Pack_returns_placement _ _ _ _ _ _ _ _ _ _ _ Hrun Hpack)
    as (_ & -> & _).
  done.
Qed.
End PackWithoutRotate.

(** ** The requests that [Pack] makes of the bin *)

Lemma placed_bitmaps_snoc (old : nat) (this this' : Packer.t)
    (bitmap : Bitmap.t) (p : Point.t) :
  length (Packer.bitmaps this) = length (Packer.points this) →
  (old ≤ length (Packer.points this))%nat →
  Packer.bitmaps this' = Packer.bitmaps this ++ [bitmap] →
  Packer.points this' = Packer.points this ++ [p] →
  placed_bitmaps old this'
  = placed_bitmaps old this
    ++ (if decide (Point.dupID p = -1) then [bitmap] else []).
Proof.
  intros Hlen Hold Hb Hp. unfold placed_bitmaps. rewrite Hb, Hp.
  rewrite zip_with_app by done. simpl.
  rewrite drop_app_le by (rewrite length_zip_with; lia).
  rewrite filter_app, fmap_app. f_equal.
  rewrite filter_cons, filter_nil. simpl. by case_decide.
Qed.

Section PackRequests.
Context {B : Type} {bin : RectangleBin B} {equals : BitmapEquals}.
Variables (verbose unique rotate : bool).

(** X7. On a bin that keeps the list of the requests made of it, and on a
    well-formed object: when the placement loop of [Pack] has run to its
    end, the list holds one request for each bitmap that was placed, in the
    order of the records, followed by one for the item that was refused,
    if one was; each asks for the width and the height of the bitmap with
    the padding added once to each. No request is made for a duplicate. *)
Theorem Pack_requests_one_Insert_per_placement (this : Packer.t)
    (input : list Bitmap.t) :
  well_formed this → countable_in_int this input →
  ∃ (st : Packer.locals (B * list (Z * Z * bool))) rest,
    Packer.Pack_placement (bin := Traced_RectangleBin bin) verbose unique
      rotate this input = Done (st, rest)
    ∧ (Packer.packer st).2
      = request (Packer.pad this) rotate
        <$> (placed_bitmaps (length (Packer.points this)) (Packer.self st)
             ++ refused rest)
    ∧ ∀ fuel this' rest' out,
        Packer.Pack (bin := Traced_RectangleBin bin) verbose unique rotate
          fuel this input = Done (this', rest', out) →
        Packer.bitmaps this' = Packer.bitmaps (Packer.self st)
        ∧ Packer.points this' = Packer.points (Packer.self st)
        ∧ rest' = rev rest.
Proof.
  intros Hwf Hcount. apply countable_in_int_rev in Hcount.
  destruct (Pack_loop_defined (bin := Traced_RectangleBin bin) verbose unique
    rotate (rev input)
    (Packer.mkLocals
       (MaxRectsBinPack (RectangleBin := Traced_RectangleBin bin)
          (Packer.width this) (Packer.height this))
       this 0 0 [])) as (st & rest & Hrun); [done | done |].
  exists st, rest. split; [done|]. split.
  - revert Hrun.
    apply (Pack_loop_end (bin := Traced_RectangleBin bin) verbose unique rotate
      (λ s r, (well_formed (Packer.self s)
               ∧ countable_in_int (Packer.self s) r)
              ∧ Packer.pad (Packer.self s) = Packer.pad this
              ∧ (length (Packer.points this)
                 ≤ length (Packer.points (Packer.self s)))%nat
              ∧ (Packer.packer s).2
                = request (Packer.pad this) rotate
                  <$> placed_bitmaps (length (Packer.points this))
                        (Packer.self s))
      (λ s r, (Packer.packer s).2
              = request (Packer.pad this) rotate
                <$> (placed_bitmaps (length (Packer.points this))
                       (Packer.self s) ++ refused r))).
    + intros s bitmap r c ([Hwf' Hcount'] & Hpad & Hold & Htrace) Hit.
      pose proof (iteration_well_formed _ _ _ _ _ _ _ Hwf' Hcount' Hit)
        as Hnext.
      destruct Hwf' as [Hlen Hdup].
      destruct Hit as [second other q _ Hlook _ _ _
                      | rect packer' _ Hins _ | rect packer' _ Hins _ _].
      * split; [done|]. split; [done|]. simpl.
        split; [rewrite length_app; lia|].
        rewrite (placed_bitmaps_snoc _ (Packer.self s) _ bitmap
                   (Point.mk (Point.x q) (Point.y q) second (Point.rot q)))
          by done.
        simpl. apply Hdup in Hlook. rewrite decide_False by lia.
        by rewrite (right_id_L [] (++)).
      * simpl. pose proof (Traced_Insert_listed bin (Packer.packer s)
          (Bitmap.width bitmap + Packer.pad (Packer.self s))
          (Bitmap.height bitmap + Packer.pad (Packer.self s))
          rotate RectBestShortSideFit) as Hlisted.
        rewrite Hins in Hlisted. simpl in Hlisted.
        rewrite Hlisted, Htrace, fmap_app, Hpad. done.
      * split; [done|]. split; [done|]. simpl.
        split; [rewrite length_app; lia|].
        pose proof (Traced_Insert_listed bin (Packer.packer s)
          (Bitmap.width bitmap + Packer.pad (Packer.self s))
          (Bitmap.height bitmap + Packer.pad (Packer.self s))
          rotate RectBestShortSideFit) as Hlisted.
        rewrite Hins in Hlisted. simpl in Hlisted.
        rewrite (placed_bitmaps_snoc _ (Packer.self s) _ bitmap
                   (Point.mk (Rect.x rect) (Rect.y rect) (-1)
                      (rotate && negb (Bitmap.width bitmap
                                       =? Rect.width rect
                                          - Packer.pad (Packer.self s)))))
          by done.
        simpl. rewrite Hlisted, Htrace, fmap_app, Hpad. done.
    + intros s (_ & _ & _ & Htrace). unfold refused. simpl.
      by rewrite (right_id_L [] (++)).
    + split; [done|]. split; [done|]. split; [done|]. simpl.
      unfold placed_bitmaps. destruct Hwf as [Hlen _].
      rewrite drop_ge by (rewrite length_zip_with; lia). done.
  - intros fuel this' rest' out Hpack.
    destruct (Pack_returns_placement (bin := Traced_RectangleBin bin)
                _ _ _ _ _ _ _ _ _ _ _ Hrun Hpack)
      as (Hb & Hp & _ & _ & Hrest & _).
    done.
Qed.
End PackRequests.

(** ** The records of [Pack] and the canvas *)

Lemma halve_while_power_of_two (fuel n : nat) (ww w' : Z) :
  0 ≤ ww ≤ 2 ^ Z.of_nat n →
  Packer.halve_while fuel (2 ^ Z.of_nat n) ww = Done w' →
  ∃ j, (j ≤ n)%nat ∧ w' = 2 ^ Z.of_nat j ∧ ww ≤ w' < 2 * ww.
Proof.
  revert n. induction fuel as [|fuel IH]; intros n Hww; [done|]. simpl.
  assert (0 < 2 ^ Z.of_nat n) as Hpos by (apply Z.pow_pos_nonneg; lia).
  destruct n as [|n].
  - change (2 ^ Z.of_nat 0) with 1 in *. change (Z.quot 1 2) with 0.
    destruct (Z.leb_spec ww 0) as [Hle|Hgt].
    + by rewrite (halve_while_forever fuel 0 ww) by lia.
    + intros [= <-]. exists 0%nat. split; [done|]. split; [done|]. lia.
  - assert (2 ^ Z.of_nat (S n) = 2 ^ Z.of_nat n * 2) as Hdouble
      by (rewrite Nat2Z.inj_succ, Z.pow_succ_r; lia).
    rewrite Hdouble in *. rewrite Z.quot_mul by lia.
    destruct (Z.leb_spec ww (2 ^ Z.of_nat n)) as [Hle|Hgt].
    + intros Hrun. destruct (IH n ltac:(lia) Hrun) as (j & Hj & Hw' & Hbound).
      exists j. split; [lia | done].
    + intros [= <-]. exists (S n). split; [done|]. rewrite Hdouble. lia.
Qed.

Section PackCanvas.
Context {B : Type} {bin : RectangleBin B} {laws : RectangleBinLaws B}
        {equals : BitmapEquals}.
Variables (verbose unique rotate : bool).

(** Every record lies within the tight bound: the loop keeps it so. *)
Lemma Pack_loop_within_bound (cw ch : Z) (st st' : Packer.locals B)
    (stack rest : list Bitmap.t) :
  0 ≤ cw → 0 ≤ ch → canvas (Packer.packer st) = (cw, ch) →
  (∀ p, p ∈ Packer.points (Packer.self st) →
     0 ≤ Point.x p < Packer.ww st ∧ 0 ≤ Point.y p < Packer.hh st) →
  Packer.Pack_loop verbose unique rotate st stack = Done (st', rest) →
  ∀ p, p ∈ Packer.points (Packer.self st') →
    0 ≤ Point.x p < Packer.ww st' ∧ 0 ≤ Point.y p < Packer.hh st'.
Proof.
  intros Hcw Hch Hcanvas Hwithin Hrun.
  cut (canvas (Packer.packer st') = (cw, ch)
       ∧ ∀ p, p ∈ Packer.points (Packer.self st') →
           0 ≤ Point.x p < Packer.ww st' ∧ 0 ≤ Point.y p < Packer.hh st');
    [tauto|].
  revert Hrun.
  apply (Pack_loop_invariant verbose unique rotate (λ s _,
    canvas (Packer.packer s) = (cw, ch)
    ∧ ∀ p, p ∈ Packer.points (Packer.self s) →
        0 ≤ Point.x p < Packer.ww s ∧ 0 ≤ Point.y p < Packer.hh s));
    [|done].
  intros s bitmap r c [Hc Hin] Hit.
  destruct Hit as [second other q _ _ _ _ Hq
                  | rect packer' _ Hins _ | rect packer' _ Hins Hw Hh]; simpl.
  - split; [done|]. intros p [Hp|Hp%list_elem_of_singleton]%elem_of_app.
    + by apply Hin.
    + subst p. simpl. apply Hin. by eapply list_elem_of_lookup_2.
  - pose proof (canvas_Insert (Packer.packer s)
      (Bitmap.width bitmap + Packer.pad (Packer.self s))
      (Bitmap.height bitmap + Packer.pad (Packer.self s))
      rotate RectBestShortSideFit) as Hkeep.
    rewrite Hins in Hkeep. simpl in Hkeep. by rewrite Hkeep.
  - pose proof (canvas_Insert (Packer.packer s)
      (Bitmap.width bitmap + Packer.pad (Packer.self s))
      (Bitmap.height bitmap + Packer.pad (Packer.self s))
      rotate RectBestShortSideFit) as Hkeep.
    pose proof (Insert_on_canvas (Packer.packer s)
      (Bitmap.width bitmap + Packer.pad (Packer.self s))
      (Bitmap.height bitmap + Packer.pad (Packer.self s))
      rotate RectBestShortSideFit) as Hon.
    rewrite Hins, Hc in *. simpl in *. specialize (Hon Hcw Hch).
    split; [done|]. intros p [Hp|Hp%list_elem_of_singleton]%elem_of_app.
    + apply Hin in Hp. lia.
    + subst p. simpl. lia.
Qed.

(** X8. On a well-formed object that holds no record yet (a new object
    holds none), with a canvas whose sides are not negative and a bin that
    places on its canvas: the placement loop of [Pack] runs to its end;
    whenever [Pack] returns, the canvas it leaves is no larger than the one
    it was given and every record, duplicates included, has its position on
    it: [0 <= x < width] and [0 <= y < height]; and [Pack] does return,
    with any fuel from some amount on, when the loop left a record. *)
Theorem Pack_records_on_shrunk_canvas (this : Packer.t)
    (input : list Bitmap.t) :
  well_formed this → countable_in_int this input →
  Packer.points this = [] →
  0 ≤ Packer.width this → 0 ≤ Packer.height this →
  ∃ (st : Packer.locals B) rest,
    Packer.Pack_placement verbose unique rotate this input = Done (st, rest)
    ∧ (∀ fuel this' rest' out,
         Packer.Pack verbose unique rotate fuel this input
         = Done (this', rest', out) →
         Packer.points this' = Packer.points (Packer.self st)
         ∧ Packer.width this' ≤ Packer.width this
         ∧ Packer.height this' ≤ Packer.height this
         ∧ ∀ p, p ∈ Packer.points this' →
             0 ≤ Point.x p < Packer.width this'
             ∧ 0 ≤ Point.y p < Packer.height this')
    ∧ (Packer.points (Packer.self st) ≠ [] →
       ∃ fuel, ∀ fuel', (fuel ≤ fuel')%nat →
         ∃ r, Packer.Pack verbose unique rotate fuel' this input = Done r).
Proof.
  intros Hwf Hcount Hnone Hw Hh.
  destruct (Pack_loop_defined verbose unique rotate (rev input)
    (Packer.mkLocals (MaxRectsBinPack (Packer.width this) (Packer.height this))
       this 0 0 [])) as (st & rest & Hrun);
    [done | by apply countable_in_int_rev |].
  exists st, rest. split; [done|].
  destruct (Pack_placement_on_canvas verbose unique rotate _ _ _ _ Hw Hh Hrun)
    as (Hwidth & Hheight & Hww & Hhh).
  assert (∀ p, p ∈ Packer.points (Packer.self st) →
            0 ≤ Point.x p < Packer.ww st ∧ 0 ≤ Point.y p < Packer.hh st)
    as Hwithin.
  { eapply (Pack_loop_within_bound (Packer.width this) (Packer.height this));
      [exact Hw | exact Hh | | | exact Hrun].
    - apply canvas_MaxRectsBinPack.
    - simpl. rewrite Hnone. by intros p ?%elem_of_nil. }
  split.
  - intros fuel this' rest' out Hpack.
    destruct (Pack_returns_placement verbose unique rotate _ _ _ _ _ _ _ _
                Hrun Hpack) as (_ & Hp & _ & _ & _ & _ & Hfw & Hfh).
    rewrite Hwidth in Hfw. rewrite Hheight in Hfh.
    apply halve_while_smallest in Hfw as (_ & Hwge & Hwmin & _); [|lia..].
    apply halve_while_smallest in Hfh as (_ & Hhge & Hhmin & _); [|lia..].
    specialize (Hwmin 0%nat). specialize (Hhmin 0%nat). simpl in *.
    split; [done|]. split; [lia|]. split; [lia|].
    intros p Hin. rewrite Hp in Hin. apply Hwithin in Hin. lia.
  - intros Hsome.
    destruct (Packer.points (Packer.self st)) as [|p points] eqn:Hpoints;
      [done|].
    destruct (Hwithin p ltac:(by left)) as [Hx Hy].
    destruct (Pack_returns verbose unique rotate this input rest st Hrun)
      as [fuel Hfuel]; [lia | lia |].
    exists fuel. intros fuel' Hle. destruct (Hfuel fuel' Hle) as [this' Hdone].
    by eexists.
Qed.

(** X9. With a canvas whose sides are powers of two and a bin that places
    on its canvas: whenever [Pack] returns, the sides it leaves are powers
    of two again, each the smallest power of two that is not below the
    tight bound of the placement loop in its direction. *)
Theorem Pack_keeps_powers_of_two (this this' : Packer.t)
    (input rest rest' : list Bitmap.t) (st : Packer.locals B) (fuel n m : nat)
    (out : list (nat * string)) :
  Packer.width this = 2 ^ Z.of_nat n → Packer.height this = 2 ^ Z.of_nat m →
  Packer.Pack_placement verbose unique rotate this input = Done (st, rest) →
  Packer.Pack verbose unique rotate fuel this input
  = Done (this', rest', out) →
  ∃ j k, (j ≤ n)%nat ∧ (k ≤ m)%nat
         ∧ Packer.width this' = 2 ^ Z.of_nat j
         ∧ Packer.height this' = 2 ^ Z.of_nat k
         ∧ Packer.ww st ≤ Packer.width this' < 2 * Packer.ww st
         ∧ Packer.hh st ≤ Packer.height this' < 2 * Packer.hh st.
Proof.
  intros Hn Hm Hrun Hpack.
  assert (0 < 2 ^ Z.of_nat n) as Hpn by (apply Z.pow_pos_nonneg; lia).
  assert (0 < 2 ^ Z.of_nat m) as Hpm by (apply Z.pow_pos_nonneg; lia).
  destruct (Pack_placement_on_canvas verbose unique rotate this input st rest)
    as (Hwidth & Hheight & Hww & Hhh); [lia | lia | done |].
  destruct (Pack_returns_placement verbose unique rotate _ _ _ _ _ _ _ _
              Hrun Hpack) as (_ & _ & _ & _ & _ & _ & Hfw & Hfh).
  rewrite Hwidth, Hn in Hfw. rewrite Hheight, Hm in Hfh.
  apply halve_while_power_of_two in Hfw as (j & Hj & Hwj & Hjb); [|lia].
  apply halve_while_power_of_two in Hfh as (k & Hk & Hhk & Hkb); [|lia].
  exists j, k. rewrite <- Hwj, <- Hhk. done.
Qed.
End PackCanvas.

(** ** The permutation functions on their own *)

Lemma for_each_invariant {St : Type} (I : St → Prop)
    (body : nat → St → outcome St) (range : list nat) :
  (∀ i s s', i ∈ range → I s → body i s = Done s' → I s') →
  ∀ s s', I s → for_each range body s = Done s' → I s'.
Proof.
  induction range as [|i range IH]; intros Hstep s s' Hs; simpl.
  - by intros [= <-].
  - intros (s1 & Hbody & Hrest)%bind_Done.
    eapply IH; [| |exact Hrest].
    + intros j t t' Hj. apply Hstep. by right.
    + eapply (Hstep i); [by left | done..].
Qed.

Lemma insert_Permutation {T : Type} (l : list T) (i : nat) (x y : T) :
  l !! i = Some y → Permutation (<[i:=x]> l) (x :: delete i l).
Proof.
  intros Hi. apply lookup_lt_Some in Hi.
  rewrite insert_take_drop, delete_take_drop by done.
  symmetry. apply Permutation_middle.
Qed.

(** [std::swap] of two elements of a vector keeps its elements. *)
Lemma swap_Permutation {T : Type} (vec vec' : list T) (a b : nat) :
  swap vec a b = Done vec' → Permutation vec' vec.
Proof.
  unfold swap. intros (va & Ha%vector_at_Done & Hrun)%bind_Done.
  apply bind_Done in Hrun as (vb & Hb%vector_at_Done & [= <-]).
  revert a b Ha Hb. induction vec as [|x vec IH]; intros [|a] [|b] Ha Hb;
    simplify_eq/=; try done.
  - rewrite (insert_Permutation vec b va vb Hb).
    rewrite (delete_Permutation vec b vb Hb) at 2. apply perm_swap.
  - rewrite (insert_Permutation vec a vb va Ha).
    rewrite (delete_Permutation vec a va Ha) at 2. apply perm_swap.
  - constructor. by apply IH.
Qed.

Section AnyPermutation.
Context {T : Type}.
Variable p : list nat.

Lemma follow_cycle_Permutation (fuel i prev_j j : nat) (vec vec' : list T)
    (done done' : list bool) :
  follow_cycle fuel p i prev_j j vec done = Done (vec', done') →
  Permutation vec' vec.
Proof.
  revert prev_j j vec done.
  induction fuel as [|fuel IH]; intros prev_j j vec done; simpl;
    [discriminate|].
  case_decide; [by intros [= <- _]|].
  intros (vec1 & Hswap%swap_Permutation & Hrun)%bind_Done.
  apply bind_Done in Hrun as (done1 & _ & Hrun).
  apply bind_Done in Hrun as (j' & _ & Hrun).
  apply IH in Hrun. by rewrite Hrun.
Qed.

(** X10. Whatever the vector [p] holds, a permutation of the indices or
    not: when [apply_permutation_in_place] returns, the vector holds the
    elements it held, each as many times as before. No element is lost or
    doubled. *)
Theorem apply_permutation_in_place_keeps_elements (fuel : nat)
    (vec vec' : list T) :
  apply_permutation_in_place fuel vec p = Done vec' → Permutation vec' vec.
Proof.
  unfold apply_permutation_in_place.
  intros ([vec1 done1] & Hloop & [= <-])%bind_Done. revert Hloop.
  apply (for_each_invariant (λ s, Permutation s.1 vec)); [|done].
  intros i [v d] [v' d'] _ Hv. simpl in Hv.
  unfold apply_permutation_body.
  intros (b & _ & Hrun)%bind_Done. destruct b; [by injection Hrun as <- <-|].
  apply bind_Done in Hrun as (d1 & _ & Hrun).
  apply bind_Done in Hrun as (j & _ & Hrun).
  apply follow_cycle_Permutation in Hrun. simpl. by rewrite Hrun.
Qed.

(** Inside the cycle of [i]: the entry of [prev_j] is [j], which is yet to
    be looked at, and [i] is yet to be found as an entry. *)
Lemma follow_cycle_marks (n fuel i prev_j j : nat) (vec vec' : list T)
    (done done' : list bool) :
  length vec = n → length done = n → (i < n)%nat → (prev_j < n)%nat →
  p !! prev_j = Some j →
  (∀ k, done !! k = Some true → k ≠ prev_j →
     ∃ j', p !! k = Some j' ∧ (j' < n)%nat) →
  (∀ k, done !! k = Some true → k ≠ i →
     ∃ k', (k' < n)%nat ∧ p !! k' = Some k) →
  follow_cycle fuel p i prev_j j vec done = Done (vec', done') →
  length vec' = n ∧ length done' = n
  ∧ (∀ k, done' !! k = Some true → linked p n k)
  ∧ ∀ k, done !! k = Some true → done' !! k = Some true.
Proof.
  revert prev_j j vec done.
  induction fuel as [|fuel IH];
    intros prev_j j vec done Hvec Hdone Hi Hprevn Hprev Hentries Hsources;
    simpl; [discriminate|].
  case_decide as Hij.
  { intros [= <- <-]. subst j. split; [done|]. split; [done|].
    split; [|done]. intros k Hk. split.
    - destruct (decide (k = prev_j)) as [->|Hne];
        [by exists i | by apply Hentries].
    - destruct (decide (k = i)) as [->|Hne];
        [by exists prev_j | by apply Hsources]. }
  intros (vec1 & Hswap & Hrun)%bind_Done.
  apply bind_Done in Hrun as (done1 & Hset & Hrun).
  apply bind_Done in Hrun as (j' & Hj'%vector_at_Done & Hrun).
  unfold swap in Hswap.
  apply bind_Done in Hswap as (va & _ & Hswap).
  apply bind_Done in Hswap as (vb & Hvb%vector_at_Done & [= <-]).
  apply lookup_lt_Some in Hvb.
  unfold vector_set in Hset. case_decide as Hj; [|done].
  injection Hset as <-.
  apply IH in Hrun as (Hvec' & Hdone' & Hmarks' & Hkeep);
    [| by rewrite !length_insert | by rewrite length_insert | done | lia
     | done | |].
  - split; [done|]. split; [done|]. split; [done|].
    intros k Hk. apply Hkeep.
    destruct (decide (k = j)) as [->|Hne].
    + by apply list_lookup_insert_eq.
    + by rewrite list_lookup_insert_ne.
  - intros k Hk Hkj. rewrite list_lookup_insert_ne in Hk by done.
    destruct (decide (k = prev_j)) as [->|Hne].
    + exists j. split; [done | lia].
    + by apply Hentries.
  - intros k Hk Hki. destruct (decide (k = j)) as [->|Hne].
    + by exists prev_j.
    + rewrite list_lookup_insert_ne in Hk by done. by apply Hsources.
Qed.

Lemma apply_permutation_body_marks (n fuel i : nat) (vec vec' : list T)
    (done done' : list bool) :
  length vec = n → length done = n →
  (∀ k, done !! k = Some true → linked p n k) →
  apply_permutation_body fuel p i (vec, done) = Done (vec', done') →
  length vec' = n ∧ length done' = n
  ∧ (∀ k, done' !! k = Some true → linked p n k)
  ∧ linked p n i.
Proof.
  intros Hvec Hdone Hmarks. unfold apply_permutation_body.
  intros (b & Hb%vector_at_Done & Hrun)%bind_Done. destruct b.
  - injection Hrun as <- <-. split; [done|]. split; [done|].
    split; [done | by apply Hmarks].
  - apply bind_Done in Hrun as (done1 & Hset & Hrun).
    apply bind_Done in Hrun as (j & Hj%vector_at_Done & Hrun).
    unfold vector_set in Hset. case_decide as Hi; [|done].
    injection Hset as <-.
    apply (follow_cycle_marks n) in Hrun as (Hvec' & Hdone' & Hmarks' & Hkeep);
      [| done | by rewrite length_insert | lia | lia | done | |].
    + split; [done|]. split; [done|]. split; [done|].
      apply Hmarks', Hkeep. by apply list_lookup_insert_eq.
    + intros k Hk Hne. rewrite list_lookup_insert_ne in Hk by done.
      by apply Hmarks.
    + intros k Hk Hne. rewrite list_lookup_insert_ne in Hk by done.
      by apply Hmarks.
Qed.

Lemma apply_permutation_loop_marks (n fuel : nat) (range : list nat) :
  ∀ (s s' : list T * list bool),
    length s.1 = n → length s.2 = n →
    (∀ k, s.2 !! k = Some true → linked p n k) →
    for_each range (apply_permutation_body fuel p) s = Done s' →
    ∀ i, i ∈ range → linked p n i.
Proof.
  induction range as [|i range IH]; intros s s' Hvec Hdone Hmarks; simpl.
  - intros _ i Hi. by apply elem_of_nil in Hi.
  - intros ([vec1 done1] & Hbody & Hrest)%bind_Done. destruct s as [vec done].
    apply (apply_permutation_body_marks n) in Hbody
      as (Hvec1 & Hdone1 & Hmarks1 & Hi); [|done..].
    intros k [->|Hk]%elem_of_cons; [done|].
    by eapply (IH (vec1, done1)).
Qed.

(** X11. [apply_permutation_in_place] returns only when [p] has an entry
    for every position of the vector and these entries are a permutation
    of the positions of the vector. With any other [p] it reads past the
    end of a vector or it never leaves a cycle. *)
Theorem apply_permutation_in_place_returns_for_permutations_only (fuel : nat)
    (vec vec' : list T) :
  apply_permutation_in_place fuel vec p = Done vec' →
  (length vec ≤ length p)%nat
  ∧ Permutation (take (length vec) p) (seq 0 (length vec)).
Proof.
  unfold apply_permutation_in_place.
  intros ([vec1 done1] & Hloop & _)%bind_Done.
  assert (∀ k, k ∈ seq 0 (length vec) → linked p (length vec) k) as Hrange.
  { revert Hloop. apply apply_permutation_loop_marks.
    - done.
    - apply length_replicate.
    - by intros k [? _]%lookup_replicate. }
  assert (length vec ≤ length p)%nat as Hlong.
  { destruct (decide (length vec ≤ length p)%nat) as [|Hshort]; [done|].
    destruct (Hrange (length p)) as [(j & Hj%lookup_lt_Some & _) _]; [|lia].
    rewrite elem_of_seq. lia. }
  split; [done|]. symmetry. apply submseteq_length_Permutation.
  - apply NoDup_submseteq; [apply NoDup_seq|].
    intros k Hk. destruct (Hrange k Hk) as [_ (k' & Hk' & Hentry)].
    apply list_elem_of_lookup. exists k'. by rewrite lookup_take_lt.
  - rewrite length_take, length_seq. lia.
Qed.
End AnyPermutation.

(** X12. With a [p] that is a permutation of the positions of the vector,
    and more fuel than the vector is long, [apply_permutation_in_place]
    returns, reads no vector past its end, and leaves at every position
    [k] the element that was at position [p[k]]; the length is kept. *)
Theorem apply_permutation_in_place_reorders {T : Type} (fuel : nat)
    (vec : list T) (p : list nat) :
  Permutation p (seq 0 (length vec)) → (length vec < fuel)%nat →
  ∃ vec', apply_permutation_in_place fuel vec p = Done vec'
          ∧ length vec' = length vec
          ∧ ∀ k j, p !! k = Some j → vec' !! k = vec !! j.
Proof.
  intros Hp Hfuel.
  pose proof (apply_permutation_in_place_spec p vec Hp fuel) as Hspec.
  destruct (apply_permutation_in_place fuel vec p) as [vec'| |];
    [|done|lia].
  exists vec'. split; [done|]. exact Hspec.
Qed.

(** X13. Reordering by [p] and then by [q] leaves at every position [k]
    the element that was at position [p[q[k]]]; so reordering by [p] and
    then by a [q] that undoes it ([p[q[k]] = k] at every position) gives
    the vector back. *)
Theorem apply_permutation_in_place_twice {T : Type} (fuel : nat)
    (vec : list T) (p q : list nat) :
  Permutation p (seq 0 (length vec)) → Permutation q (seq 0 (length vec)) →
  (length vec < fuel)%nat →
  ∃ vec' vec'',
    apply_permutation_in_place fuel vec p = Done vec'
    ∧ apply_permutation_in_place fuel vec' q = Done vec''
    ∧ (∀ k i j, q !! k = Some i → p !! i = Some j → vec'' !! k = vec !! j)
    ∧ ((∀ k i, q !! k = Some i → p !! i = Some k) → vec'' = vec).
Proof.
  intros Hp Hq Hfuel.
  pose proof (apply_permutation_in_place_spec p vec Hp fuel) as Hfirst.
  destruct (apply_permutation_in_place fuel vec p) as [vec'| |];
    [|done|lia].
  destruct Hfirst as [Hlen' Hat'].
  assert (Permutation q (seq 0 (length vec'))) as Hq' by (by rewrite Hlen').
  pose proof (apply_permutation_in_place_spec q vec' Hq' fuel) as Hsecond.
  destruct (apply_permutation_in_place fuel vec' q) as [vec''| |] eqn:Hrun;
    [|done|lia].
  destruct Hsecond as [Hlen'' Hat''].
  exists vec', vec''. split; [done|]. split; [done|].
  assert (∀ k i j, q !! k = Some i → p !! i = Some j →
                   vec'' !! k = vec !! j) as Hboth.
  { intros k i j Hk Hi. by rewrite (Hat'' k i Hk), (Hat' i j Hi). }
  split; [done|]. intros Hundo. apply list_eq. intros k.
  destruct (decide (k < length vec)%nat) as [Hk|Hk].
  - destruct (permutation_total q vec Hq k Hk) as [i Hi].
    by apply (Hboth k i k), Hundo.
  - rewrite !lookup_ge_None_2; [done | lia..].
Qed.

(** ** sort_permutation on its own *)

Lemma compare_at_ordering {T : Type} (vec : list T) (compare : T → T → bool) :
  strict_weak_ordering compare vec →
  strict_weak_ordering (compare_at vec compare) (seq 0 (length vec)).
Proof.
  intros [Hirr Htrans Hinc].
  assert (∀ i, i ∈ seq 0 (length vec) → ∃ x, vec !! i = Some x ∧ x ∈ vec)
    as Hin.
  { intros i Hi. apply elem_of_seq in Hi.
    destruct (lookup_lt_is_Some_2 vec i) as [x Hx]; [lia|].
    exists x. split; [done | by eapply list_elem_of_lookup_2]. }
  unfold compare_at. split.
  - intros a (x & -> & Hx)%Hin. by apply Hirr.
  - intros a b c (x & -> & Hx)%Hin (y & -> & Hy)%Hin (z & -> & Hz)%Hin.
    by apply Htrans.
  - intros a b c (x & -> & Hx)%Hin (y & -> & Hy)%Hin (z & -> & Hz)%Hin.
    by apply Hinc.
Qed.

(** X14. For a comparison that is a strict weak ordering of the elements
    of the vector, and any [std::sort] that keeps what the standard
    promises, [sort_permutation] returns a permutation of the positions of
    the vector, and reading the vector through it gives its elements in
    order: no element read later compares less than one read before. *)
Theorem sort_permutation_orders_positions {sorter : StdSort} {T : Type}
    (vec : list T) (compare : T → T → bool) :
  strict_weak_ordering compare vec →
  Permutation (sort_permutation vec compare) (seq 0 (length vec))
  ∧ ∀ i j pi pj a b, (i < j)%nat →
      sort_permutation vec compare !! i = Some pi →
      sort_permutation vec compare !! j = Some pj →
      vec !! pi = Some a → vec !! pj = Some b →
      compare b a = false.
Proof.
  intros Hswo%compare_at_ordering. unfold sort_permutation. split.
  - by apply std_sort_Permutation.
  - intros i j pi pj a b Hij Hi Hj Ha Hb.
    pose proof (std_sort_sorted _ _ Hswo i j pi pj Hij Hi Hj) as Hsorted.
    unfold compare_at in Hsorted. by rewrite Hb, Ha in Hsorted.
Qed.

(** ** The text and the calls of the emitters *)

Lemma append_assoc (s1 s2 s3 : string) :
  ((s1 ++ s2) ++ s3)%string = (s1 ++ (s2 ++ s3))%string.
Proof.
  induction s1 as [|a s1 IH]; [done|].
  change (String a ((s1 ++ s2) ++ s3)%string
          = String a (s1 ++ (s2 ++ s3))%string).
  by rewrite IH.
Qed.

Lemma append_nil_r (s : string) : (s ++ EmptyString)%string = s.
Proof.
  induction s as [|a s IH]; [done|].
  change (String a (s ++ EmptyString)%string = String a s). by rewrite IH.
Qed.

(** A loop whose body reads past an end at [m], and not before. *)
Lemma for_each_Undefined {St : Type} (body : nat → St → outcome St)
    (m len : nat) :
  (∀ i s, (i < m)%nat → ∃ s', body i s = Done s') →
  (∀ s, body m s = Undefined) →
  ∀ a s, (a ≤ m < a + len)%nat → for_each (seq a len) body s = Undefined.
Proof.
  intros Hbefore Hat. induction len as [|len IH]; intros a s Ha; [lia|].
  simpl. destruct (decide (a = m)) as [->|Hne]; [by rewrite Hat|].
  destruct (Hbefore a s) as [s' ->]; [lia|]. simpl. apply IH. lia.
Qed.

Lemma lookup_zip_Some {A C : Type} (l : list A) (k : list C) (i : nat) :
  (i < length l)%nat → (length l ≤ length k)%nat →
  ∃ x y, l !! i = Some x ∧ k !! i = Some y ∧ zip l k !! i = Some (x, y).
Proof.
  intros Hi Hlen.
  destruct (lookup_lt_is_Some_2 l i) as [x Hx]; [done|].
  destruct (lookup_lt_is_Some_2 k i) as [y Hy]; [lia|].
  exists x, y. split; [done|]. split; [done|].
  rewrite lookup_zip_with, Hx. simpl. by rewrite Hy.
Qed.

Section Emitters.
Variable this : Packer.t.

Lemma SavePng_loop (len : nat) :
  (length (Packer.bitmaps this) ≤ length (Packer.points this))%nat →
  ∀ a blits, (a + len = length (Packer.bitmaps this))%nat →
    for_each (seq a len)
      (λ i blits,
         point ← vector_at (Packer.points this) i;
         if Point.dupID point <? 0 then
           bitmap ← vector_at (Packer.bitmaps this) i;
           if Point.rot point then
             Done (blits ++ [Packer.CopyPixelsRot bitmap (Point.x point)
                               (Point.y point)])
           else
             Done (blits ++ [Packer.CopyPixels bitmap (Point.x point)
                               (Point.y point)])
         else Done blits)
      blits
    = Done (blits
            ++ omap drawn (drop a (zip (Packer.bitmaps this)
                                      (Packer.points this)))).
Proof.
  intros Hlen.
  match goal with |- context [for_each _ ?f _] => set (body := f) end.
  induction len as [|len IH]; intros a blits Ha.
  - rewrite drop_ge by (rewrite length_zip_with; lia). simpl.
    by rewrite (right_id_L [] (++)).
  - destruct (lookup_zip_Some (Packer.bitmaps this) (Packer.points this) a)
      as (b & p & Hb & Hp & Hitem); [lia | done |].
    rewrite (drop_S _ _ _ Hitem).
    replace (seq a (S len)) with (a :: seq (S a) len) by done.
    rewrite for_each_cons.
    assert (body a blits = Done (blits ++ omap drawn [(b, p)])) as ->.
    { unfold body, vector_at. rewrite Hp, Hb. simpl. unfold drawn. simpl.
      destruct (_ <? 0); [destruct (Point.rot p)|]; simpl; try done.
      by rewrite (right_id_L [] (++)). }
    change (Done ?s ≫= ?f) with (f s). rewrite IH by lia.
    by rewrite <- (assoc_L (++)), <- omap_app.
Qed.

(** X15. With a record for every bitmap, [SavePng] makes a canvas of the
    width and the height of the object, copies on it every bitmap whose
    record is a placement of its own ([dupID] negative), in the order of
    the records, at the position of the record, rotated when the record
    says so, copies nothing for a duplicate, and saves the canvas under
    the name given. With fewer records than bitmaps it reads [points]
    past its end. *)
Theorem SavePng_draws_placements_only (file : string) :
  ((length (Packer.bitmaps this) ≤ length (Packer.points this))%nat →
   Packer.SavePng this file
   = Done (this,
           (Packer.width this, Packer.height this,
            omap drawn (zip (Packer.bitmaps this) (Packer.points this)),
            file)))
  ∧ ((length (Packer.points this) < length (Packer.bitmaps this))%nat →
     Packer.SavePng this file = Undefined).
Proof.
  unfold Packer.SavePng. split.
  - intros Hlen. by rewrite (SavePng_loop _ Hlen 0 []).
  - intros Hlen.
    rewrite (for_each_Undefined _ (length (Packer.points this)));
      [done | | | lia].
    + intros i s Hi. unfold vector_at.
      destruct (lookup_lt_is_Some_2 (Packer.points this) i) as [p ->];
        [done|].
      destruct (lookup_lt_is_Some_2 (Packer.bitmaps this) i) as [b ->];
        [lia|].
      simpl. destruct (_ <? 0); [destruct (Point.rot p)|]; by eexists.
    + intros s. unfold vector_at.
      by rewrite (lookup_ge_None_2 (Packer.points this)).
Qed.
Lemma SaveXml_loop (trim rotate : bool) (len : nat) :
  (length (Packer.bitmaps this) ≤ length (Packer.points this))%nat →
  ∀ a xml, (a + len = length (Packer.bitmaps this))%nat →
    for_each (seq a len)
      (λ i xml,
         bitmap ← vector_at (Packer.bitmaps this) i;
         point ← vector_at (Packer.points this) i;
         Done (xml ++ Packer.SaveXml_img trim rotate bitmap point)%string)
      xml
    = Done (xml
            ++ written
                 ((λ item, Packer.SaveXml_img trim rotate item.1 item.2)
                  <$> drop a (zip (Packer.bitmaps this)
                                  (Packer.points this))))%string.
Proof.
  intros Hlen.
  match goal with |- context [for_each _ ?f _] => set (body := f) end.
  induction len as [|len IH]; intros a xml Ha.
  - rewrite drop_ge by (rewrite length_zip_with; lia). simpl.
    by rewrite append_nil_r.
  - destruct (lookup_zip_Some (Packer.bitmaps this) (Packer.points this) a)
      as (b & p & Hb & Hp & Hitem); [lia | done |].
    rewrite (drop_S _ _ _ Hitem).
    replace (seq a (S len)) with (a :: seq (S a) len) by done.
    rewrite for_each_cons.
    assert (body a xml
            = Done (xml ++ Packer.SaveXml_img trim rotate b p)%string) as ->.
    { unfold body, vector_at. by rewrite Hb, Hp. }
    change (Done ?s ≫= ?f) with (f s). rewrite IH by lia.
    by rewrite append_assoc.
Qed.

(** X16. With a record for every bitmap, [SaveXml] appends to the stream
    the opening tag with the name given, one [img] element for each bitmap
    and its record, in the order of the records, duplicates like the
    others, and the closing tag; what the stream held is kept. With fewer
    records than bitmaps it reads [points] past its end. *)
Theorem SaveXml_lists_every_record (name xml : string) (trim rotate : bool) :
  ((length (Packer.bitmaps this) ≤ length (Packer.points this))%nat →
   Packer.SaveXml this name xml trim rotate
   = Done (this,
           (xml ++ tab ++ "<tex n=" ++ quote ++ name ++ quote ++ ">" ++ endl
            ++ written
                 ((λ item, Packer.SaveXml_img trim rotate item.1 item.2)
                  <$> zip (Packer.bitmaps this) (Packer.points this))
            ++ tab ++ "</tex>" ++ endl)%string))
  ∧ ((length (Packer.points this) < length (Packer.bitmaps this))%nat →
     Packer.SaveXml this name xml trim rotate = Undefined).
Proof.
  unfold Packer.SaveXml. split.
  - intros Hlen. rewrite (SaveXml_loop trim rotate _ Hlen 0) by done.
    change (Done ?s ≫= ?f) with (f s). cbv beta.
    change (drop 0 ?l) with l. by rewrite !append_assoc.
  - intros Hlen.
    rewrite (for_each_Undefined _ (length (Packer.points this)));
      [done | | | lia].
    + intros i s Hi. unfold vector_at.
      destruct (lookup_lt_is_Some_2 (Packer.points this) i) as [p ->];
        [done|].
      destruct (lookup_lt_is_Some_2 (Packer.bitmaps this) i) as [b ->];
        [lia|].
      by eexists.
    + intros s. unfold vector_at.
      destruct (lookup_lt_is_Some_2 (Packer.bitmaps this)
                  (length (Packer.points this))) as [b ->]; [done|].
      by rewrite (lookup_ge_None_2 (Packer.points this)).
Qed.

Lemma drop_nil_iff {A : Type} (l : list A) (k : nat) :
  drop k l = [] ↔ (length l ≤ k)%nat.
Proof.
  split; [|apply drop_ge].
  intros Hnil. apply (f_equal length) in Hnil.
  rewrite length_drop in Hnil. simpl in Hnil. lia.
Qed.

Lemma SaveJson_loop (trim rotate : bool) (len : nat) :
  (length (Packer.bitmaps this) ≤ length (Packer.points this))%nat →
  ∀ a json, (a + len = length (Packer.bitmaps this))%nat →
    for_each (seq a len)
      (λ i json,
         bitmap ← vector_at (Packer.bitmaps this) i;
         point ← vector_at (Packer.points this) i;
         Done (json
               ++ Packer.SaveJson_image trim rotate bitmap point
                    (bool_decide (S i = length (Packer.bitmaps this))))%string)
      json
    = Done (json
            ++ images trim rotate
                 (drop a (zip (Packer.bitmaps this)
                             (Packer.points this))))%string.
Proof.
  intros Hlen.
  match goal with |- context [for_each _ ?f _] => set (body := f) end.
  induction len as [|len IH]; intros a json Ha.
  - rewrite drop_ge by (rewrite length_zip_with; lia). simpl.
    by rewrite append_nil_r.
  - destruct (lookup_zip_Some (Packer.bitmaps this) (Packer.points this) a)
      as (b & p & Hb & Hp & Hitem); [lia | done |].
    rewrite (drop_S _ _ _ Hitem).
    replace (seq a (S len)) with (a :: seq (S a) len) by done.
    rewrite for_each_cons.
    assert (body a json
            = Done (json
                    ++ Packer.SaveJson_image trim rotate b p
                         (bool_decide
                            (S a = length (Packer.bitmaps this))))%string)
      as ->.
    { unfold body, vector_at. by rewrite Hb, Hp. }
    change (Done ?s ≫= ?f) with (f s). rewrite IH by lia.
    rewrite append_assoc.
    rewrite (bool_decide_ext (S a = length (Packer.bitmaps this))
               (drop (S a) (zip (Packer.bitmaps this) (Packer.points this))
                = [])); [done|].
    rewrite drop_nil_iff, length_zip_with. lia.
Qed.

(** X17. With a record for every bitmap, [SaveJson] appends to the stream
    the line of the name, the line that opens the array, one element for
    each bitmap and its record, in the order of the records, and the line
    that closes the array. Every element but the last is followed by a
    comma, and the last is not; for an object with no bitmap the array is
    empty. With fewer records than bitmaps it reads [points] past its
    end. *)
Theorem SaveJson_separates_elements_by_commas (name json : string)
    (trim rotate : bool) :
  ((length (Packer.bitmaps this) ≤ length (Packer.points this))%nat →
   Packer.SaveJson this name json trim rotate
   = Done (this,
           (json ++ tab ++ tab ++ tab ++ quote ++ "name" ++ quote ++ ":"
            ++ quote ++ name ++ quote ++ "," ++ endl
            ++ tab ++ tab ++ tab ++ quote ++ "images" ++ quote ++ ":[" ++ endl
            ++ images trim rotate
                 (zip (Packer.bitmaps this) (Packer.points this))
            ++ tab ++ tab ++ tab ++ "]" ++ endl)%string))
  ∧ ((length (Packer.points this) < length (Packer.bitmaps this))%nat →
     Packer.SaveJson this name json trim rotate = Undefined).
Proof.
  unfold Packer.SaveJson. split.
  - intros Hlen. rewrite (SaveJson_loop trim rotate _ Hlen 0) by done.
    change (Done ?s ≫= ?f) with (f s). cbv beta.
    change (drop 0 ?l) with l. by rewrite !append_assoc.
  - intros Hlen.
    rewrite (for_each_Undefined _ (length (Packer.points this)));
      [done | | | lia].
    + intros i s Hi. unfold vector_at.
      destruct (lookup_lt_is_Some_2 (Packer.points this) i) as [p ->];
        [done|].
      destruct (lookup_lt_is_Some_2 (Packer.bitmaps this) i) as [b ->];
        [lia|].
      by eexists.
    + intros s. unfold vector_at.
      destruct (lookup_lt_is_Some_2 (Packer.bitmaps this)
                  (length (Packer.points this))) as [b ->]; [done|].
      by rewrite (lookup_ge_None_2 (Packer.points this)).
Qed.
End Emitters.

(** ** The layout of the binary stream *)

(** [alignStream] outside the alignments from 1 to 4096: with a negative
    alignment it writes nothing. *)
Lemma alignStream_negative (bin : list byte) (alignment : Z) :
  alignment < 0 → alignStream bin alignment = Done bin.
Proof.
  intros Ha. unfold alignStream.
  rewrite (proj2 (Z.ltb_ge _ _)) by lia.
  rewrite (proj2 (Z.eqb_neq _ _)) by lia.
  assert (0 ≤ tellp bin) as Hpos by (unfold tellp; lia).
  pose proof (Z.rem_nonneg (tellp bin) alignment ltac:(lia) Hpos) as Hrem.
  rewrite (proj2 (Z.leb_le _ _)) by done.
  by rewrite (proj2 (Z.ltb_ge _ _)) by lia.
Qed.

Lemma alignStream_Undefined (bin : list byte) (alignment : Z) :
  alignStream bin alignment = Undefined ↔ alignment = 0 ∨ 4096 < alignment.
Proof.
  unfold alignStream.
  destruct (Z.ltb_spec 4096 alignment); [split; [by right | done]|].
  destruct (Z.eqb_spec alignment 0); [split; [by left | done]|].
  destruct (_ && _); split; (done || lia).
Qed.

Lemma alignStream_not_OutOfFuel (bin : list byte) (alignment : Z) :
  alignStream bin alignment ≠ OutOfFuel.
Proof. unfold alignStream. by repeat case_match. Qed.

Section Encoder.
Context {writer : BinaryWriter}.
Variables (trim rotate : bool) (version alignment : Z).

(** One record: it is skipped, or its bytes are appended and the stream
    is aligned when the version is not negative. *)
Lemma SaveBin_record_spec (bitmap : Bitmap.t) (point : Point.t)
    (bin : list byte) (cerr : list string) :
  Packer.SaveBin_record trim rotate version alignment bitmap point (bin, cerr)
  = if decide (skipped trim rotate version alignment (bitmap, point)) then
      Done (bin, cerr ++ [(Packer.skipping ++ Bitmap.name bitmap)%string])
    else if 0 <=? version then
      bin' ← alignStream
                (bin ++ record_bytes trim rotate version (bitmap, point))
                alignment;
      Done (bin', cerr)
    else Done (bin ++ record_bytes trim rotate version (bitmap, point), cerr).
Proof.
  unfold Packer.SaveBin_record, skipped, record_bytes. cbn [fst snd].
  destruct (Z.leb_spec 0 version) as [Hv|Hv];
    destruct (Z.ltb_spec (to_size_t alignment)
                (Packer.footprint bitmap trim rotate)) as [Hs|Hs];
    cbn [andb].
  - by rewrite decide_True.
  - rewrite decide_False by lia.
    rewrite (proj2 (Z.eqb_neq version (-1))) by lia.
    destruct trim, rotate; by rewrite <- ?(assoc_L (++)), ?(right_id_L [] (++)).
  - rewrite decide_False by lia.
    destruct (version =? -1), trim, rotate;
      by rewrite <- ?(assoc_L (++)), ?(right_id_L [] (++)).
  - rewrite decide_False by lia.
    destruct (version =? -1), trim, rotate;
      by rewrite <- ?(assoc_L (++)), ?(right_id_L [] (++)).
Qed.

(** Where [alignStream] writes nothing, or is not called, the loop writes
    the bytes of every record that is not skipped, one after another. *)
Lemma SaveBin_records_unpadded (items : list (Bitmap.t * Point.t)) :
  version < 0 ∨ alignment < 0 →
  Forall (λ item, ¬ skipped trim rotate version alignment item) items →
  ∀ bin cerr,
    Packer.SaveBin_records trim rotate version alignment (items.*1) (items.*2)
      (bin, cerr)
    = Done (bin ++ concat (record_bytes trim rotate version <$> items), cerr).
Proof.
  intros Hcase Hitems. induction Hitems as [|[bitmap point] items Hitem _ IH];
    intros bin cerr.
  - simpl. by rewrite (right_id_L [] (++)).
  - rewrite !fmap_cons. cbn [fst snd].
    rewrite SaveBin_records_cons, SaveBin_record_spec.
    rewrite decide_False by done.
    destruct (Z.leb_spec 0 version) as [Hv|Hv].
    + rewrite alignStream_negative by lia.
      change (Done ?s ≫= ?f) with (f s). cbv beta.
      change (Done ?s ≫= ?f) with (f s).
      rewrite IH. simpl. by rewrite (assoc_L (++)).
    + change (Done ?s ≫= ?f) with (f s).
      rewrite IH. simpl. by rewrite (assoc_L (++)).
Qed.

(** With a version that is not negative and an alignment from 1 to 4096,
    from a position that is a multiple of the alignment, the loop appends
    one block for each record that is not skipped. *)
Lemma SaveBin_records_blocks (items : list (Bitmap.t * Point.t)) :
  0 ≤ version → 0 < alignment ≤ 4096 →
  ∀ bin cerr, tellp bin mod alignment = 0 →
    ∃ blocks lines,
      Packer.SaveBin_records trim rotate version alignment (items.*1)
        (items.*2) (bin, cerr)
      = Done (bin ++ concat blocks, cerr ++ lines)
      ∧ Forall2 (padded_record trim rotate version alignment)
          (filter (λ item, ¬ skipped trim rotate version alignment item) items)
          blocks
      ∧ (length blocks + length lines = length items)%nat.
Proof.
  intros Hversion Halign.
  induction items as [|[bitmap point] items IH]; intros bin cerr Hbin.
  - exists [], []. simpl. rewrite !(right_id_L [] (++)).
    split; [done|]. split; [|done]. rewrite filter_nil. constructor.
  - rewrite !fmap_cons. cbn [fst snd].
    rewrite SaveBin_records_cons, SaveBin_record_spec.
    destruct (decide (skipped trim rotate version alignment (bitmap, point)))
      as [Hskip|Hfits].
    + change (Done ?s ≫= ?f) with (f s).
      destruct (IH bin
                  (cerr ++ [(Packer.skipping ++ Bitmap.name bitmap)%string])
                  Hbin) as (blocks & lines & -> & Hblocks & Hcount).
      exists blocks, ((Packer.skipping ++ Bitmap.name bitmap)%string :: lines).
      split; [by rewrite <- (assoc_L (++))|].
      rewrite filter_cons_False by (intros Hnot; by apply Hnot).
      split; [done | simpl; lia].
    + rewrite (proj2 (Z.leb_le _ _)) by done.
      destruct (alignStream_spec
                  (bin ++ record_bytes trim rotate version (bitmap, point))
                  alignment Halign) as [Hpad Hk].
      rewrite Hpad. change (Done ?s ≫= ?f) with (f s). cbv beta.
      change (Done ?s ≫= ?f) with (f s).
      set (k := alignment
                - tellp (bin ++ record_bytes trim rotate version
                                  (bitmap, point)) mod alignment) in *.
      set (block := record_bytes trim rotate version (bitmap, point)
                    ++ replicate (Z.to_nat k) x00).
      assert (tellp (bin ++ block) mod alignment = 0) as Haligned.
      { unfold block. rewrite (assoc_L (++)).
        by eapply alignStream_aligned. }
      assert (tellp block mod alignment = 0) as Hblock.
      { unfold tellp in *. rewrite length_app, Nat2Z.inj_add in Haligned.
        rewrite <- Z.add_mod_idemp_l, Hbin in Haligned by lia.
        by rewrite Z.add_0_l in Haligned. }
      rewrite <- (assoc_L (++)). fold block.
      destruct (IH (bin ++ block) cerr Haligned)
        as (blocks & lines & -> & Hblocks & Hcount).
      exists (block :: blocks), lines.
      split; [simpl; by rewrite (assoc_L (++))|].
      rewrite filter_cons_True by done.
      split; [|simpl; lia]. constructor; [|done]. by exists k.
Qed.

(** The loop over the records fails only where [alignStream] does. *)
Lemma SaveBin_records_Done (items : list (Bitmap.t * Point.t)) :
  version < 0 ∨ (alignment ≠ 0 ∧ alignment ≤ 4096) →
  ∀ s, ∃ s', Packer.SaveBin_records trim rotate version alignment (items.*1)
               (items.*2) s = Done s'.
Proof.
  intros Hcase.
  induction items as [|[bitmap point] items IH]; intros [bin cerr].
  - by eexists.
  - rewrite !fmap_cons. cbn [fst snd].
    rewrite SaveBin_records_cons, SaveBin_record_spec.
    case_decide; [apply IH|].
    destruct (Z.leb_spec 0 version) as [Hv|Hv]; [|apply IH].
    destruct (alignStream
                (bin ++ record_bytes trim rotate version (bitmap, point))
                alignment) as [bin'| |] eqn:Hpad.
    + apply IH.
    + apply alignStream_Undefined in Hpad. lia.
    + by apply alignStream_not_OutOfFuel in Hpad.
Qed.
End Encoder.

Section SaveBinLayout.
Context {sorter : StdSort} {writer : BinaryWriter}.
Variables (fuel : nat) (this : Packer.t) (name : string) (bin : list byte).
Variables (trim rotate : bool) (version : Z).
Hypothesis Hlen : length (Packer.bitmaps this) = length (Packer.points this).
Hypothesis Hfuel : (length (Packer.bitmaps this) < fuel)%nat.

(** The sorting of [SaveBin] returns, with sequences of the length they
    had. *)
Lemma SaveBin_sort_Done :
  ∃ this', Packer.SaveBin_sort fuel this = Done this'
           ∧ length (Packer.bitmaps this') = length (Packer.bitmaps this)
           ∧ length (Packer.points this') = length (Packer.bitmaps this)
           ∧ Permutation (Packer.bitmaps this') (Packer.bitmaps this).
Proof.
  pose proof (SaveBin_sort_spec fuel this Hlen) as Hspec.
  destruct (Packer.SaveBin_sort fuel this) as [this'| |]; [|done|lia].
  destruct Hspec as (p & Hp & Hbitmaps & Hpoints & _).
  exists this'. split; [done|].
  split; [by destruct Hbitmaps|].
  split; [destruct Hpoints as [-> _]; by rewrite Hlen|].
  by apply (permuted_by_Permutation p).
Qed.

(** X18. With sequences of one length, fuel for the sorting, a version
    that is not negative and an alignment from 1 to 4096, [SaveBin]
    returns. To the stream it appends the name of the atlas and the number
    of all the bitmaps, skipped ones included, zero bytes up to a multiple
    of the alignment, and then one block for each bitmap that is not
    skipped, in the sorted order: the bytes of its record followed by zero
    bytes, at least one and at most [alignment] of them, up to a multiple
    of the alignment. So every record written starts at a multiple of the
    alignment. Every bitmap gives a block or a line on [cerr]. *)
Theorem SaveBin_writes_aligned_blocks (alignment : Z) :
  0 ≤ version → 0 < alignment ≤ 4096 →
  ∃ this' k blocks cerr,
    Packer.SaveBin_sort fuel this = Done this'
    ∧ Packer.SaveBin fuel this name bin trim rotate version alignment
      = Done (this',
              (bin ++ header_bytes name version (length (Packer.bitmaps this))
               ++ replicate (Z.to_nat k) x00) ++ concat blocks,
              cerr)
    ∧ 1 ≤ k ≤ alignment
    ∧ tellp (bin ++ header_bytes name version (length (Packer.bitmaps this))
             ++ replicate (Z.to_nat k) x00) mod alignment = 0
    ∧ Forall2 (padded_record trim rotate version alignment)
        (filter (λ item, ¬ skipped trim rotate version alignment item)
           (zip (Packer.bitmaps this') (Packer.points this')))
        blocks
    ∧ (length blocks + length cerr = length (Packer.bitmaps this))%nat.
Proof.
  intros Hversion Halign.
  destruct SaveBin_sort_Done as (this' & Hsort & Hb & Hp & _).
  unfold Packer.SaveBin. rewrite Hsort.
  change (Done ?s ≫= ?f) with (f s). cbv beta.
  unfold Packer.SaveBin_header. rewrite (proj2 (Z.leb_le _ _)) by done.
  rewrite Hb.
  destruct (alignStream_spec
              ((bin ++ WriteStringVersion name version)
               ++ WriteShort (static_cast_int16_t
                                (Z.of_nat (length (Packer.bitmaps this)))))
              alignment Halign) as [Hpad Hk].
  pose proof (alignStream_aligned _ _ _ Halign Hpad) as [Haligned _].
  rewrite Hpad. change (Done ?s ≫= ?f) with (f s). cbv beta.
  revert Haligned Hk.
  set (k := alignment - _ mod alignment). intros Haligned Hk.
  assert (((bin ++ WriteStringVersion name version)
           ++ WriteShort (static_cast_int16_t
                            (Z.of_nat (length (Packer.bitmaps this)))))
          ++ replicate (Z.to_nat k) x00
          = bin ++ header_bytes name version (length (Packer.bitmaps this))
            ++ replicate (Z.to_nat k) x00) as Hheader.
  { unfold header_bytes. by rewrite <- !(assoc_L (++)). }
  rewrite Hheader in *.
  destruct (SaveBin_records_blocks trim rotate version alignment
              (zip (Packer.bitmaps this') (Packer.points this'))
              Hversion Halign _ [] Haligned)
    as (blocks & lines & Hrun & Hblocks & Hcount).
  rewrite fst_zip, snd_zip in Hrun by lia. rewrite Hrun.
  exists this', k, blocks, lines. split; [done|]. split; [done|].
  split; [done|]. split; [done|]. split; [done|].
  rewrite length_zip_with in Hcount. lia.
Qed.

(** X19. With a negative version (the layout without alignment),
    sequences of one length and fuel for the sorting, [SaveBin] returns
    whatever the alignment is, zero and values above 4096 included: the
    alignment is not looked at. It appends the name of the atlas, the
    number of bitmaps, and the bytes of every record one after another,
    with no padding; no bitmap is skipped and nothing is written to
    [cerr]. The name of a bitmap is written when the version is -1, and
    not with a version below -1. *)
Theorem SaveBin_negative_version_ignores_alignment :
  version < 0 →
  ∃ this',
    Packer.SaveBin_sort fuel this = Done this'
    ∧ ∀ alignment,
        Packer.SaveBin fuel this name bin trim rotate version alignment
        = Done (this',
                bin ++ header_bytes name version (length (Packer.bitmaps this))
                ++ concat (record_bytes trim rotate version
                           <$> zip (Packer.bitmaps this')
                                 (Packer.points this')),
                []).
Proof.
  intros Hversion.
  destruct SaveBin_sort_Done as (this' & Hsort & Hb & Hp & _).
  exists this'. split; [done|]. intros alignment.
  unfold Packer.SaveBin. rewrite Hsort.
  change (Done ?s ≫= ?f) with (f s). cbv beta.
  unfold Packer.SaveBin_header. rewrite (proj2 (Z.leb_gt _ _)) by done.
  change (Done ?s ≫= ?f) with (f s). cbv beta.
  pose proof (SaveBin_records_unpadded trim rotate version alignment
                (zip (Packer.bitmaps this') (Packer.points this'))
                (or_introl Hversion)) as Hrun.
  rewrite fst_zip, snd_zip in Hrun by lia. rewrite Hrun.
  - change (Done ?s ≫= ?f) with (f s). cbv beta iota.
    unfold header_bytes. by rewrite Hb, <- !(assoc_L (++)).
  - apply Forall_forall. intros item _ [Hv _]. lia.
Qed.

(** X20. With a version that is not negative and a negative alignment
    (an [int]), names shorter than 2^63 bytes, sequences of one length and
    fuel for the sorting, [SaveBin] returns: [alignStream] writes nothing
    and the test of line 161, made in [size_t], skips nothing, so the
    records follow the header and one another with no padding. *)
Theorem SaveBin_negative_alignment_neither_pads_nor_skips (alignment : Z) :
  0 ≤ version → -2147483648 ≤ alignment < 0 →
  Forall (λ bitmap, Z.of_nat (String.length (Bitmap.name bitmap))
                    < 9223372036854775808) (Packer.bitmaps this) →
  ∃ this',
    Packer.SaveBin_sort fuel this = Done this'
    ∧ Packer.SaveBin fuel this name bin trim rotate version alignment
      = Done (this',
              bin ++ header_bytes name version (length (Packer.bitmaps this))
              ++ concat (record_bytes trim rotate version
                         <$> zip (Packer.bitmaps this') (Packer.points this')),
              []).
Proof.
  intros Hversion Halign Hnames.
  destruct SaveBin_sort_Done as (this' & Hsort & Hb & Hp & Hperm).
  exists this'. split; [done|].
  unfold Packer.SaveBin. rewrite Hsort.
  change (Done ?s ≫= ?f) with (f s). cbv beta.
  unfold Packer.SaveBin_header. rewrite (proj2 (Z.leb_le _ _)) by done.
  rewrite alignStream_negative by lia.
  change (Done ?s ≫= ?f) with (f s). cbv beta.
  pose proof (SaveBin_records_unpadded trim rotate version alignment
                (zip (Packer.bitmaps this') (Packer.points this'))
                (or_intror (proj2 Halign))) as Hrun.
  rewrite fst_zip, snd_zip in Hrun by lia. rewrite Hrun.
  - change (Done ?s ≫= ?f) with (f s). cbv beta iota.
    unfold header_bytes. by rewrite Hb, <- !(assoc_L (++)).
  - apply Forall_forall. intros [bitmap point] Hin [_ Hskip].
    apply elem_of_zip_l in Hin. rewrite Hperm in Hin.
    rewrite Forall_forall in Hnames. specialize (Hnames _ Hin).
    simpl in Hskip. rewrite footprint_record_size in Hskip by done.
    unfold to_size_t, record_size in Hskip.
    replace (alignment mod 18446744073709551616)
      with (alignment + 18446744073709551616) in Hskip
      by (apply Z.mod_unique with (-1); lia).
    destruct trim, rotate; lia.
Qed.

(** Outside the alignments that [alignStream] fails on, [SaveBin]
    returns. *)
Lemma SaveBin_returns (alignment : Z) :
  ¬ (0 ≤ version ∧ (alignment = 0 ∨ 4096 < alignment)) →
  ∃ r, Packer.SaveBin fuel this name bin trim rotate version alignment
       = Done r.
Proof.
  destruct SaveBin_sort_Done as (this' & Hsort & Hb & Hp & _).
  intros Hnot. unfold Packer.SaveBin. rewrite Hsort.
  change (Done ?s ≫= ?f) with (f s). cbv beta.
  assert (∃ header, Packer.SaveBin_header this' name bin version alignment
                    = Done header) as [header ->].
  { unfold Packer.SaveBin_header.
    destruct (Z.leb_spec 0 version) as [Hv|Hv]; [|by eexists].
    match goal with
    | |- context [alignStream ?b alignment] =>
        destruct (alignStream b alignment) as [header| |] eqn:Hpad
    end.
    - by eexists.
    - apply alignStream_Undefined in Hpad. lia.
    - by apply alignStream_not_OutOfFuel in Hpad. }
  change (Done ?s ≫= ?f) with (f s). cbv beta.
  destruct (SaveBin_records_Done trim rotate version alignment
              (zip (Packer.bitmaps this') (Packer.points this'))
              ltac:(lia) (header, [])) as [[bin' cerr] Hrun].
  rewrite fst_zip, snd_zip in Hrun by lia. rewrite Hrun. by eexists.
Qed.

(** X21. With sequences of one length and fuel for the sorting, [SaveBin]
    has undefined behaviour exactly when the version is not negative and
    the alignment is 0 (a division by zero in [alignStream]) or above 4096
    (its [assert]); otherwise it returns. *)
Theorem SaveBin_undefined_on_alignment_0_or_above_4096 (alignment : Z) :
  (Packer.SaveBin fuel this name bin trim rotate version alignment = Undefined
   ↔ 0 ≤ version ∧ (alignment = 0 ∨ 4096 < alignment))
  ∧ (¬ (0 ≤ version ∧ (alignment = 0 ∨ 4096 < alignment)) →
     ∃ r, Packer.SaveBin fuel this name bin trim rotate version alignment
          = Done r).
Proof.
  split; [|apply SaveBin_returns]. split.
  - intros Hundefined.
    destruct (decide (0 ≤ version ∧ (alignment = 0 ∨ 4096 < alignment)))
      as [|Hnot]; [done|].
    destruct (SaveBin_returns alignment Hnot) as [r Hr]. congruence.
  - intros [Hversion Halign].
    destruct SaveBin_sort_Done as (this' & Hsort & _).
    unfold Packer.SaveBin. rewrite Hsort.
    change (Done ?s ≫= ?f) with (f s). cbv beta.
    unfold Packer.SaveBin_header. rewrite (proj2 (Z.leb_le _ _)) by done.
    by rewrite (proj2 (alignStream_Undefined _ alignment) Halign).
Qed.
End SaveBinLayout.

(** ** The size of a block of the binary stream *)

Section RecordStride.
Context {writer : BinaryWriter}.
Hypothesis WriteShort_length : ∀ v, length (WriteShort v) = 2%nat.
Hypothesis WriteByte_length : ∀ v, length (WriteByte v) = 1%nat.
Hypothesis WriteLengthPrefixedString_length :
  ∀ s, length (WriteLengthPrefixedString s) = (2 + String.length s)%nat.

Lemma record_bytes_length (trim rotate : bool) (version : Z)
    (item : Bitmap.t * Point.t) :
  0 ≤ version →
  tellp (record_bytes trim rotate version item)
  = record_size item.1 trim rotate.
Proof.
  intros Hversion. unfold tellp, record_bytes, record_size.
  rewrite (proj2 (Z.eqb_neq version (-1))) by lia.
  rewrite (proj2 (Z.leb_le _ _)) by done.
  destruct trim, rotate;
    rewrite ?length_app, ?WriteShort_length, ?WriteByte_length,
      ?WriteLengthPrefixedString_length; simpl; lia.
Qed.

(** X22. With writers that write a short on 2 bytes, a byte on 1 and a
    string with its length on 2 bytes more than it is long (the sizes that
    the comment of line 160 counts), a version that is not negative, an
    alignment from 1 to 4096 and a stream at a multiple of the alignment:
    a record whose size is below the alignment advances the stream by
    [alignment] bytes exactly, and a record whose size is the alignment,
    which line 161 lets through, advances it by twice [alignment]. *)
Theorem SaveBin_record_takes_one_block_or_two (trim rotate : bool)
    (version alignment : Z) (bitmap : Bitmap.t) (point : Point.t)
    (bin : list byte) (cerr : list string) :
  0 ≤ version → 0 < alignment ≤ 4096 →
  tellp bin mod alignment = 0 →
  record_size bitmap trim rotate ≤ alignment →
  ∃ bin',
    Packer.SaveBin_record trim rotate version alignment bitmap point
      (bin, cerr) = Done (bin', cerr)
    ∧ tellp bin'
      = tellp bin
        + (if decide (record_size bitmap trim rotate = alignment)
           then 2 * alignment else alignment).
Proof.
  intros Hversion Halign Hbin Hfits.
  assert (Z.of_nat (String.length (Bitmap.name bitmap)) < 9223372036854775808)
    as Hname by (unfold record_size in Hfits; destruct trim, rotate; lia).
  rewrite SaveBin_record_spec.
  rewrite decide_False.
  2: { intros [_ Hskip]. simpl in Hskip.
       rewrite (footprint_record_size trim rotate) in Hskip by done.
       unfold to_size_t in Hskip. rewrite Z.mod_small in Hskip by lia. lia. }
  rewrite (proj2 (Z.leb_le _ _)) by done.
  destruct (alignStream_spec
              (bin ++ record_bytes trim rotate version (bitmap, point))
              alignment Halign) as [Hpad Hk].
  pose proof (record_bytes_length trim rotate version (bitmap, point) Hversion)
    as Hsize.
  assert (0 < record_size bitmap trim rotate) as Hpositive
    by (unfold record_size; destruct trim, rotate; lia).
  assert (tellp (bin ++ record_bytes trim rotate version (bitmap, point))
          = tellp bin + record_size bitmap trim rotate) as Hposition.
  { unfold tellp in *. rewrite length_app, Nat2Z.inj_add. by rewrite Hsize. }
  rewrite Hposition in Hpad, Hk.
  rewrite <- Z.add_mod_idemp_l, Hbin, Z.add_0_l in Hpad, Hk by lia.
  rewrite Hpad. change (Done ?s ≫= ?f) with (f s). cbv beta.
  eexists. split; [done|].
  unfold tellp at 1. rewrite length_app, length_replicate, Nat2Z.inj_add.
  fold (tellp (bin ++ record_bytes trim rotate version (bitmap, point))).
  rewrite Hposition, Z2Nat.id by lia.
  case_decide as Hexact.
  - rewrite Hexact, Z.mod_same by lia. lia.
  - rewrite Z.mod_small by lia. lia.
Qed.
End RecordStride.

(** ** From [Pack] to the emitters *)

Section PackThenSave.
Context {B : Type} {bin : RectangleBin B} {equals : BitmapEquals}.
Variables (verbose unique rotate : bool).

(** X23. What [Pack] returns for a well-formed object is well formed, and
    every emitter returns on it: [SavePng] with a canvas of the width and
    the height that [Pack] left, [SaveXml] and [SaveJson] with the object
    as it was, and [SaveBin], given fuel for its sorting, for every
    alignment that [alignStream] accepts. None reads a vector past its
    end. *)
Theorem Pack_then_every_emitter_returns (fuel : nat) (this this' : Packer.t)
    (input rest' : list Bitmap.t) (out : list (nat * string)) :
  well_formed this → countable_in_int this input →
  Packer.Pack verbose unique rotate fuel this input = Done (this', rest', out) →
  well_formed this'
  ∧ (∀ file, ∃ blits,
       Packer.SavePng this' file
       = Done (this', (Packer.width this', Packer.height this', blits, file)))
  ∧ (∀ name xml trim rotate', ∃ xml',
       Packer.SaveXml this' name xml trim rotate' = Done (this', xml'))
  ∧ (∀ name json trim rotate', ∃ json',
       Packer.SaveJson this' name json trim rotate' = Done (this', json'))
  ∧ (∀ (sorter : StdSort) (writer : BinaryWriter) fuel' name stream trim
       rotate' version alignment,
       (length (Packer.bitmaps this') < fuel')%nat →
       ¬ (0 ≤ version ∧ (alignment = 0 ∨ 4096 < alignment)) →
       ∃ r, Packer.SaveBin fuel' this' name stream trim rotate' version
              alignment = Done r).
Proof.
  intros Hwf Hcount Hpack.
  pose proof Hpack as Hplace.
  apply Pack_Done in Hplace as (st & rest & Hrun & Hb & Hp & Hl & _).
  apply countable_in_int_rev in Hcount.
  pose proof (Pack_loop_well_formed verbose unique rotate
                (Packer.mkLocals
                   (MaxRectsBinPack (Packer.width this) (Packer.height this))
                   this 0 0 [])
                st (rev input) rest Hwf Hcount Hrun) as [[Hlen Hdup] _].
  assert (well_formed this') as Hwf'.
  { split; [by rewrite Hb, Hp|]. rewrite Hl, Hp. exact Hdup. }
  split; [done|]. destruct Hwf' as [Hlen' _].
  split; [|split; [|split]].
  - intros file. eexists. unfold Packer.SavePng.
    by rewrite (SavePng_loop this' _ ltac:(lia) 0 []).
  - intros name xml trim rotate'. eexists. unfold Packer.SaveXml.
    by rewrite (SaveXml_loop this' trim rotate' _ ltac:(lia) 0).
  - intros name json trim rotate'. eexists. unfold Packer.SaveJson.
    by rewrite (SaveJson_loop this' trim rotate' _ ltac:(lia) 0).
  - intros sorter writer fuel' name stream trim rotate' version alignment
      Hfuel Halign.
    by apply SaveBin_returns.
Qed.
End PackThenSave.

(** * Runs of the model *)

Lemma well_formed_Packer (width height pad : Z) :
  well_formed (Packer.Packer width height pad).
Proof.
  split; [done|]. intros h v Hv. simpl in Hv. by rewrite lookup_empty in Hv.
Qed.

Lemma Pack_shrinks_to_smallest_halving_witness :
  smallest_halving 64 30 32 ∧ smallest_halving 64 10 16.
Proof.
  destruct (Pack_shrinks_to_smallest_halving (B := RowBin)
              (bin := RowBin_RectangleBin) (laws := RowBin_Laws)
              (equals := pixel_Equals) false true false scenario_packer
              scenario_input [] scenario_locals) as [Hshrink _].
  - simpl. lia.
  - simpl. lia.
  - vm_compute. reflexivity.
  - apply (Hshrink 8%nat scenario_packed [] []). vm_compute. reflexivity.
Defined.

Lemma Pack_terminates_iff_placed_witness :
  ∃ fuel, ∀ fuel', (fuel ≤ fuel')%nat →
    ∃ r, Packer.Pack (bin := RowBin_RectangleBin) (equals := pixel_Equals)
           false true false fuel' scenario_packer scenario_input = Done r.
Proof.
  destruct (Pack_terminates_iff_placed (B := RowBin)
              (bin := RowBin_RectangleBin) (laws := RowBin_Laws)
              (equals := pixel_Equals) false true false scenario_packer
              scenario_input) as (st & rest & Hrun & Hplaced & _).
  - apply well_formed_Packer.
  - unfold countable_in_int. simpl. lia.
  - simpl. lia.
  - simpl. lia.
  - assert (Done (st, rest) = Done (scenario_locals, [])) as [= -> ->].
    { rewrite <- Hrun. vm_compute. reflexivity. }
    apply Hplaced. exists 0%nat, (Point.mk 0 0 (-1) false).
    split; [simpl; lia|]. split; reflexivity.
Defined.

Lemma Pack_stops_when_exhausted_witness :
  ∃ st', Packer.Pack_loop (bin := RowBin_RectangleBin) (equals := pixel_Equals)
           false false false full_locals [bitmap_b; bitmap_c]
         = Done (st', [bitmap_b; bitmap_c])
         ∧ Packer.self st' = Packer.self full_locals
         ∧ Packer.ww st' = 11 ∧ Packer.hh st' = 11.
Proof.
  apply (proj1 (Pack_stops_when_exhausted (B := RowBin)
                  (bin := RowBin_RectangleBin) (equals := pixel_Equals)
                  false false false)
           full_locals bitmap_b [bitmap_c] (Rect.mk 0 0 0 0)
           (mkRowBin 16 16 11)).
  - reflexivity.
  - vm_compute. reflexivity.
  - left. reflexivity.
Defined.

Lemma Pack_rot_inferred_from_width_witness :
  ∃ st' p,
    Packer.Pack_body (bin := RowBin_RectangleBin) (equals := pixel_Equals)
      false true true (first_locals scenario_packer) 3 bitmap_a
    = Done (Packer.Popped st')
    ∧ Packer.bitmaps (Packer.self st') = [bitmap_a]
    ∧ Packer.points (Packer.self st') = [p]
    ∧ Point.dupID p = -1
    ∧ (Point.rot p = true ↔ true = true ∧ 10 ≠ 10 - 0).
Proof.
  apply (proj1 (Pack_rot_inferred_from_width (B := RowBin)
                  (bin := RowBin_RectangleBin) (equals := pixel_Equals)
                  false true true)
           (first_locals scenario_packer) 3%nat bitmap_a (Rect.mk 0 0 10 10)
           (mkRowBin 64 64 10)).
  - vm_compute. reflexivity.
  - vm_compute. reflexivity.
  - simpl. lia.
  - simpl. lia.
Defined.

Lemma Pack_duplicate_copies_canonical_witness :
  ∃ q, Packer.points (Packer.self scenario_locals) !! 0%nat = Some q
       ∧ 0 = Point.x q ∧ 0 = Point.y q ∧ false = Point.rot q.
Proof.
  destruct (proj1 (Pack_duplicate_copies_canonical (B := RowBin)
                     (bin := RowBin_RectangleBin) (equals := pixel_Equals)
                     false true false)
              scenario_packer scenario_input) as (st & rest & Hrun & Hrec & _).
  - apply well_formed_Packer.
  - unfold countable_in_int. simpl. lia.
  - assert (Done (st, rest) = Done (scenario_locals, [])) as [= -> ->].
    { rewrite <- Hrun. vm_compute. reflexivity. }
    apply (Hrec 1%nat (Point.mk 0 0 0 false)).
    + simpl. lia.
    + reflexivity.
    + simpl. lia.
Defined.

Lemma dupLookup_kept_while_equal_witness :
  ∃ st' rest,
    Packer.Pack_loop (bin := RowBin_RectangleBin) (equals := pixel_Equals)
      false true false duplicate_locals_1 [bitmap_b] = Done (st', rest)
    ∧ Packer.dupLookup (Packer.self st') !! 7%N = Some 0
    ∧ ∀ i b p,
        (1 ≤ i)%nat →
        Packer.bitmaps (Packer.self st') !! i = Some b →
        Packer.points (Packer.self st') !! i = Some p →
        Bitmap.hashValue b = 7%N → Point.dupID p = 0.
Proof.
  apply (proj2 (dupLookup_kept_while_equal (B := RowBin)
                  (bin := RowBin_RectangleBin) (equals := pixel_Equals)
                  false false)
           duplicate_locals_1 [bitmap_b] 7%N 0 bitmap_a).
  - split; [reflexivity|]. intros h v Hv. simpl in Hv.
    apply lookup_insert_Some in Hv as [[_ <-]|[_ Hv]]; [simpl; lia|].
    by rewrite lookup_empty in Hv.
  - unfold countable_in_int. simpl. lia.
  - reflexivity.
  - reflexivity.
  - intros b ->%list_elem_of_singleton _. vm_compute. reflexivity.
Defined.

(** C9 as it is stated fails. [b] is placed and its hash 7 is mapped to
    record 0. Then [a'], of hash 7 and other pixels, is placed and the hash
    is mapped to record 1; then [a], of hash 7 and of the pixels of [b],
    is compared with [a'] only, is placed a second time, and the hash is
    mapped to record 2. *)
Lemma dupLookup_remapped_after_collision :
  Packer.Pack_loop (bin := RowBin_RectangleBin) (equals := pixel_Equals)
    false true false (first_locals scenario_packer) [bitmap_b]
  = Done (collision_locals_1, [])
  ∧ Packer.dupLookup (Packer.self collision_locals_1) !! 7%N = Some 0
  ∧ Packer.Pack_loop (bin := RowBin_RectangleBin) (equals := pixel_Equals)
      false true false collision_locals_1 [bitmap_a'; bitmap_a]
    = Done (collision_locals_3, [])
  ∧ Packer.dupLookup (Packer.self collision_locals_3) !! 7%N = Some 2
  ∧ Bitmap.hashValue bitmap_a = 7%N
  ∧ Equals (BitmapEquals := pixel_Equals) bitmap_a bitmap_b = true
  ∧ Packer.bitmaps (Packer.self collision_locals_3) !! 2%nat = Some bitmap_a
  ∧ Point.dupID <$> Packer.points (Packer.self collision_locals_3) !! 2%nat
    = Some (-1).
Proof. repeat split; vm_compute; reflexivity. Qed.

Lemma SaveBin_sorts_by_name_witness :
  ∃ this' p,
    Packer.SaveBin_sort (sorter := insertion_StdSort) 3 two_packer = Done this'
    ∧ Permutation p (seq 0 2)
    ∧ permuted_by p [bitmap_c; bitmap_a] (Packer.bitmaps this')
    ∧ permuted_by p [point_1; point_0] (Packer.points this')
    ∧ (∀ i j a b, (i < j)%nat →
         Packer.bitmaps this' !! i = Some a →
         Packer.bitmaps this' !! j = Some b →
         (Bitmap.name a ?= Bitmap.name b)%string ≠ Gt)
    ∧ ∀ (writer : BinaryWriter) name bin trim rotate version alignment r,
        Packer.SaveBin (sorter := insertion_StdSort) 3 two_packer name bin
          trim rotate version alignment = Done r →
        r.1.1 = this'.
Proof.
  apply (SaveBin_sorts_by_name (sorter := insertion_StdSort) 3 two_packer).
  - reflexivity.
  - simpl. lia.
Defined.


Lemma index_alignment_kept_witness :
  length (Packer.bitmaps (Packer.self scenario_locals))
  = length (Packer.points (Packer.self scenario_locals))
  ∧ ∀ i bitmap p,
      (0 ≤ i)%nat →
      Packer.bitmaps (Packer.self scenario_locals) !! i = Some bitmap →
      Packer.points (Packer.self scenario_locals) !! i = Some p →
      placement_for (bin := RowBin_RectangleBin) (equals := pixel_Equals)
        false (Packer.self scenario_locals) i bitmap p.
Proof.
  destruct (proj1 index_alignment_kept RowBin RowBin_RectangleBin pixel_Equals
              false true false scenario_packer scenario_input)
    as (st & rest & Hrun & Hlen & Hrec & _).
  - apply well_formed_Packer.
  - unfold countable_in_int. simpl. lia.
  - assert (Done (st, rest) = Done (scenario_locals, [])) as [= -> ->].
    { rewrite <- Hrun. vm_compute. reflexivity. }
    split; [exact Hlen | exact Hrec].
Defined.

Lemma alignStream_pads_to_a_later_multiple_witness :
  alignStream (replicate 16 x01) 16
  = Done (replicate 16 x01 ++ replicate 16 x00).
Proof.
  destruct (alignStream_pads_to_a_later_multiple (replicate 16 x01) 16)
    as (k & Hrun & _ & _ & Hk); [lia|].
  rewrite Hrun, Hk; reflexivity.
Defined.

Lemma SaveBin_skips_oversized_records_witness :
  ∃ this' header bin',
    Packer.SaveBin_sort (sorter := insertion_StdSort) 3 hero_packer = Done this'
    ∧ Packer.SaveBin_header (writer := plain_BinaryWriter) this' "atlas" [] 0 16
      = Done header
    ∧ Packer.SaveBin (sorter := insertion_StdSort)
        (writer := plain_BinaryWriter) 3 hero_packer "atlas" [] false false
        0 16
      = Done (this', bin',
              diagnostic <$> filter (oversized 16 false false)
                               (zip (Packer.bitmaps this') (Packer.points this')))
    ∧ Packer.SaveBin_records (writer := plain_BinaryWriter) false false 0 16
        ((filter (λ item, ¬ oversized 16 false false item)
            (zip (Packer.bitmaps this') (Packer.points this'))).*1)
        ((filter (λ item, ¬ oversized 16 false false item)
            (zip (Packer.bitmaps this') (Packer.points this'))).*2)
        (header, [])
      = Done (bin', []).
Proof.
  apply (SaveBin_skips_oversized_records (sorter := insertion_StdSort)
           (writer := plain_BinaryWriter) 3 hero_packer "atlas" [] false false
           0 16).
  - reflexivity.
  - simpl. lia.
  - lia.
  - lia.
  - repeat constructor.
Defined.


(** With the writers above, a record of exactly [alignment] bytes is
    followed by [alignment] zero bytes. *)
Lemma SaveBin_exact_fit_takes_two_blocks :
  record_size bitmap_sprite false false = 16
  ∧ ∃ bin', Packer.SaveBin_records (writer := plain_BinaryWriter) false false
              0 16 [bitmap_sprite] [point_1] ([], [])
            = Done (bin', [])
            ∧ length bin' = 32%nat
            ∧ drop 16 bin' = replicate 16 x00.
Proof.
  split; [reflexivity|]. eexists. split; [vm_compute; reflexivity|].
  split; reflexivity.
Qed.

(** ** Runs of [Pack] as a whole *)

Lemma canonical_Packer (width height pad : Z) :
  canonical (Packer.Packer width height pad).
Proof.
  split.
  - intros h v Hv. simpl in Hv. by rewrite lookup_empty in Hv.
  - intros i b p Hb. simpl in Hb. by rewrite lookup_nil in Hb.
Qed.

Lemma scenario_countable : countable_in_int scenario_packer scenario_input.
Proof. unfold countable_in_int. simpl. lia. Qed.

Lemma scenario_Pack :
  Packer.Pack (bin := RowBin_RectangleBin) (equals := pixel_Equals)
    false true false 8 scenario_packer scenario_input
  = Done (scenario_packed, [], []).
Proof. vm_compute. reflexivity. Qed.

Lemma length_list_byte_of_string (s : string) :
  length (list_byte_of_string s) = String.length s.
Proof.
  unfold list_byte_of_string. rewrite length_map.
  induction s as [|a s IH]; simpl; [done | by rewrite IH].
Qed.

Lemma Z_ltb_ordering (vec : list Z) : strict_weak_ordering Z.ltb vec.
Proof.
  split.
  - intros a _. apply Z.ltb_irrefl.
  - intros a b c _ _ _ ?%Z.ltb_lt ?%Z.ltb_lt. apply Z.ltb_lt. lia.
  - intros a b c _ _ _ ?%Z.ltb_ge ?%Z.ltb_ge. apply Z.ltb_ge. lia.
Qed.

Lemma Pack_duplicates_name_placements_witness :
  canonical (Packer.self scenario_locals).
Proof.
  destruct (Pack_duplicates_name_placements (B := RowBin)
              (bin := RowBin_RectangleBin) (equals := pixel_Equals)
              false true false scenario_packer scenario_input)
    as (st & rest & Hrun & Hcanonical & _).
  - apply well_formed_Packer.
  - apply scenario_countable.
  - apply canonical_Packer.
  - assert (Done (st, rest) = Done (scenario_locals, [])) as [= -> ->].
    { rewrite <- Hrun. vm_compute. reflexivity. }
    exact Hcanonical.
Defined.

Lemma Pack_verbose_announces_items_examined_witness :
  ∃ st rest,
    Packer.Pack_placement (bin := RowBin_RectangleBin) (equals := pixel_Equals)
      true true false scenario_packer scenario_input = Done (st, rest)
    ∧ Packer.cout st = [(3%nat, "a"); (2%nat, "b"); (1%nat, "c")]%string.
Proof.
  destruct (Pack_verbose_announces_items_examined (B := RowBin)
              (bin := RowBin_RectangleBin) (equals := pixel_Equals)
              true true false scenario_packer scenario_input)
    as (st & rest & Hrun & Hcout & _).
  - apply well_formed_Packer.
  - apply scenario_countable.
  - exists st, rest. split; [exact Hrun|].
    assert (Done (st, rest) = Done (scenario_locals_verbose, []))
      as [= -> ->].
    { rewrite <- Hrun. vm_compute. reflexivity. }
    rewrite Hcout. vm_compute. reflexivity.
Defined.

Lemma Pack_requests_one_Insert_per_placement_witness :
  ∃ st rest,
    Packer.Pack_placement (bin := Traced_RectangleBin RowBin_RectangleBin)
      (equals := pixel_Equals) false true false scenario_packer scenario_input
    = Done (st, rest)
    ∧ (Packer.packer st).2 = [(10, 10, false); (20, 5, false)].
Proof.
  destruct (Pack_requests_one_Insert_per_placement (B := RowBin)
              (bin := RowBin_RectangleBin) (equals := pixel_Equals)
              false true false scenario_packer scenario_input)
    as (st & rest & Hrun & Hrequests & _).
  - apply well_formed_Packer.
  - apply scenario_countable.
  - exists st, rest. split; [exact Hrun|].
    assert (Done (st, rest) = Done (scenario_locals_traced, []))
      as [= -> ->].
    { rewrite <- Hrun. vm_compute. reflexivity. }
    rewrite Hrequests. vm_compute. reflexivity.
Defined.

Lemma Pack_records_on_shrunk_canvas_witness :
  0 ≤ 10 < Packer.width scenario_packed
  ∧ 0 ≤ 0 < Packer.height scenario_packed.
Proof.
  destruct (Pack_records_on_shrunk_canvas (B := RowBin)
              (bin := RowBin_RectangleBin) (laws := RowBin_Laws)
              (equals := pixel_Equals) false true false scenario_packer
              scenario_input) as (st & rest & Hrun & Hreturn & _).
  - apply well_formed_Packer.
  - apply scenario_countable.
  - reflexivity.
  - simpl. lia.
  - simpl. lia.
  - destruct (Hreturn 8%nat scenario_packed [] [] scenario_Pack)
      as (_ & _ & _ & Hon).
    apply (Hon (Point.mk 10 0 (-1) false)).
    apply (list_elem_of_lookup_2 _ 2%nat). reflexivity.
Defined.

Lemma Pack_keeps_powers_of_two_witness :
  ∃ j k, (j ≤ 6)%nat ∧ (k ≤ 6)%nat
         ∧ Packer.width scenario_packed = 2 ^ Z.of_nat j
         ∧ Packer.height scenario_packed = 2 ^ Z.of_nat k
         ∧ Packer.ww scenario_locals ≤ Packer.width scenario_packed
           < 2 * Packer.ww scenario_locals
         ∧ Packer.hh scenario_locals ≤ Packer.height scenario_packed
           < 2 * Packer.hh scenario_locals.
Proof.
  apply (Pack_keeps_powers_of_two (B := RowBin) (bin := RowBin_RectangleBin)
           (laws := RowBin_Laws) (equals := pixel_Equals) false true false
           scenario_packer scenario_packed scenario_input [] []
           scenario_locals 8 6 6 []).
  - reflexivity.
  - reflexivity.
  - vm_compute. reflexivity.
  - apply scenario_Pack.
Defined.

Lemma Pack_without_rotate_marks_no_record_witness :
  ∃ st rest,
    Packer.Pack_placement (bin := RowBin_RectangleBin) (equals := pixel_Equals)
      false true false scenario_packer scenario_input = Done (st, rest)
    ∧ ∀ p, p ∈ Packer.points (Packer.self st) → Point.rot p = false.
Proof.
  destruct (Pack_without_rotate_marks_no_record (B := RowBin)
              (bin := RowBin_RectangleBin) (equals := pixel_Equals)
              false true scenario_packer scenario_input)
    as (st & rest & Hrun & Hrot & _).
  - apply well_formed_Packer.
  - apply scenario_countable.
  - intros p Hp. simpl in Hp. by apply elem_of_nil in Hp.
  - by exists st, rest.
Defined.

Lemma Pack_then_every_emitter_returns_witness :
  well_formed scenario_packed
  ∧ ∃ blits, Packer.SavePng scenario_packed "atlas.png"
             = Done (scenario_packed, (32, 16, blits, "atlas.png"%string)).
Proof.
  destruct (Pack_then_every_emitter_returns (B := RowBin)
              (bin := RowBin_RectangleBin) (equals := pixel_Equals)
              false true false 8 scenario_packer scenario_packed
              scenario_input [] []) as (Hwf & Hpng & _).
  - apply well_formed_Packer.
  - apply scenario_countable.
  - apply scenario_Pack.
  - split; [exact Hwf | exact (Hpng "atlas.png"%string)].
Defined.


Lemma Pack_never_returns_when_nothing_is_placed_witness :
  Packer.Pack (bin := RowBin_RectangleBin) (equals := pixel_Equals)
    false true false 1000 scenario_packer [] = OutOfFuel
  ∧ Packer.Pack (bin := RowBin_RectangleBin) (equals := pixel_Equals)
      false true false 1000 tight_packer ([bitmap_a] ++ [bitmap_c])
    = OutOfFuel.
Proof.
  split.
  - apply (proj1 (Pack_never_returns_when_nothing_is_placed (B := RowBin)
                    (bin := RowBin_RectangleBin) (equals := pixel_Equals)
                    false true false scenario_packer
                    ltac:(simpl; lia) ltac:(simpl; lia))).
  - apply (proj2 (Pack_never_returns_when_nothing_is_placed (B := RowBin)
                    (bin := RowBin_RectangleBin) (equals := pixel_Equals)
                    false true false tight_packer
                    ltac:(simpl; lia) ltac:(simpl; lia))).
    + reflexivity.
    + left. reflexivity.
Defined.

(** ** Runs of the permutation functions *)

Lemma apply_permutation_in_place_keeps_elements_witness :
  Permutation [20; 10] [10; 20].
Proof.
  apply (apply_permutation_in_place_keeps_elements [1; 0; 7]%nat 4
           [10; 20] [20; 10]).
  vm_compute. reflexivity.
Defined.

Lemma apply_permutation_in_place_returns_for_permutations_only_witness :
  (length [10; 20] ≤ length [1; 0; 7]%nat)%nat
  ∧ Permutation (take (length [10; 20]) [1; 0; 7]%nat)
      (seq 0 (length [10; 20])).
Proof.
  apply (apply_permutation_in_place_returns_for_permutations_only
           [1; 0; 7]%nat 4 [10; 20] [20; 10]).
  vm_compute. reflexivity.
Defined.

Lemma apply_permutation_in_place_reorders_witness :
  ∃ vec', apply_permutation_in_place 4 [10; 20; 30] [2; 0; 1]%nat = Done vec'
          ∧ length vec' = length [10; 20; 30]
          ∧ ∀ k j, [2; 0; 1]%nat !! k = Some j → vec' !! k = [10; 20; 30] !! j.
Proof.
  apply (apply_permutation_in_place_reorders 4 [10; 20; 30] [2; 0; 1]%nat).
  - exact (Permutation_app_comm [2%nat] [0; 1]%nat).
  - simpl. lia.
Defined.

Lemma apply_permutation_in_place_twice_witness :
  ∃ vec' vec'',
    apply_permutation_in_place 4 [10; 20; 30] [2; 0; 1]%nat = Done vec'
    ∧ apply_permutation_in_place 4 vec' [1; 2; 0]%nat = Done vec''
    ∧ vec'' = [10; 20; 30].
Proof.
  destruct (apply_permutation_in_place_twice 4 [10; 20; 30] [2; 0; 1]%nat
              [1; 2; 0]%nat)
    as (vec' & vec'' & Hfirst & Hsecond & _ & Hundo).
  - exact (Permutation_app_comm [2%nat] [0; 1]%nat).
  - exact (Permutation_app_comm [1; 2]%nat [0%nat]).
  - simpl. lia.
  - exists vec', vec''. split; [exact Hfirst|]. split; [exact Hsecond|].
    apply Hundo. intros [|[|[|k]]] i Hk; simplify_eq/=; reflexivity.
Defined.

Lemma sort_permutation_orders_positions_witness :
  Permutation (sort_permutation (sorter := insertion_StdSort) [30; 10; 20]
                 Z.ltb)
    (seq 0 3).
Proof.
  apply (sort_permutation_orders_positions (sorter := insertion_StdSort)
           [30; 10; 20] Z.ltb).
  apply Z_ltb_ordering.
Defined.

(** ** Runs of the emitters *)

Lemma SavePng_draws_placements_only_witness :
  Packer.SavePng scenario_packed "atlas.png"
  = Done (scenario_packed,
          (32, 16,
           [Packer.CopyPixels bitmap_a 0 0; Packer.CopyPixels bitmap_c 10 0],
           "atlas.png"%string))
  ∧ Packer.SavePng torn_packer "atlas.png" = Undefined.
Proof.
  split.
  - rewrite (proj1 (SavePng_draws_placements_only scenario_packed "atlas.png"))
      by (simpl; lia).
    reflexivity.
  - apply (proj2 (SavePng_draws_placements_only torn_packer "atlas.png")).
    simpl. lia.
Defined.

Lemma SaveXml_lists_every_record_witness :
  Packer.SaveXml two_packer "atlas" "<atlas>" true true
  = Done (two_packer,
          ("<atlas>" ++ tab ++ "<tex n=" ++ quote ++ "atlas" ++ quote ++ ">"
           ++ endl
           ++ Packer.SaveXml_img true true bitmap_c point_1
           ++ Packer.SaveXml_img true true bitmap_a point_0
           ++ tab ++ "</tex>" ++ endl)%string)
  ∧ Packer.SaveXml torn_packer "atlas" "<atlas>" true true = Undefined.
Proof.
  split.
  - rewrite (proj1 (SaveXml_lists_every_record two_packer "atlas" "<atlas>"
                      true true)) by (simpl; lia).
    reflexivity.
  - apply (proj2 (SaveXml_lists_every_record torn_packer "atlas" "<atlas>"
                    true true)).
    simpl. lia.
Defined.

Lemma SaveJson_separates_elements_by_commas_witness :
  Packer.SaveJson two_packer "atlas" "{" false true
  = Done (two_packer,
          ("{" ++ tab ++ tab ++ tab ++ quote ++ "name" ++ quote ++ ":"
           ++ quote ++ "atlas" ++ quote ++ "," ++ endl
           ++ tab ++ tab ++ tab ++ quote ++ "images" ++ quote ++ ":[" ++ endl
           ++ Packer.SaveJson_image false true bitmap_c point_1 false
           ++ Packer.SaveJson_image false true bitmap_a point_0 true
           ++ tab ++ tab ++ tab ++ "]" ++ endl)%string)
  ∧ Packer.SaveJson torn_packer "atlas" "{" false true = Undefined.
Proof.
  split.
  - rewrite (proj1 (SaveJson_separates_elements_by_commas two_packer "atlas"
                      "{" false true)) by (simpl; lia).
    reflexivity.
  - apply (proj2 (SaveJson_separates_elements_by_commas torn_packer "atlas"
                    "{" false true)).
    simpl. lia.
Defined.

(** ** Runs of the binary encoder *)

Lemma SaveBin_writes_aligned_blocks_witness :
  ∃ this' k blocks cerr,
    Packer.SaveBin_sort (sorter := insertion_StdSort) 3 hero_packer = Done this'
    ∧ Packer.SaveBin (sorter := insertion_StdSort)
        (writer := plain_BinaryWriter) 3 hero_packer "atlas" [] false false
        0 16
      = Done (this',
              ([] ++ header_bytes (writer := plain_BinaryWriter) "atlas" 0
                       (length (Packer.bitmaps hero_packer))
               ++ replicate (Z.to_nat k) x00) ++ concat blocks,
              cerr)
    ∧ 1 ≤ k ≤ 16
    ∧ tellp ([] ++ header_bytes (writer := plain_BinaryWriter) "atlas" 0
                     (length (Packer.bitmaps hero_packer))
             ++ replicate (Z.to_nat k) x00) mod 16 = 0
    ∧ Forall2 (padded_record (writer := plain_BinaryWriter) false false 0 16)
        (filter (λ item, ¬ skipped false false 0 16 item)
           (zip (Packer.bitmaps this') (Packer.points this')))
        blocks
    ∧ (length blocks + length cerr = length (Packer.bitmaps hero_packer))%nat.
Proof.
  apply (SaveBin_writes_aligned_blocks (sorter := insertion_StdSort)
           (writer := plain_BinaryWriter) 3 hero_packer "atlas" [] false false
           0).
  - reflexivity.
  - simpl. lia.
  - lia.
  - lia.
Defined.

Lemma SaveBin_negative_version_ignores_alignment_witness :
  ∃ this',
    Packer.SaveBin_sort (sorter := insertion_StdSort) 3 hero_packer = Done this'
    ∧ ∀ alignment,
        Packer.SaveBin (sorter := insertion_StdSort)
          (writer := plain_BinaryWriter) 3 hero_packer "atlas" [] false false
          (-1) alignment
        = Done (this',
                [] ++ header_bytes (writer := plain_BinaryWriter) "atlas" (-1)
                        (length (Packer.bitmaps hero_packer))
                ++ concat (record_bytes (writer := plain_BinaryWriter) false
                             false (-1)
                           <$> zip (Packer.bitmaps this')
                                 (Packer.points this')),
                []).
Proof.
  apply (SaveBin_negative_version_ignores_alignment
           (sorter := insertion_StdSort) (writer := plain_BinaryWriter) 3
           hero_packer "atlas" [] false false (-1)).
  - reflexivity.
  - simpl. lia.
  - lia.
Defined.

Lemma SaveBin_negative_alignment_neither_pads_nor_skips_witness :
  ∃ this',
    Packer.SaveBin_sort (sorter := insertion_StdSort) 3 hero_packer = Done this'
    ∧ Packer.SaveBin (sorter := insertion_StdSort)
        (writer := plain_BinaryWriter) 3 hero_packer "atlas" [] false false
        0 (-4)
      = Done (this',
              [] ++ header_bytes (writer := plain_BinaryWriter) "atlas" 0
                      (length (Packer.bitmaps hero_packer))
              ++ concat (record_bytes (writer := plain_BinaryWriter) false
                           false 0
                         <$> zip (Packer.bitmaps this') (Packer.points this')),
              []).
Proof.
  apply (SaveBin_negative_alignment_neither_pads_nor_skips
           (sorter := insertion_StdSort) (writer := plain_BinaryWriter) 3
           hero_packer "atlas" [] false false 0).
  - reflexivity.
  - simpl. lia.
  - lia.
  - lia.
  - repeat constructor.
Defined.

Lemma SaveBin_undefined_on_alignment_0_or_above_4096_witness :
  Packer.SaveBin (sorter := insertion_StdSort) (writer := plain_BinaryWriter)
    3 hero_packer "atlas" [] false false 0 0 = Undefined
  ∧ ∃ r, Packer.SaveBin (sorter := insertion_StdSort)
           (writer := plain_BinaryWriter) 3 hero_packer "atlas" [] false false
           (-1) 0 = Done r.
Proof.
  split.
  - apply (proj1 (SaveBin_undefined_on_alignment_0_or_above_4096
                    (sorter := insertion_StdSort)
                    (writer := plain_BinaryWriter) 3 hero_packer "atlas" []
                    false false 0 eq_refl ltac:(simpl; lia) 0)).
    split; [lia | by left].
  - apply (proj2 (SaveBin_undefined_on_alignment_0_or_above_4096
                    (sorter := insertion_StdSort)
                    (writer := plain_BinaryWriter) 3 hero_packer "atlas" []
                    false false (-1) eq_refl ltac:(simpl; lia) 0)).
    intros [Hversion _]. lia.
Defined.

Lemma SaveBin_record_takes_one_block_or_two_witness :
  ∃ bin',
    Packer.SaveBin_record (writer := plain_BinaryWriter) false false 0 16
      bitmap_sprite point_1 ([], []) = Done (bin', [])
    ∧ tellp bin' = tellp [] + 2 * 16.
Proof.
  destruct (SaveBin_record_takes_one_block_or_two
              (writer := plain_BinaryWriter) (λ v, eq_refl) (λ v, eq_refl)
              (λ s, f_equal (λ n, S (S n)) (length_list_byte_of_string s))
              false false 0 16 bitmap_sprite point_1 [] [])
    as (bin' & Hrun & Hlength).
  - lia.
  - lia.
  - reflexivity.
  - vm_compute. discriminate.
  - exists bin'. split; [exact Hrun|]. rewrite Hlength. reflexivity.
Defined.
